(** * Address checker: the matching core and the scraped-address parser

    A shallow embedding of [processors/matcher.py], [parsers/html_parser.py]
    and [config.py].  Python [str] values are lists of Unicode code points,
    Python [float] values are IEEE-754 binary64 numbers ([spec_float] with
    precision 53 and maximal exponent 1024), dictionaries that are iterated
    are association lists in insertion order, and the [try]/[except] blocks
    are an explicit error sum. *)

From Stdlib Require Import ZArith List Bool Lia String Ascii.
From Stdlib Require Import Permutation Sorted.
From Stdlib Require Import Floats.SpecFloat.
Import ListNotations.

Set Implicit Arguments.

(** ** Python strings *)

Definition codepoint := Z.
Definition pstr := list codepoint.

Fixpoint bytes_of_string (s : string) : list Z :=
  match s with
  | EmptyString => []
  | String a s' => Z.of_N (N_of_ascii a) :: bytes_of_string s'
  end.

(** Source literals are written in UTF-8; [utf8_decode] turns the bytes of a
    literal into its code points. *)
Fixpoint utf8_decode (bs : list Z) : pstr :=
  match bs with
  | [] => []
  | b0 :: t0 =>
    if (b0 <? 128)%Z then b0 :: utf8_decode t0
    else match t0 with
    | [] => [b0]
    | b1 :: t1 =>
      if (b0 <? 224)%Z then
        (Z.lor (Z.shiftl (Z.land b0 31) 6) (Z.land b1 63)) :: utf8_decode t1
      else match t1 with
      | [] => [b0; b1]
      | b2 :: t2 =>
        if (b0 <? 240)%Z then
          (Z.lor (Z.shiftl (Z.land b0 15) 12)
             (Z.lor (Z.shiftl (Z.land b1 63) 6) (Z.land b2 63))) :: utf8_decode t2
        else match t2 with
        | [] => [b0; b1; b2]
        | b3 :: t3 =>
          (Z.lor (Z.shiftl (Z.land b0 7) 18)
             (Z.lor (Z.shiftl (Z.land b1 63) 12)
                (Z.lor (Z.shiftl (Z.land b2 63) 6) (Z.land b3 63)))) :: utf8_decode t3
        end
      end
    end
  end.

Definition u (s : string) : pstr := utf8_decode (bytes_of_string s).

Fixpoint pstr_eqb (a b : pstr) : bool :=
  match a, b with
  | [], [] => true
  | x :: a', y :: b' => (x =? y)%Z && pstr_eqb a' b'
  | _, _ => false
  end.

(** [str.isspace] of one character: the white space table of CPython
    ([_PyUnicode_IsWhitespace]); [str.strip], [str.split] and the regular
    expression class [\s] all use it. *)
Definition isspace (c : codepoint) : bool :=
  ((9 <=? c) && (c <=? 13) || (28 <=? c) && (c <=? 32) || (c =? 133) || (c =? 160)
   || (c =? 5760) || (8192 <=? c) && (c <=? 8202) || (c =? 8232) || (c =? 8233)
   || (c =? 8239) || (c =? 8287) || (c =? 12288))%Z.

Fixpoint lstrip (s : pstr) : pstr :=
  match s with
  | c :: s' => if isspace c then lstrip s' else s
  | [] => []
  end.

Definition rstrip (s : pstr) : pstr := rev (lstrip (rev s)).

(** [s.strip()] *)
Definition strip (s : pstr) : pstr := rstrip (lstrip s).

(** [s.split()]: the maximal runs of characters that are not white space.
    [cur] is the word being read, reversed. *)
Fixpoint split_aux (cur : pstr) (s : pstr) : list pstr :=
  match s with
  | [] => match cur with [] => [] | _ => [rev cur] end
  | c :: s' =>
    if isspace c then
      match cur with
      | [] => split_aux [] s'
      | _ => rev cur :: split_aux [] s'
      end
    else split_aux (c :: cur) s'
  end.

Definition split (s : pstr) : list pstr := split_aux [] s.

(** [sep.join(ws)] *)
Fixpoint join (sep : pstr) (ws : list pstr) : pstr :=
  match ws with
  | [] => []
  | [w] => w
  | w :: ws' => w ++ sep ++ join sep ws'
  end.

Fixpoint startswith (w s : pstr) : bool :=
  match w, s with
  | [], _ => true
  | x :: w', y :: s' => (x =? y)%Z && startswith w' s'
  | _ :: _, [] => false
  end.

(** [w in s] for strings *)
Fixpoint contains (w s : pstr) : bool :=
  startswith w s || match s with [] => false | _ :: s' => contains w s' end.

(** [s.replace(old, new)] for a non-empty [old]: the occurrences are taken
    from the left and do not overlap; [skip] counts the characters of an
    occurrence that are still to be dropped. *)
Fixpoint replace_aux (old new : pstr) (skip : nat) (s : pstr) : pstr :=
  match s with
  | [] => []
  | c :: s' =>
    match skip with
    | S k => replace_aux old new k s'
    | O =>
      if startswith old s then new ++ replace_aux old new (List.length old - 1) s'
      else c :: replace_aux old new 0 s'
    end
  end.

Definition replace (old new s : pstr) : pstr := replace_aux old new 0 s.

(** Decimal digits of a non-negative integer, most significant first. *)
Fixpoint digits_fuel (fuel : nat) (n : Z) (acc : pstr) : pstr :=
  match fuel with
  | O => acc
  | S f =>
    let acc' := (48 + n mod 10)%Z :: acc in
    if (n <? 10)%Z then acc' else digits_fuel f (n / 10)%Z acc'
  end.

(** [str(n)] for an [int] *)
Definition str_of_int (n : Z) : pstr :=
  if (n <? 0)%Z then 45%Z :: digits_fuel (S (Z.to_nat (Z.log2 (- n)))) (- n) []
  else digits_fuel (S (Z.to_nat (Z.log2 n))) n [].

(** *** The Unicode database

    The code calls [str.lower], the class [\d] and case-insensitive matching,
    which consult the Unicode character database of the interpreter.  On
    Basic Latin and on the Cyrillic block U+0400..U+045F these tables are
    written out below; everywhere else they are the parameter [Unicode], so
    every statement holds for whatever the interpreter's tables say there. *)
Record Unicode := {
  (** [s.lower()] of a string with a character outside the two blocks *)
  u_lower : pstr -> pstr;
  (** category Nd, for a character outside the two blocks *)
  u_isdecimal : codepoint -> bool;
  (** [u_ci_eq p c]: a pattern literal [p] matches [c] under [re.IGNORECASE],
      for a [c] outside the two blocks *)
  u_ci_eq : codepoint -> codepoint -> bool
}.

Definition in_blocks (c : codepoint) : bool :=
  ((0 <=? c) && (c <? 128) || (1024 <=? c) && (c <? 1120))%Z.

(** simple lower-case mapping inside the two blocks *)
Definition lower_char (c : codepoint) : codepoint :=
  if ((65 <=? c) && (c <=? 90))%Z then (c + 32)%Z
  else if ((1024 <=? c) && (c <=? 1039))%Z then (c + 80)%Z
  else if ((1040 <=? c) && (c <=? 1071))%Z then (c + 32)%Z
  else c.

(** The tables that follow only look outside the two blocks through [U]. *)
Definition lower (U : Unicode) (s : pstr) : pstr :=
  if forallb in_blocks s then map lower_char s else u_lower U s.

Definition isdecimal (U : Unicode) (c : codepoint) : bool :=
  if in_blocks c then ((48 <=? c) && (c <=? 57))%Z else u_isdecimal U c.

Definition ci_eq (U : Unicode) (p c : codepoint) : bool :=
  if in_blocks c then (lower_char c =? lower_char p)%Z else u_ci_eq U p c.

(** The tables restricted to the two blocks: nothing is lower-cased, a digit
    or a case variant outside them. *)
Definition blocks_only : Unicode :=
  {| u_lower := map lower_char; u_isdecimal := fun _ => false; u_ci_eq := fun _ _ => false |}.

(** ** Regular expressions

    The fragment of [re] the code uses, matched the way [re] does: by
    backtracking, alternatives from the left, greedy repetition. *)
Inductive regex :=
| Chr (p : codepoint -> bool)
| Eps
| Seq (r1 r2 : regex)
| Alt (r1 r2 : regex)
| Star (r : regex)
| Group (n : nat) (r : regex)
| Bol
| Eol.

Definition captures := list (nat * pstr).

Fixpoint group (n : nat) (caps : captures) : option pstr :=
  match caps with
  | [] => None
  | (i, w) :: caps' => if Nat.eqb i n then Some w else group n caps'
  end.

Section Matcher.
Variable A : Type.

(** [rmatch r pos s caps k]: match [r] at offset [pos], where [s] is the
    rest of the subject, then continue with [k]; [None] makes the matcher
    backtrack. *)
Fixpoint rmatch (r : regex) (pos : nat) (s : pstr) (caps : captures)
    (k : nat -> pstr -> captures -> option A) {struct r} : option A :=
  match r with
  | Chr p =>
    match s with
    | c :: s' => if p c then k (S pos) s' caps else None
    | [] => None
    end
  | Eps => k pos s caps
  | Seq r1 r2 => rmatch r1 pos s caps (fun pos' s' caps' => rmatch r2 pos' s' caps' k)
  | Alt r1 r2 =>
    match rmatch r1 pos s caps k with
    | Some x => Some x
    | None => rmatch r2 pos s caps k
    end
  | Star r' =>
    (fix loop (n : nat) (pos : nat) (s : pstr) (caps : captures) {struct n} : option A :=
       match n with
       | O => k pos s caps
       | S n' =>
         match rmatch r' pos s caps
                 (fun pos' s' caps' =>
                    if Nat.ltb (List.length s') (List.length s) then loop n' pos' s' caps' else None) with
         | Some x => Some x
         | None => k pos s caps
         end
       end) (List.length s) pos s caps
  | Group n r' =>
    rmatch r' pos s caps
      (fun pos' s' caps' => k pos' s' ((n, firstn (pos' - pos) s) :: caps'))
  | Bol => if Nat.eqb pos 0 then k pos s caps else None
  | Eol =>
    match s with
    | [] => k pos s caps
    | [c] => if (c =? 10)%Z then k pos s caps else None
    | _ => None
    end
  end.
End Matcher.

(** one or more, zero or one *)
Definition Plus (r : regex) : regex := Seq r (Star r).
Definition Opt (r : regex) : regex := Alt r Eps.

(** a literal word; with [re.IGNORECASE] each letter is compared through
    [ci_eq] *)
Fixpoint lit (w : pstr) : regex :=
  match w with
  | [] => Eps
  | c :: w' => Seq (Chr (Z.eqb c)) (lit w')
  end.

(** the letters of the two blocks; only a cased pattern character is
    compared without regard to case *)
Definition cased (c : codepoint) : bool :=
  ((65 <=? c) && (c <=? 90) || (97 <=? c) && (c <=? 122) || (1024 <=? c) && (c <? 1120))%Z.

Fixpoint lit_ci (U : Unicode) (w : pstr) : regex :=
  match w with
  | [] => Eps
  | c :: w' => Seq (Chr (if cased c then ci_eq U c else Z.eqb c)) (lit_ci U w')
  end.

(** [r1 r2 ... rn] *)
Fixpoint seqs (rs : list regex) : regex :=
  match rs with
  | [] => Eps
  | [r] => r
  | r :: rs' => Seq r (seqs rs')
  end.

(** [w1|w2|...] *)
Fixpoint alts (rs : list regex) : regex :=
  match rs with
  | [] => Chr (fun _ => false)
  | [r] => r
  | r :: rs' => Alt r (alts rs')
  end.

(** the end offset and the groups of a match at [pos] *)
Definition match_at (r : regex) (pos : nat) (s : pstr) : option (nat * captures) :=
  rmatch r pos s [] (fun pos' _ caps => Some (pos', caps)).

(** [re.match(r, s)] *)
Definition re_match (r : regex) (s : pstr) : option (nat * captures) := match_at r 0 s.

(** [re.search(r, s)]: the match at the leftmost offset that has one *)
Fixpoint search_from (r : regex) (pos : nat) (s : pstr) : option (nat * nat * captures) :=
  match match_at r pos s with
  | Some (e, caps) => Some (pos, e, caps)
  | None =>
    match s with
    | [] => None
    | _ :: s' => search_from r (S pos) s'
    end
  end.

Definition re_search (r : regex) (s : pstr) : option (nat * nat * captures) :=
  search_from r 0 s.

(** [re.sub(r, '', s)]: every match, taken from the left, is removed; after
    an empty match the scan moves one character on. *)
Fixpoint sub_aux (r : regex) (skip pos : nat) (s : pstr) : pstr :=
  match skip with
  | S k =>
    match s with
    | [] => []
    | _ :: s' => sub_aux r k (S pos) s'
    end
  | O =>
    match s with
    | [] => []
    | c :: s' =>
      match match_at r pos s with
      | Some (e, _) =>
        if Nat.eqb e pos then c :: sub_aux r 0 (S pos) s'
        else sub_aux r (e - pos - 1) (S pos) s'
      | None => c :: sub_aux r 0 (S pos) s'
      end
    end
  end.

Definition re_sub_empty (r : regex) (s : pstr) : pstr := sub_aux r 0 0 s.

(** ** Python floats: IEEE-754 binary64 *)

Definition prec : Z := 53.
Definition emax : Z := 1024.

Definition float := spec_float.

Definition fadd : float -> float -> float := SFadd prec emax.
Definition fmul : float -> float -> float := SFmul prec emax.
Definition fdiv : float -> float -> float := SFdiv prec emax.

(** [a >= b], [a > b], [a == b] on floats: all false on a NaN *)
Definition fge (a b : float) : bool := SFleb b a.
Definition fgt (a b : float) : bool := SFltb b a.
Definition feq (a b : float) : bool := SFeqb a b.

(** [float(n)] for an [int] below the overflow threshold (any length is):
    the nearest binary64 number, ties to even *)
Definition float_of_int (n : Z) : float := binary_normalize prec emax n 0 false.

(** The float literals of the source; a literal denotes the binary64 number
    nearest to its decimal value (see [literals_are_nearest]). *)
Definition f0_0 : float := S754_zero false.
Definition f1_0 : float := S754_finite false 4503599627370496 (-52).
Definition f2_0 : float := S754_finite false 4503599627370496 (-51).
Definition f0_9 : float := S754_finite false 8106479329266893 (-53).
Definition f0_7 : float := S754_finite false 6305039478318694 (-53).
Definition f0_4 : float := S754_finite false 7205759403792794 (-54).
Definition f0_3 : float := S754_finite false 5404319552844595 (-54).

(** [format(x, '.2f')]: [x] rounded to two decimals, ties to even on the
    exact binary value *)
Definition round_half_even_div (num den : Z) : Z :=
  let q := (num / den)%Z in
  let r := (num mod den)%Z in
  match (2 * r ?= den)%Z with
  | Lt => q
  | Gt => (q + 1)%Z
  | Eq => if Z.even q then q else (q + 1)%Z
  end.

Definition two_digits (n : Z) : pstr := [(48 + n / 10)%Z; (48 + n mod 10)%Z].

Definition format_2f (x : float) : pstr :=
  match x with
  | S754_nan => u "nan"
  | S754_infinity s => (if s then u "-" else []) ++ u "inf"
  | S754_zero s => (if s then u "-" else []) ++ u "0.00"
  | S754_finite s m e =>
    let q := match e with
             | Zneg p => round_half_even_div (Zpos m * 100) (Z.pow_pos 2 p)
             | _ => (Zpos m * 100 * 2 ^ e)%Z
             end in
    (if s then u "-" else []) ++ str_of_int (q / 100) ++ u "." ++ two_digits (q mod 100)
  end.

(** ** [difflib.SequenceMatcher(None, a, b).ratio()]

    The comparison of the Python standard library, with no junk predicate and
    with the automatic junk heuristic left on, as the code calls it.  Indices
    are [Z], as Python's are. *)
Module Difflib.

Definition idx := Z.

Definition at_ (s : pstr) (i : idx) : codepoint := nth (Z.to_nat i) s 0%Z.

Definition zlen (s : pstr) : Z := Z.of_nat (List.length s).

Fixpoint indices_of (elt : codepoint) (b : pstr) (j : idx) : list idx :=
  match b with
  | [] => []
  | c :: b' => if (c =? elt)%Z then j :: indices_of elt b' (j + 1)%Z else indices_of elt b' (j + 1)%Z
  end.

(** [elt] was purged from [b2j] as popular: [b] has 200 elements or more and
    [elt] occurs more than [len(b) // 100 + 1] times *)
Definition popular (b : pstr) (elt : codepoint) : bool :=
  ((200 <=? zlen b) && (zlen b / 100 + 1 <? Z.of_nat (List.length (indices_of elt b 0))))%Z.

(** [b2j.get(elt, [])] *)
Definition b2j_get (b : pstr) (elt : codepoint) : list idx :=
  if popular b elt then [] else indices_of elt b 0%Z.

(** a dictionary from index to length, most recent binding first *)
Fixpoint j2len_get (d : list (idx * Z)) (j : idx) : Z :=
  match d with
  | [] => 0%Z
  | (j', k) :: d' => if (j' =? j)%Z then k else j2len_get d' j
  end.

Record best := { besti : idx; bestj : idx; bestsize : Z }.

(** the loop over [b2j.get(a[i])] of [find_longest_match] *)
Fixpoint scan_row (js : list idx) (blo bhi i : idx) (j2len newj2len : list (idx * Z)) (bst : best)
    : list (idx * Z) * best :=
  match js with
  | [] => (newj2len, bst)
  | j :: js' =>
    if (j <? blo)%Z then scan_row js' blo bhi i j2len newj2len bst
    else if (bhi <=? j)%Z then (newj2len, bst)
    else
      let k := (j2len_get j2len (j - 1) + 1)%Z in
      let bst' := if (bestsize bst <? k)%Z
                  then {| besti := i - k + 1; bestj := j - k + 1; bestsize := k |}%Z
                  else bst in
      scan_row js' blo bhi i j2len ((j, k) :: newj2len) bst'
  end.

(** the loop [for i in range(alo, ahi)]; [n] is the number of rows left *)
Fixpoint scan_rows (a b : pstr) (n : nat) (i : idx) (blo bhi : idx) (j2len : list (idx * Z)) (bst : best)
    : best :=
  match n with
  | O => bst
  | S n' =>
    let '(newj2len, bst') := scan_row (b2j_get b (at_ a i)) blo bhi i j2len [] bst in
    scan_rows a b n' (i + 1)%Z blo bhi newj2len bst'
  end.

(** the first [while]: the match grows to the left while the elements
    before it agree; it runs at most [besti - alo] times, which is [n] *)
Fixpoint extend_left (a b : pstr) (n : nat) (alo blo : idx) (bst : best) : best :=
  match n with
  | O => bst
  | S n' =>
    if ((alo <? besti bst) && (blo <? bestj bst)
        && (at_ a (besti bst - 1) =? at_ b (bestj bst - 1)))%Z
    then extend_left a b n' alo blo
           {| besti := besti bst - 1; bestj := bestj bst - 1; bestsize := bestsize bst + 1 |}%Z
    else bst
  end.

(** the second [while]: the match grows to the right; it runs at most
    [ahi - (besti + bestsize)] times, which is [n] *)
Fixpoint extend_right (a b : pstr) (n : nat) (ahi bhi : idx) (bst : best) : best :=
  match n with
  | O => bst
  | S n' =>
    if ((besti bst + bestsize bst <? ahi) && (bestj bst + bestsize bst <? bhi)
        && (at_ a (besti bst + bestsize bst) =? at_ b (bestj bst + bestsize bst)))%Z
    then extend_right a b n' ahi bhi
           {| besti := besti bst; bestj := bestj bst; bestsize := bestsize bst + 1 |}%Z
    else bst
  end.

(** [find_longest_match(alo, ahi, blo, bhi)]; the two loops that would absorb
    junk never run, the junk set being empty *)
Definition find_longest_match (a b : pstr) (alo ahi blo bhi : idx) : best :=
  let b0 := scan_rows a b (Z.to_nat (ahi - alo)) alo blo bhi []
              {| besti := alo; bestj := blo; bestsize := 0 |} in
  let b1 := extend_left a b (Z.to_nat (besti b0 - alo)) alo blo b0 in
  extend_right a b (Z.to_nat (ahi - (besti b1 + bestsize b1))) ahi bhi b1.

(** the work list of [get_matching_blocks]; [queue.pop()] takes the entry
    appended last, which is the head here *)
Fixpoint blocks_loop (a b : pstr) (fuel : nat) (queue : list (idx * idx * idx * idx)) (acc : list best)
    : option (list best) :=
  match queue with
  | [] => Some acc
  | (alo, ahi, blo, bhi) :: queue' =>
    match fuel with
    | O => None
    | S fuel' =>
      let x := find_longest_match a b alo ahi blo bhi in
      let i := besti x in let j := bestj x in let k := bestsize x in
      if (k =? 0)%Z then blocks_loop a b fuel' queue' acc
      else
        let q1 := if ((alo <? i) && (blo <? j))%Z then (alo, i, blo, j) :: queue' else queue' in
        let q2 := if ((i + k <? ahi) && (j + k <? bhi))%Z then (i + k, ahi, j + k, bhi)%Z :: q1 else q1 in
        blocks_loop a b fuel' q2 (acc ++ [x])
    end
  end.

(** every turn of the loop either finds no block or splits its window into
    two strictly smaller ones, so [2 * len(a) + 1] turns are enough
    (see [matching_blocks_total]) *)
Definition get_matching_blocks (a b : pstr) : option (list best) :=
  blocks_loop a b (2 * List.length a + 1) [(0, zlen a, 0, zlen b)%Z] [].

(** [sum(triple[-1] for triple in self.get_matching_blocks())]; sorting the
    blocks and merging adjacent ones leaves the sum as it is *)
Definition matches (a b : pstr) : Z :=
  match get_matching_blocks a b with
  | Some bl => fold_right (fun x acc => (bestsize x + acc)%Z) 0%Z bl
  | None => 0%Z
  end.

(** [_calculate_ratio(matches, length)] *)
Definition calculate_ratio (m length : Z) : float :=
  if (length =? 0)%Z then f1_0 else fdiv (fmul f2_0 (float_of_int m)) (float_of_int length).

Definition ratio (a b : pstr) : float := calculate_ratio (matches a b) (zlen a + zlen b).

End Difflib.

(** ** Python values, dictionaries and exceptions *)

(** the values a row field or an office field can hold *)
Inductive pyval :=
| PNone
| PStr (s : pstr)
| PInt (n : Z).

(** [bool(v)] *)
Definition truthy (v : pyval) : bool :=
  match v with
  | PNone => false
  | PStr [] => false
  | PStr (_ :: _) => true
  | PInt n => negb (n =? 0)%Z
  end.


(** [str(v)], which is also what an f-string field prints *)
Definition py_str (v : pyval) : pstr :=
  match v with
  | PNone => u "None"
  | PStr s => s
  | PInt n => str_of_int n
  end.

Definition type_name (v : pyval) : pstr :=
  match v with
  | PNone => u "NoneType"
  | PStr _ => u "str"
  | PInt _ => u "int"
  end.

Inductive exn :=
| AttributeError (msg : pstr)
| KeyError (key : pstr).

(** [str(e)]; a [KeyError] prints the [repr] of its key *)
Definition exn_str (e : exn) : pstr :=
  match e with
  | AttributeError msg => msg
  | KeyError key => u "'" ++ key ++ u "'"
  end.

(** a computation that returns or raises *)
Inductive result (A : Type) :=
| Ok (a : A)
| Raise (e : exn).
Arguments Ok {A} a.
Arguments Raise {A} e.

Definition bind {A B : Type} (m : result A) (f : A -> result B) : result B :=
  match m with
  | Ok a => f a
  | Raise e => Raise e
  end.

Notation "x <- m ;; k" := (bind m (fun x => k))
  (at level 61, m at next level, right associativity).

(** a [dict] with string keys, in insertion order *)
Definition dict := list (pstr * pyval).

Fixpoint dict_lookup (d : dict) (key : pstr) : option pyval :=
  match d with
  | [] => None
  | (k, v) :: d' => if pstr_eqb k key then Some v else dict_lookup d' key
  end.

(** [d.get(key, default)] *)
Definition dict_get (d : dict) (key : pstr) (default : pyval) : pyval :=
  match dict_lookup d key with
  | Some v => v
  | None => default
  end.

(** [d[key]] *)
Definition dict_getitem (d : dict) (key : pstr) : result pyval :=
  match dict_lookup d key with
  | Some v => Ok v
  | None => Raise (KeyError key)
  end.

(** [v.strip()] and [v.lower()] as method calls on any value *)
Definition no_attribute (v : pyval) (name : pstr) : exn :=
  AttributeError (u "'" ++ type_name v ++ u "' object has no attribute '" ++ name ++ u "'").

Definition method_strip (v : pyval) : result pstr :=
  match v with
  | PStr s => Ok (strip s)
  | _ => Raise (no_attribute v (u "strip"))
  end.

(** ** [config.py] *)

Definition SETTLEMENT_MATCH_THRESHOLD : float := f0_9.
Definition STREET_MATCH_THRESHOLD : float := f0_9.
Definition PARTIAL_MATCH_THRESHOLD : float := f0_4.
Definition STREET_WEIGHT : float := f0_7.
Definition HOUSE_WEIGHT : float := f0_3.

(** ** [processors/matcher.py] *)

Definition office := dict.

Record address_data := {
  row_num : Z;
  settlement : pyval;
  street : pyval;
  house : pyval
}.

Record match_result := {
  r_row_num : Z;
  r_status : pstr;
  r_details : pstr
}.

(** an entry of the list [_find_matching_settlements] returns *)
Record candidate := {
  c_name : pstr;
  c_offices : list office;
  c_score : float
}.

(** the dictionary [_match_street_and_house] returns *)
Record street_house_match := {
  sh_score : float;
  sh_street_similarity : float;
  sh_house_similarity : float;
  sh_details : pstr
}.

Record best_match := {
  bm_office : office;
  bm_settlement_score : float;
  bm_total_score : float;
  bm_details : pstr
}.

Definition status_yes : pstr := u "Да".
Definition status_check : pstr := u "Проверить".
Definition status_no : pstr := u "Нет".

(** the vocabulary of the two substitutions of [_normalize_text] *)
Definition markers : list pstr :=
  [u "г."; u "город"; u "с."; u "село"; u "пос."; u "посёлок";
   u "ул."; u "улица"; u "пр."; u "проспект"; u "мкр."; u "микрорайон"].

(** [^(г\.|город|...)\s*] *)
Definition prefix_re : regex :=
  Seq Bol (Seq (Group 1 (alts (map lit markers))) (Star (Chr isspace))).

(** [\s*(г\.|город|...)$] *)
Definition suffix_re : regex :=
  Seq (Star (Chr isspace)) (Seq (Group 1 (alts (map lit markers))) Eol).

(** the dictionary [replacements], in insertion order *)
Definition replacements : list (pstr * pstr) :=
  [(u "проспект", u "пр"); (u "улица", u "ул"); (u "микрорайон", u "мкр");
   (u "переулок", u "пер"); (u "бульвар", u "бул")].

Definition apply_replacements (text : pstr) : pstr :=
  fold_left (fun t '(old, new) => replace old new t) replacements text.

(** [\d+] *)
Definition digits_re (U : Unicode) : regex := Plus (Chr (isdecimal U)).

Section Matcher_py.
Variable U : Unicode.

Definition _normalize_text (text : pyval) : pstr :=
  if negb (truthy text) then []
  else
    let text := strip (lower U (py_str text)) in
    let text := join (u " ") (split text) in
    let text := re_sub_empty prefix_re text in
    let text := re_sub_empty suffix_re text in
    let text := apply_replacements text in
    strip text.

Definition _calculate_similarity (text1 text2 : pstr) : float :=
  match text1, text2 with
  | [], _ | _, [] => f0_0
  | _, _ => if pstr_eqb text1 text2 then f1_0 else Difflib.ratio text1 text2
  end.

Definition _extract_house_number (house_str : pyval) : option pstr :=
  if negb (truthy house_str) then None
  else
    match re_search (digits_re U) (py_str house_str) with
    | Some (b, e, _) => Some (firstn (e - b) (skipn b (py_str house_str)))
    | None => None
    end.

(** [num1 and num2 and num1 == num2] *)
Definition same_number (num1 num2 : option pstr) : bool :=
  match num1, num2 with
  | Some ((_ :: _) as n1), Some ((_ :: _) as n2) => pstr_eqb n1 n2
  | _, _ => false
  end.

Definition _calculate_house_similarity (house1 house2 : pyval) : result float :=
  if negb (truthy house1) || negb (truthy house2) then Ok f0_0
  else
    let num1 := _extract_house_number house1 in
    let num2 := _extract_house_number house2 in
    s1 <- method_strip house1 ;;
    s2 <- method_strip house2 ;;
    if pstr_eqb (lower U s1) (lower U s2) then Ok f1_0
    else if same_number num1 num2 then Ok f0_9
    else Ok (_calculate_similarity (py_str house1) (py_str house2)).

(** [settlement_score * 0.3 + street_similarity * STREET_WEIGHT
     + house_similarity * HOUSE_WEIGHT] *)
Definition total_score (settlement_score street_similarity house_similarity : float) : float :=
  fadd (fadd (fmul settlement_score f0_3) (fmul street_similarity STREET_WEIGHT))
       (fmul house_similarity HOUSE_WEIGHT).

Definition _match_street_and_house (street house : pyval) (o : office) (settlement_score : float)
    : result street_house_match :=
  let office_street := dict_get o (u "street") (PStr []) in
  let office_house := dict_get o (u "house") (PStr []) in
  let normalized_street := _normalize_text street in
  let normalized_office_street := _normalize_text office_street in
  let street_similarity := _calculate_similarity normalized_street normalized_office_street in
  house_similarity <- _calculate_house_similarity house office_house ;;
  let score := total_score settlement_score street_similarity house_similarity in
  office_settlement <- dict_getitem o (u "settlement") ;;
  let details :=
    u "Найден: " ++ py_str office_settlement ++ u ", " ++ py_str office_street ++ u ", "
      ++ py_str office_house ++ u " (улица: " ++ format_2f street_similarity
      ++ u ", дом: " ++ format_2f house_similarity ++ u ")" in
  Ok {| sh_score := score; sh_street_similarity := street_similarity;
        sh_house_similarity := house_similarity; sh_details := details |}.

Definition _determine_status (bm : best_match) (ad : address_data) : match_result :=
  let status :=
    if fge (bm_total_score bm) f0_9 then status_yes
    else if fge (bm_total_score bm) PARTIAL_MATCH_THRESHOLD then status_check
    else status_no in
  {| r_row_num := row_num ad; r_status := status; r_details := bm_details bm |}.

(** *** The reference index *)

(** [settlement_cache], a dictionary in insertion order *)
Definition settlement_cache := list (pstr * list office).

(** [if key not in cache: cache[key] = []] then [cache[key].extend(offices)] *)
Fixpoint cache_extend (cache : settlement_cache) (key : pstr) (offices : list office)
    : settlement_cache :=
  match cache with
  | [] => [(key, offices)]
  | (k, os) :: cache' =>
    if pstr_eqb k key then (k, os ++ offices) :: cache'
    else (k, os) :: cache_extend cache' key offices
  end.

Definition _prepare_search_cache (offices_data : list (pstr * list office)) : settlement_cache :=
  fold_left (fun cache '(settlement, offices) =>
               cache_extend cache (_normalize_text (PStr settlement)) offices)
            offices_data [].

(** [matches.sort(key=lambda x: x['score'], reverse=True)]: the sort of
    Python is stable, also when reversed, so on keys that are not NaN its
    result is the one of this insertion sort *)
Fixpoint insert_desc (x : candidate) (l : list candidate) : list candidate :=
  match l with
  | [] => [x]
  | y :: l' => if SFltb (c_score y) (c_score x) then x :: l else y :: insert_desc x l'
  end.

Definition sort_desc (l : list candidate) : list candidate :=
  fold_left (fun acc x => insert_desc x acc) l [].

(** the loop of [_find_matching_settlements], before the sort *)
Fixpoint settlement_matches (normalized_input : pstr) (cache : settlement_cache) : list candidate :=
  match cache with
  | [] => []
  | (cached_settlement, offices) :: cache' =>
    let similarity := _calculate_similarity normalized_input cached_settlement in
    if fge similarity SETTLEMENT_MATCH_THRESHOLD
    then {| c_name := cached_settlement; c_offices := offices; c_score := similarity |}
           :: settlement_matches normalized_input cache'
    else settlement_matches normalized_input cache'
  end.

Definition _find_matching_settlements (cache : settlement_cache) (settlement_name : pyval)
    : list candidate :=
  sort_desc (settlement_matches (_normalize_text settlement_name) cache).

(** *** [match_address] *)

(** the state of the two nested loops: [best_match] and [best_score] *)
Definition scan_state := (option best_match * float)%type.

(** the inner loop, over the offices of one candidate *)
Fixpoint scan_offices (street house : pyval) (settlement_score : float) (offices : list office)
    (st : scan_state) : result scan_state :=
  match offices with
  | [] => Ok st
  | o :: offices' =>
    m <- _match_street_and_house street house o settlement_score ;;
    let st' :=
      if fgt (sh_score m) (snd st)
      then (Some {| bm_office := o; bm_settlement_score := settlement_score;
                    bm_total_score := sh_score m; bm_details := sh_details m |},
            sh_score m)
      else st in
    scan_offices street house settlement_score offices' st'
  end.

(** the outer loop, over the candidates *)
Fixpoint scan_settlements (street house : pyval) (cands : list candidate) (st : scan_state)
    : result scan_state :=
  match cands with
  | [] => Ok st
  | c :: cands' =>
    st' <- scan_offices street house (c_score c) (c_offices c) st ;;
    scan_settlements street house cands' st'
  end.

Definition settlement_not_found (ad : address_data) : match_result :=
  {| r_row_num := row_num ad; r_status := status_no;
     r_details := u "Поселение '" ++ py_str (settlement ad) ++ u "' не найдено в базе QazPost" |}.

Definition street_not_found (ad : address_data) : match_result :=
  {| r_row_num := row_num ad; r_status := status_no;
     r_details := u "Улица '" ++ py_str (street ad) ++ u "' не найдена в поселении '"
                    ++ py_str (settlement ad) ++ u "'" |}.

(** the body of the [try] *)
Definition match_address_try (cache : settlement_cache) (ad : address_data) : result match_result :=
  let matching_settlements := _find_matching_settlements cache (settlement ad) in
  match matching_settlements with
  | [] => Ok (settlement_not_found ad)
  | _ :: _ =>
    st <- scan_settlements (street ad) (house ad) matching_settlements (None, f0_0) ;;
    match fst st with
    | Some bm => Ok (_determine_status bm ad)
    | None => Ok (street_not_found ad)
    end
  end.

(** the [except Exception as e] clause *)
Definition match_address_except (ad : address_data) (e : exn) : match_result :=
  {| r_row_num := row_num ad; r_status := status_check;
     r_details := u "Ошибка при проверке: " ++ exn_str e |}.

Definition match_address (cache : settlement_cache) (ad : address_data) : match_result :=
  match match_address_try cache ad with
  | Ok r => r
  | Raise e => match_address_except ad e
  end.

End Matcher_py.

(** ** [parsers/html_parser.py] *)

Section Parser_py.
Variable U : Unicode.

Definition ws : regex := Chr isspace.
Definition comma : regex := Chr (Z.eqb 44).
(** [[^,]] and [.] (which stops at a line feed) *)
Definition not_comma : regex := Chr (fun c => negb (c =? 44)%Z).
Definition any_char : regex := Chr (fun c => negb (c =? 10)%Z).

(** [(?:ул\.|пр\.|мкр\.)] under [re.IGNORECASE] *)
Definition street_kind : regex := alts (map (lit_ci U) [u "ул."; u "пр."; u "мкр."]).

(** the optional [г\.] and [д\.] with the white space after them (the
    patterns are quoted with blanks between their tokens) *)
Definition opt_city : regex := Opt (Seq (lit_ci U (u "г.")) (Star ws)).
Definition opt_house : regex := Opt (Seq (lit_ci U (u "д.")) (Star ws)).

(** [(?: г\. \s* )? ( [^,]+ ) , \s* (?: ул\.|пр\.|мкр\. ) \s* ( [^,]+ ) , \s* (?: д\. \s* )? ( .+ )] *)
Definition pattern1 : regex :=
  seqs [opt_city; Group 1 (Plus not_comma); comma; Star ws; street_kind; Star ws;
        Group 2 (Plus not_comma); comma; Star ws; opt_house; Group 3 (Plus any_char)].

(** [( [^,]+ ) , \s* (?: ул\.|пр\.|мкр\. ) \s* ( [^,]+ ) , \s* ( .+ )] *)
Definition pattern2 : regex :=
  seqs [Group 1 (Plus not_comma); comma; Star ws; street_kind; Star ws;
        Group 2 (Plus not_comma); comma; Star ws; Group 3 (Plus any_char)].

(** [(?: г\. \s* )? ( [^,]+ ) \s+ (?: ул\.|пр\.|мкр\. ) \s* ( [^,]+ ) \s+ (?: д\. \s* )? ( .+ )] *)
Definition pattern3 : regex :=
  seqs [opt_city; Group 1 (Plus not_comma); Plus ws; street_kind; Star ws;
        Group 2 (Plus not_comma); Plus ws; opt_house; Group 3 (Plus any_char)].

Definition patterns : list regex := [pattern1; pattern2; pattern3].

(** [^(г\.|город|с\.|село|пос\.|посёлок)\s*] under [re.IGNORECASE] *)
Definition settlement_prefix_re : regex :=
  Seq Bol (Seq (Group 1 (alts (map (lit_ci U)
    [u "г."; u "город"; u "с."; u "село"; u "пос."; u "посёлок"]))) (Star ws)).

(** [^(ул\.|пр\.|мкр\.)] under [re.IGNORECASE] *)
Definition street_prefix_re : regex := Seq Bol (Group 1 street_kind).

(** [^(д\.|дом)\s*] under [re.IGNORECASE] *)
Definition house_prefix_re : regex :=
  Seq Bol (Seq (Group 1 (alts (map (lit_ci U) [u "д."; u "дом"]))) (Star ws)).

(** the cleaning functions return a string or [None] *)
Definition _clean_settlement_name (settlement : pstr) : option pstr :=
  let settlement := strip settlement in
  let settlement := re_sub_empty settlement_prefix_re settlement in
  match settlement with
  | [] => None
  | _ :: _ => Some (strip settlement)
  end.

Definition _clean_street_name (street : pstr) : option pstr :=
  let street := strip street in
  let street :=
    match re_match street_prefix_re street with
    | Some _ => street
    | None =>
      if existsb (fun word => contains word (lower U street)) [u "проспект"; u "avenue"]
      then u "пр. " ++ street
      else if existsb (fun word => contains word (lower U street)) [u "микрорайон"; u "мкр"]
      then u "мкр. " ++ street
      else u "ул. " ++ street
    end in
  match street with
  | [] => None
  | _ :: _ => Some street
  end.

Definition _clean_house_number (house : pstr) : option pstr :=
  let house := strip house in
  let house := re_sub_empty house_prefix_re house in
  match house with
  | [] => None
  | _ :: _ => Some (strip house)
  end.

(** [bool(v)] of a value that is a string or [None] *)
Definition nonempty (v : option pstr) : bool :=
  match v with
  | Some (_ :: _) => true
  | _ => false
  end.

Record parsed_address := {
  pa_settlement : pstr;
  pa_street : pstr;
  pa_house : pstr
}.

Definition group_text (n : nat) (caps : captures) : pstr :=
  match group n caps with
  | Some w => w
  | None => []
  end.

(** one turn of the loop over [patterns]: [Some] when the turn returns *)
Definition try_pattern (pattern : regex) (clean_address : pstr) : option parsed_address :=
  match re_search pattern clean_address with
  | Some (_, _, caps) =>
    let settlement := _clean_settlement_name (strip (group_text 1 caps)) in
    let street := _clean_street_name (strip (group_text 2 caps)) in
    let house := _clean_house_number (strip (group_text 3 caps)) in
    match settlement, street, house with
    | Some ((_ :: _) as se), Some ((_ :: _) as st), Some ((_ :: _) as ho) =>
      Some {| pa_settlement := se; pa_street := st; pa_house := ho |}
    | _, _, _ => None
    end
  | None => None
  end.

Fixpoint parse_loop (ps : list regex) (clean_address : pstr) : option parsed_address :=
  match ps with
  | [] => None
  | pattern :: ps' =>
    match try_pattern pattern clean_address with
    | Some r => Some r
    | None => parse_loop ps' clean_address
    end
  end.

Definition _parse_address_string (address_text : pstr) : option parsed_address :=
  let clean_address := join (u " ") (split address_text) in
  parse_loop patterns clean_address.

(** An office container of a page, as far as the parser looks at it: the
    text of its address block ([get_text(strip=True)]), or [None] when it has
    no address block. *)
Definition container := option pstr.

Definition _extract_office_data (c : container) : option office :=
  match c with
  | None => None
  | Some [] => None
  | Some ((_ :: _) as address_text) =>
    match _parse_address_string address_text with
    | None => None
    | Some pa =>
      Some [(u "full_address", PStr address_text); (u "settlement", PStr (pa_settlement pa));
            (u "street", PStr (pa_street pa)); (u "house", PStr (pa_house pa))]
    end
  end.

(** [offices_data], a dictionary in insertion order *)
Definition database := list (pstr * list office).

(** [if key not in db: db[key] = []] then [db[key].append(o)] *)
Fixpoint db_append (db : database) (key : pstr) (o : office) : database :=
  match db with
  | [] => [(key, [o])]
  | (k, os) :: db' =>
    if pstr_eqb k key then (k, os ++ [o]) :: db' else (k, os) :: db_append db' key o
  end.

Definition method_lower (v : pyval) : result pstr :=
  match v with
  | PStr s => Ok (lower U s)
  | _ => Raise (no_attribute v (u "lower"))
  end.

Definition _add_office_to_database (db : database) (office_data : office) : result database :=
  v <- dict_getitem office_data (u "settlement") ;;
  settlement <- method_lower v ;;
  Ok (db_append db settlement office_data).

(** the loop of [_parse_single_file] over the containers of a page; the state
    is the database and [offices_count]; an exception in a turn is logged and
    the loop goes on *)
Fixpoint parse_containers (cs : list container) (db : database) (offices_count : nat)
    : database * nat :=
  match cs with
  | [] => (db, offices_count)
  | c :: cs' =>
    match _extract_office_data c with
    | Some office_data =>
      match _add_office_to_database db office_data with
      | Ok db' => parse_containers cs' db' (S offices_count)
      | Raise _ => parse_containers cs' db offices_count
      end
    | None => parse_containers cs' db offices_count
    end
  end.

End Parser_py.

(** ** The specification's wording

    Definitions that follow the words of the specification, to be compared
    with the functions above. *)

(** "strip a leading marker token from the fixed vocabulary if present at the
    start of the string", with the white space after it *)
Definition strip_leading_marker (s : pstr) : pstr :=
  match find (fun m => startswith m s) markers with
  | Some m => lstrip (skipn (List.length m) s)
  | None => s
  end.

(** [s] ends with [m] *)
Definition endswith (m s : pstr) : bool := startswith (rev m) (rev s).

(** the longest word of [ms] that [s] ends with *)
Fixpoint longest_suffix (ms : list pstr) (s : pstr) : option pstr :=
  match ms with
  | [] => None
  | m :: ms' =>
    match longest_suffix ms' s with
    | Some m' =>
      if endswith m s && Nat.ltb (List.length m') (List.length m) then Some m else Some m'
    | None => if endswith m s then Some m else None
    end
  end.

(** "strip the same vocabulary if present as a trailing token", with the
    white space before it *)
Definition strip_trailing_marker (s : pstr) : pstr :=
  match longest_suffix markers s with
  | Some m => rstrip (firstn (List.length s - List.length m) s)
  | None => s
  end.

(** "collapse internal whitespace runs to single spaces": every maximal run
    of white space becomes one space; [in_run] tells that the character
    before was white space *)
Fixpoint squeeze (in_run : bool) (s : pstr) : pstr :=
  match s with
  | [] => []
  | c :: s' =>
    if isspace c then (if in_run then squeeze true s' else 32%Z :: squeeze true s')
    else c :: squeeze false s'
  end.

(** "by substring replacement anywhere in the string, not just at
    boundaries": the string is read from the left; where [word] begins it is
    replaced by [short] and the reading goes on behind it, elsewhere the
    character is kept. [fuel] bounds the characters still to read. *)
Fixpoint contract_word (fuel : nat) (word short s : pstr) : pstr :=
  match fuel with
  | O => s
  | S fuel' =>
    match s with
    | [] => []
    | c :: s' =>
      if startswith word s
      then short ++ contract_word fuel' word short (skipn (List.length word) s)
      else c :: contract_word fuel' word short s'
    end
  end.

Definition contract (word short s : pstr) : pstr :=
  contract_word (List.length s) word short s.

(** "apply a fixed synonym-contraction map": avenue, street, microdistrict,
    lane, boulevard, one after the other *)
Definition contract_synonyms (s : pstr) : pstr :=
  contract (u "бульвар") (u "бул")
    (contract (u "переулок") (u "пер")
       (contract (u "микрорайон") (u "мкр")
          (contract (u "улица") (u "ул")
             (contract (u "проспект") (u "пр") s)))).

(** section 4.1, steps 1 to 6 *)
Definition normalize_spec (U : Unicode) (text : pyval) : pstr :=
  if negb (truthy text) then []
  else
    let lowered := lower U (py_str text) in
    let collapsed := strip (squeeze false lowered) in
    let unprefixed := strip_leading_marker collapsed in
    let unsuffixed := strip_trailing_marker unprefixed in
    strip (contract_synonyms unsuffixed).

(** "extract the first run of decimal digits", [None] when there is none *)
Fixpoint take_digits (U : Unicode) (s : pstr) : pstr :=
  match s with
  | c :: s' => if isdecimal U c then c :: take_digits U s' else []
  | [] => []
  end.

Fixpoint first_digit_run (U : Unicode) (s : pstr) : option pstr :=
  match s with
  | [] => None
  | c :: s' => if isdecimal U c then Some (take_digits U s) else first_digit_run U s'
  end.

(** section 4.2, the house-number comparator *)
Definition house_similarity_spec (U : Unicode) (h1 h2 : pstr) : float :=
  match h1, h2 with
  | [], _ | _, [] => f0_0
  | _, _ =>
    if pstr_eqb (lower U (strip h1)) (lower U (strip h2)) then f1_0
    else
      match first_digit_run U h1, first_digit_run U h2 with
      | Some n1, Some n2 =>
        if pstr_eqb n1 n2 then f0_9 else _calculate_similarity h1 h2
      | _, _ => _calculate_similarity h1 h2
      end
  end.

(** section 4.4, step 3: the status as a function of the composite score *)
Definition classify (composite : float) : pstr :=
  match SFcompare composite f0_9 with
  | Some (Eq | Gt) => status_yes
  | _ =>
    match SFcompare composite PARTIAL_MATCH_THRESHOLD with
    | Some (Eq | Gt) => status_check
    | _ => status_no
    end
  end.

(** the first element on which [f] answers *)
Fixpoint first_some {A B : Type} (f : A -> option B) (l : list A) : option B :=
  match l with
  | [] => None
  | x :: l' =>
    match f x with
    | Some y => Some y
    | None => first_some f l'
    end
  end.

(** a greedy run of one character class: the longest run first, then the
    shorter ones *)
Fixpoint star_spec {A : Type} (p : codepoint -> bool)
    (k : nat -> pstr -> captures -> option A) (pos : nat) (s : pstr) (caps : captures)
    : option A :=
  match s with
  | c :: s' =>
    if p c then
      match star_spec p k (S pos) s' caps with
      | Some x => Some x
      | None => k pos s caps
      end
    else k pos s caps
  | [] => k pos s caps
  end.

Definition no_trailing_ws (s : pstr) : Prop :=
  forall p c, s = p ++ [c] -> isspace c = false.

Definition is_marker (w : pstr) : bool := existsb (pstr_eqb w) markers.

(** what the substitution leaves of a string without trailing white space:
    the characters before the first offset from which only white space and
    one marker follow *)
Fixpoint cut_trailing (t : pstr) : pstr :=
  match t with
  | [] => []
  | c :: t' => if is_marker (lstrip t) then [] else c :: cut_trailing t'
  end.

(** the tail of the pattern: one marker, then the end of the subject *)
Definition marker_at_end (pos : nat) (s : pstr) (caps : captures) : option (nat * captures) :=
  first_some (fun m =>
    if startswith m s
    then match skipn (List.length m) s with
         | [] => Some (pos + List.length m, (1, firstn (pos + List.length m - pos) s) :: caps)
         | [c] => if (c =? 10)%Z
                  then Some (pos + List.length m, (1, firstn (pos + List.length m - pos) s) :: caps)
                  else None
         | _ => None
         end
    else None) markers.

(** a number that is not a NaN, as a triple ordered lexicographically *)
Definition fkey (x : float) : option (Z * Z * Z) :=
  match x with
  | S754_nan => None
  | S754_zero _ => Some (0, 0, 0)%Z
  | S754_infinity false => Some (2, 0, 0)%Z
  | S754_infinity true => Some (-2, 0, 0)%Z
  | S754_finite false m e => Some (1, e, Zpos m)%Z
  | S754_finite true m e => Some (-1, - e, Zneg m)%Z
  end.

Definition lex3 (a b : Z * Z * Z) : comparison :=
  let '(a1, a2, a3) := a in
  let '(b1, b2, b3) := b in
  match (a1 ?= b1)%Z with
  | Eq => match (a2 ?= b2)%Z with
          | Eq => (a3 ?= b3)%Z
          | c => c
          end
  | c => c
  end.

Definition lt3 (a b : Z * Z * Z) : Prop :=
  let '(a1, a2, a3) := a in
  let '(b1, b2, b3) := b in
  (a1 < b1 \/ (a1 = b1 /\ (a2 < b2 \/ (a2 = b2 /\ a3 < b3))))%Z.

(** the offset and the length of the first run of decimal digits *)
Fixpoint digit_span (U : Unicode) (s : pstr) : option (nat * nat) :=
  match s with
  | [] => None
  | c :: t =>
    if isdecimal U c then Some (0, S (List.length (take_digits U t)))
    else option_map (fun '(o, n) => (S o, n)) (digit_span U t)
  end.

(** section 4.3: the bucket of a key and the candidates of a query, in the
    iteration order of the index *)
Fixpoint cache_lookup (cache : settlement_cache) (key : pstr) : option (list office) :=
  match cache with
  | [] => None
  | (k, os) :: cache' => if pstr_eqb k key then Some os else cache_lookup cache' key
  end.

(** the entries of the scraped database whose settlement normalizes to [key] *)
Definition spelled_as (U : Unicode) (key : pstr) (data : list (pstr * list office))
    : list (pstr * list office) :=
  filter (fun e => pstr_eqb (_normalize_text U (PStr (fst e))) key) data.

Definition candidates_in_order (normalized_query : pstr) (cache : settlement_cache)
    : list candidate :=
  map (fun e => {| c_name := fst e; c_offices := snd e;
                   c_score := _calculate_similarity normalized_query (fst e) |})
      (filter (fun e => fge (_calculate_similarity normalized_query (fst e))
                            SETTLEMENT_MATCH_THRESHOLD) cache).

(** [c1] is not below [c2] *)
Definition score_ge (c1 c2 : candidate) : Prop := fge (c_score c1) (c_score c2) = true.

(** the candidates whose score equals [v] *)
Definition tied_with (v : float) (l : list candidate) : list candidate :=
  filter (fun c => feq (c_score c) v) l.

(** a candidate whose score is a number *)
Definition not_nan (c : candidate) : Prop := fkey (c_score c) <> None.


(** ** Rounding to binary64, by value

    The operations of [SpecFloat] round a mantissa and an exponent; the
    definitions below say what they compute in terms of the number itself,
    written as an integer [V] scaled by [2^s]. *)

(** the exponent of the grid on which a number of magnitude [k] is rounded:
    [Z.max (k - 53) (-1074)] *)
Definition fexp64 (k : Z) : Z := SpecFloat.fexp prec emax k.

Definition emin64 : Z := SpecFloat.emin prec emax.

(** [m / 2^n] rounded to the nearest integer, ties to even *)
Definition rne (m n : Z) : Z :=
  let q := (m / 2 ^ n)%Z in
  match (2 * (m mod 2 ^ n) ?= 2 ^ n)%Z with
  | Lt => q
  | Eq => if Z.even q then q else (q + 1)%Z
  | Gt => (q + 1)%Z
  end.

(** the end of [binary_round_aux] for a result that is not negative: the
    rounded mantissa [q] on the grid [2^g] is renormalized when the rounding
    carried into a new digit, and overflows to infinity *)
Definition finish (q g : Z) : float :=
  let '(mrs, e) := shr_fexp prec emax q g loc_Exact in
  match shr_m mrs with
  | Z0 => S754_zero false
  | Zpos m => if (e <=? emax - prec)%Z then S754_finite false m e else S754_infinity false
  | Zneg _ => S754_nan
  end.

(** the binary64 number nearest to [V * 2^s], for [s <= emin] *)
Definition round_val (s V : Z) : float :=
  let g := fexp64 (Zdigits2 V + s) in
  finish (rne V (g - s)) g.

(** a finite number that is not negative, as a multiple of [2^emin] *)
Definition fval (x : float) : Z :=
  match x with
  | S754_finite false m e => (Zpos m * 2 ^ (e - emin64))%Z
  | _ => 0%Z
  end.

(** the classes of numbers the scores live in: valid and not negative,
    finite ([fin_nonneg]) or possibly infinite ([nonneg]) *)
Definition fin_nonneg (x : float) : Prop :=
  valid_binary prec emax x = true /\
  match x with
  | S754_zero _ | S754_finite false _ _ => True
  | _ => False
  end.

Definition nonneg (x : float) : Prop :=
  valid_binary prec emax x = true /\
  match x with
  | S754_zero _ | S754_finite false _ _ | S754_infinity false => True
  | _ => False
  end.

(** a mantissa and an exponent as a number that is not negative; past the
    largest exponent it is infinite *)
Definition out (q g : Z) : float :=
  match q with
  | Z0 => S754_zero false
  | Zpos m => if (g <=? emax - prec)%Z then S754_finite false m g else S754_infinity false
  | Zneg _ => S754_nan
  end.

(** ** The matching blocks of [difflib]

    What the loops of [find_longest_match] and [get_matching_blocks]
    maintain. *)

(** the lengths recorded for a row are between 0 and [B] *)
Definition lens_le (B : Z) (d : list (Difflib.idx * Z)) : Prop :=
  Forall (fun p => (0 <= snd p <= B)%Z) d.

(** a match inside the rows [alo .. hi - 1] *)
Definition in_rows (alo hi : Difflib.idx) (x : Difflib.best) : Prop :=
  (alo <= Difflib.besti x /\ 0 <= Difflib.bestsize x
   /\ Difflib.besti x + Difflib.bestsize x <= hi)%Z.

(** the windows of the work list, and the turns of the loop they need *)
Definition window_ok (w : Difflib.idx * Difflib.idx * Difflib.idx * Difflib.idx) : Prop :=
  let '(alo, ahi, _, _) := w in (alo <= ahi)%Z.

Definition turns (w : Difflib.idx * Difflib.idx * Difflib.idx * Difflib.idx) : Z :=
  let '(alo, ahi, _, _) := w in (2 * (ahi - alo) + 1)%Z.

Definition queue_turns (q : list (Difflib.idx * Difflib.idx * Difflib.idx * Difflib.idx)) : Z :=
  fold_right (fun w acc => (turns w + acc)%Z) 0%Z q.

(** ** The data the matcher is run on *)

(** [sys.maxsize]: no string of Python is longer *)
Definition maxsize : Z := 9223372036854775807%Z.

Definition sized (s : pstr) : Prop := (Difflib.zlen s <= maxsize)%Z.

(** the strings [match_address] compares for a row and for an office *)
Definition sized_row (U : Unicode) (ad : address_data) : Prop :=
  sized (_normalize_text U (settlement ad)) /\ sized (_normalize_text U (street ad))
  /\ sized (py_str (house ad)).

Definition sized_office (U : Unicode) (o : office) : Prop :=
  sized (_normalize_text U (dict_get o (u "street") (PStr [])))
  /\ sized (py_str (dict_get o (u "house") (PStr []))).

Definition sized_cache (U : Unicode) (cache : settlement_cache) : Prop :=
  Forall (fun entry => sized (fst entry) /\ Forall (sized_office U) (snd entry)) cache.

(** a row as [excel_processor.py] reads it has a string for a house number;
    an office as [html_parser.py] builds it has a settlement and a string
    for a house number *)
Definition is_text (v : pyval) : bool :=
  match v with
  | PStr _ => true
  | _ => false
  end.

Definition text_row (ad : address_data) : Prop := is_text (house ad) = true.

Definition complete_office (o : office) : Prop :=
  is_text (dict_get o (u "house") (PStr [])) = true /\ dict_lookup o (u "settlement") <> None.

Definition complete_cache (cache : settlement_cache) : Prop :=
  Forall (fun entry => Forall complete_office (snd entry)) cache.

(** [0.27] and [1.3] *)
Definition f0_27 : float := S754_finite false 4863887597560136 (-54).
Definition f1_3 : float := S754_finite false 5854679515581645 (-52).

(** ** Examples *)

(** scenario A of section 8: one office, in Almaty *)
Definition example_office : office :=
  [(u "full_address", PStr (u "г. Алматы, ул. Абая, д. 150"));
   (u "settlement", PStr (u "Алматы")); (u "street", PStr (u "ул. Абая"));
   (u "house", PStr (u "150"))].

Definition example_cache : settlement_cache :=
  _prepare_search_cache blocks_only [(u "алматы", [example_office])].

Definition example_row : address_data :=
  {| row_num := 9; settlement := PStr (u "Алматы"); street := PStr (u "Абая");
     house := PStr (u "150") |}.

(** the same row with the house number left as a number *)
Definition example_row_int : address_data :=
  {| row_num := 10; settlement := PStr (u "Алматы"); street := PStr (u "Абая");
     house := PInt 150 |}.

Definition example_exn : exn := AttributeError (u "'int' object has no attribute 'strip'").

(** the best match of [example_row] and its score *)
Definition example_best_match : best_match :=
  {| bm_office := example_office; bm_settlement_score := f1_0;
     bm_total_score := S754_finite false 5854679515581645 (-52);
     bm_details := u "Найден: Алматы, ул. Абая, 150 (улица: 1.00, дом: 1.00)" |}.

(** ** The rest of [parsers/html_parser.py] *)

(** the dictionary [get_statistics] returns *)
Record statistics := {
  total_settlements : Z;
  total_offices : Z;
  settlements : list pstr
}.

(** [sum(len(offices) for offices in self.offices_data.values())] *)
Definition count_offices (db : database) : Z :=
  fold_right (fun entry acc => (Z.of_nat (List.length (snd entry)) + acc)%Z) 0%Z db.

Definition get_statistics (db : database) : statistics :=
  {| total_settlements := Z.of_nat (List.length db);
     total_offices := count_offices db;
     settlements := map fst db |}.

(** A page, as far as the parser looks at it: its office containers, or
    [None] when reading or parsing the file raises. *)
Definition page := option (list container).

(** the loop of [parse_html_files] over the files; the state is the
    database and [total_offices]; a file that raises is logged and the loop
    goes on *)
Fixpoint parse_pages (U : Unicode) (pages : list page) (db : database) (total : nat)
    : database * nat :=
  match pages with
  | [] => (db, total)
  | None :: pages' => parse_pages U pages' db total
  | Some cs :: pages' =>
    let '(db', offices_count) := parse_containers U cs db 0 in
    parse_pages U pages' db' (total + offices_count)
  end.

(** [parse_html_files] on a fresh parser, whose database is empty *)
Definition parse_html_files (U : Unicode) (pages : list page) : database :=
  match pages with
  | [] => []
  | _ :: _ => fst (parse_pages U pages [] 0)
  end.

(** ** [processors/excel_processor.py] *)

(** [EXCEL_START_ROW] of [config.py] *)
Definition EXCEL_START_ROW : Z := 8.

(** A worksheet, as far as the program reads it: [max_row] and, for a row,
    the values of its cells in the columns L, M and N, or [None] when the
    access raises. *)
Record worksheet := {
  max_row : Z;
  row_cells : Z -> option (pyval * pyval * pyval)
}.

(** [str(v).strip() if v else ''] *)
Definition cell_text (v : pyval) : pstr :=
  if truthy v then strip (py_str v) else [].

Definition read_address_row (ws : worksheet) (row_num : Z) : option address_data :=
  match row_cells ws row_num with
  | None => None
  | Some (settlement_value, street_value, house_value) =>
    if negb (truthy settlement_value || truthy street_value || truthy house_value) then None
    else
      let address_data :=
        {| row_num := row_num; settlement := PStr (cell_text settlement_value);
           street := PStr (cell_text street_value); house := PStr (cell_text house_value) |} in
      if negb (truthy (settlement address_data)) then None
      else Some address_data
  end.

(** the exceptions [load_workbook] leaves with *)
Inductive load_error :=
| FileNotFoundError
| PermissionError
| OtherException.

(** The input file, by what the three steps of [load_workbook] find:
    whether the path exists; the exception that opening it for reading and
    writing raises, if any; and what [openpyxl.load_workbook] gives, an
    exception or a workbook, of which the active sheet is kept. *)
Record input_file := {
  file_exists : bool;
  file_open : option load_error;
  file_load : load_error + worksheet
}.

(** [load_workbook]: a missing file raises [FileNotFoundError]; a
    [PermissionError] of [open] is raised again with a message of its own,
    any other exception of [open] propagates; an exception of openpyxl is
    logged and raised again *)
Definition load_workbook (file : input_file) : load_error + worksheet :=
  if negb (file_exists file) then inl FileNotFoundError
  else
    match file_open file with
    | Some PermissionError => inl PermissionError
    | Some e => inl e
    | None =>
      match file_load file with
      | inl e => inl e
      | inr ws => inr ws
      end
    end.

(** [get_total_rows]; the worksheet is [None] before [load_workbook] *)
Definition get_total_rows (ws : option worksheet) : Z :=
  match ws with
  | None => 0%Z
  | Some w => Z.max 0 (max_row w - EXCEL_START_ROW)
  end.

(** ** [main.py] *)

(** [range(lo, hi)] *)
Fixpoint range_from (lo : Z) (n : nat) : list Z :=
  match n with
  | O => []
  | S n' => lo :: range_from (lo + 1)%Z n'
  end.

Definition py_range (lo hi : Z) : list Z := range_from lo (Z.to_nat (hi - lo)).

(** the loop of [main] over the rows: [results] *)
Definition process_rows (U : Unicode) (cache : settlement_cache) (ws : worksheet)
    (rows : list Z) : list match_result :=
  fold_left (fun results row_num =>
               match read_address_row ws row_num with
               | Some address_data => results ++ [match_address U cache address_data]
               | None => results
               end) rows [].

(** how [main] ends, as far as stage 3: with the exception of stage 1 when
    the database is empty, which [main] logs and raises again; with the
    exception of [load_workbook], of which [main] reports [FileNotFoundError]
    and [PermissionError] and raises any other again; or with the results of
    the rows *)
Inductive main_outcome :=
| NoOffices
| WorkbookNotLoaded (e : load_error)
| Processed (results : list match_result).

(** stages 1 to 3 of [main]: the pages are parsed, the workbook is loaded,
    the matcher is built on the scraped database and run on the rows
    [EXCEL_START_ROW + 1 .. max_row] *)
Definition main_results (U : Unicode) (pages : list page) (file : input_file)
    : main_outcome :=
  let offices_data := parse_html_files U pages in
  match offices_data with
  | [] => NoOffices
  | _ :: _ =>
    match load_workbook file with
    | inl e => WorkbookNotLoaded e
    | inr ws =>
      Processed (process_rows U (_prepare_search_cache U offices_data) ws
                   (py_range (EXCEL_START_ROW + 1) (max_row ws + 1)))
    end
  end.

(** a worksheet with one address, in row 9 *)
Definition example_worksheet : worksheet :=
  {| max_row := 9;
     row_cells := fun _ => Some (PStr (u " Алматы "), PStr (u "Абая"), PInt 150) |}.

(** the file of that worksheet, found and readable *)
Definition example_file : input_file :=
  {| file_exists := true; file_open := None; file_load := inr example_worksheet |}.

(** the dictionary [stats] of [print_statistics], in insertion order *)
Definition stats0 : list (pstr * Z) := [(status_yes, 0%Z); (status_check, 0%Z); (status_no, 0%Z)].

(** [if status in stats: stats[status] += 1] *)
Fixpoint stats_incr (stats : list (pstr * Z)) (status : pstr) : list (pstr * Z) :=
  match stats with
  | [] => []
  | (k, n) :: stats' =>
    if pstr_eqb k status then (k, (n + 1)%Z) :: stats' else (k, n) :: stats_incr stats' status
  end.

(** the counting loop of [print_statistics] *)
Definition count_statuses (results : list match_result) : list (pstr * Z) :=
  fold_left (fun stats result => stats_incr stats (r_status result)) results stats0.

(** [sum(stats.values())] *)
Definition stats_total (stats : list (pstr * Z)) : Z :=
  fold_right (fun entry acc => (snd entry + acc)%Z) 0%Z stats.

(** ** The matching blocks of [difflib], in [b]

    The counterparts of [lens_le], [in_rows], [window_ok] for the second
    string, and the sizes the bounds are about. *)

(** the lengths recorded for a row end inside the window of [b] that
    starts at [blo] *)
Definition lens_cols (blo : Difflib.idx) (d : list (Difflib.idx * Z)) : Prop :=
  Forall (fun p => (0 <= snd p <= fst p - blo + 1)%Z) d.

(** a match inside the columns [blo .. hi - 1] *)
Definition in_cols (blo hi : Difflib.idx) (x : Difflib.best) : Prop :=
  (blo <= Difflib.bestj x /\ 0 <= Difflib.bestsize x
   /\ Difflib.bestj x + Difflib.bestsize x <= hi)%Z.

Definition window_ok_b (w : Difflib.idx * Difflib.idx * Difflib.idx * Difflib.idx) : Prop :=
  let '(_, _, blo, bhi) := w in (blo <= bhi)%Z.

(** the sum of the sizes of a list of blocks *)
Definition block_sizes (bl : list Difflib.best) : Z :=
  fold_right (fun x acc => (Difflib.bestsize x + acc)%Z) 0%Z bl.

(** the rows and the columns the windows of the work list still cover *)
Definition rows_left (q : list (Difflib.idx * Difflib.idx * Difflib.idx * Difflib.idx)) : Z :=
  fold_right (fun w acc => let '(alo, ahi, _, _) := w in (ahi - alo + acc)%Z) 0%Z q.

Definition cols_left (q : list (Difflib.idx * Difflib.idx * Difflib.idx * Difflib.idx)) : Z :=
  fold_right (fun w acc => let '(_, _, blo, bhi) := w in (bhi - blo + acc)%Z) 0%Z q.

(** ** The scraped database

    What [_add_office_to_database] maintains. *)

(** an office filed under the lower-cased name of its settlement *)
Definition filed_under (U : Unicode) (key : pstr) (o : office) : Prop :=
  exists s, dict_lookup o (u "settlement") = Some (PStr s) /\ lower U s = key.

(** no key twice, no empty bucket, every office complete and filed under
    the key of its bucket *)
Definition well_filed (U : Unicode) (db : database) : Prop :=
  NoDup (map fst db)
  /\ Forall (fun entry =>
               snd entry <> []
               /\ Forall (fun o => complete_office o /\ filed_under U (fst entry) o) (snd entry))
            db.

(** a page with one office, the one of [example_office] *)
Definition example_pages : list page := [Some [Some (u "г. Алматы, ул. Абая, д. 150")]].

(** the order of the statuses: 'Нет' below 'Проверить' below 'Да' *)
Definition status_rank (status : pstr) : nat :=
  if pstr_eqb status status_yes then 2
  else if pstr_eqb status status_check then 1
  else 0.

(** * Proofs *)

(** ** Strings *)

Lemma pstr_eqb_eq : forall a b, pstr_eqb a b = true <-> a = b.
Proof.
  induction a as [|x a IH]; destruct b as [|y b]; simpl; split; intro H;
    try reflexivity; try discriminate.
  - apply andb_true_iff in H. destruct H as [H1 H2].
    apply Z.eqb_eq in H1. apply IH in H2. congruence.
  - injection H as -> ->. rewrite Z.eqb_refl. simpl. apply IH. reflexivity.
Qed.

Lemma pstr_eqb_refl : forall a, pstr_eqb a a = true.
Proof. intro a. apply pstr_eqb_eq. reflexivity. Qed.

Lemma pstr_eqb_sym : forall a b, pstr_eqb a b = pstr_eqb b a.
Proof.
  intros a b. destruct (pstr_eqb a b) eqn:E.
  - apply pstr_eqb_eq in E. subst. symmetry. apply pstr_eqb_refl.
  - destruct (pstr_eqb b a) eqn:E'; [|reflexivity].
    apply pstr_eqb_eq in E'. subst. rewrite pstr_eqb_refl in E. discriminate.
Qed.

Lemma startswith_app : forall w s, startswith w (w ++ s) = true.
Proof.
  induction w as [|c w IH]; intro s; simpl; [reflexivity|].
  rewrite Z.eqb_refl. apply IH.
Qed.

Lemma startswith_split : forall w s, startswith w s = true -> s = w ++ skipn (List.length w) s.
Proof.
  induction w as [|c w IH]; intros s H; simpl in *; [reflexivity|].
  destruct s as [|d s]; [discriminate|].
  apply andb_true_iff in H. destruct H as [H1 H2].
  apply Z.eqb_eq in H1. subst d. simpl. f_equal. apply IH. exact H2.
Qed.

Lemma contains_app_r : forall p w, contains w (p ++ w) = true.
Proof.
  induction p as [|c p IH]; intro w; simpl.
  - destruct w as [|d w]; simpl; [reflexivity|].
    rewrite Z.eqb_refl. simpl.
    replace (startswith w w) with (startswith w (w ++ [])) by (rewrite app_nil_r; reflexivity).
    rewrite startswith_app. reflexivity.
  - rewrite IH. apply orb_true_r.
Qed.

(** ** The matcher of regular expressions *)

Section MatcherFacts.
Variable A : Type.
Implicit Types k : nat -> pstr -> captures -> option A.

Lemma rmatch_lit : forall w pos s caps k,
  rmatch (lit w) pos s caps k =
  if startswith w s then k (pos + List.length w) (skipn (List.length w) s) caps else None.
Proof.
  induction w as [|c w IH]; intros pos s caps k; simpl.
  - rewrite Nat.add_0_r. reflexivity.
  - destruct s as [|d s]; [reflexivity|].
    destruct (c =? d)%Z; simpl; [|reflexivity].
    rewrite IH. replace (S pos + List.length w) with (pos + S (List.length w)) by lia.
    reflexivity.
Qed.

(** an alternation of literals tries them from the left *)
Lemma rmatch_alts_lit : forall ms pos s caps k,
  rmatch (alts (map lit ms)) pos s caps k =
  first_some (fun m => if startswith m s
                       then k (pos + List.length m) (skipn (List.length m) s) caps
                       else None) ms.
Proof.
  induction ms as [|m ms IH]; intros pos s caps k.
  - simpl. destruct s; reflexivity.
  - destruct ms as [|m' ms].
    + simpl. rewrite rmatch_lit. destruct (startswith m s); [|reflexivity].
      destruct (k _ _ _); reflexivity.
    + change (alts (map lit (m :: m' :: ms))) with (Alt (lit m) (alts (map lit (m' :: ms)))).
      cbn [rmatch first_some]. rewrite rmatch_lit, IH. reflexivity.
Qed.

Lemma star_loop_spec : forall p k n pos s caps,
  List.length s <= n ->
  (fix loop (n : nat) (pos : nat) (s : pstr) (caps : captures) {struct n} : option A :=
     match n with
     | O => k pos s caps
     | S n' =>
       match rmatch (Chr p) pos s caps
               (fun pos' s' caps' =>
                  if Nat.ltb (List.length s') (List.length s) then loop n' pos' s' caps' else None) with
       | Some x => Some x
       | None => k pos s caps
       end
     end) n pos s caps = star_spec p k pos s caps.
Proof.
  intros p k n. induction n as [|n IH]; intros pos s caps Hn.
  - destruct s; [reflexivity | simpl in Hn; lia].
  - destruct s as [|c s]; [reflexivity|].
    cbn [rmatch star_spec]. destruct (p c); [|reflexivity].
    replace (Nat.ltb (List.length s) (List.length (c :: s))) with true
      by (symmetry; apply Nat.ltb_lt; simpl; lia).
    rewrite IH by (simpl in Hn; lia). reflexivity.
Qed.

Lemma rmatch_star_chr : forall p pos s caps k,
  rmatch (Star (Chr p)) pos s caps k = star_spec p k pos s caps.
Proof.
  intros. cbn [rmatch]. apply star_loop_spec. lia.
Qed.

End MatcherFacts.

Lemma lstrip_length : forall s, List.length (lstrip s) <= List.length s.
Proof.
  induction s as [|c s IH]; simpl; [lia|].
  destruct (isspace c); simpl; lia.
Qed.

Lemma skipn_lstrip : forall s, skipn (List.length s - List.length (lstrip s)) s = lstrip s.
Proof.
  induction s as [|c s IH]; [reflexivity|].
  cbn [lstrip]. destruct (isspace c) eqn:E.
  - pose proof (lstrip_length s).
    cbn [List.length].
    replace (S (List.length s) - List.length (lstrip s))
      with (S (List.length s - List.length (lstrip s))) by lia.
    cbn [skipn]. exact IH.
  - rewrite Nat.sub_diag. reflexivity.
Qed.

(** with a continuation that accepts, a greedy run takes all the white space *)
Lemma star_isspace_accepts : forall pos s caps,
  star_spec isspace (fun pos' _ caps' => Some (pos', caps')) pos s caps
  = Some (pos + (List.length s - List.length (lstrip s)), caps).
Proof.
  intros pos s caps. revert pos. induction s as [|c s IH]; intro pos.
  - cbn. f_equal. f_equal. lia.
  - cbn [star_spec lstrip]. destruct (isspace c).
    + rewrite IH. pose proof (lstrip_length s). cbn [List.length]. f_equal. f_equal. lia.
    + rewrite Nat.sub_diag. rewrite Nat.add_0_r. reflexivity.
Qed.

Lemma sub_aux_skip : forall r n pos s,
  sub_aux r n pos s = sub_aux r 0 (pos + n) (skipn n s).
Proof.
  intros r n. induction n as [|n IH]; intros pos s.
  - rewrite Nat.add_0_r. reflexivity.
  - destruct s as [|c s]; [reflexivity|].
    cbn [sub_aux skipn]. rewrite IH. f_equal. lia.
Qed.

(** a pattern anchored at the start matches nowhere else *)
Lemma sub_aux_bol : forall r pos s, 0 < pos -> sub_aux (Seq Bol r) 0 pos s = s.
Proof.
  intros r pos s. revert pos. induction s as [|c s IH]; intros pos Hpos; [reflexivity|].
  cbn [sub_aux]. unfold match_at. cbn [rmatch].
  destruct pos as [|pos]; [lia|]. cbn [Nat.eqb].
  rewrite IH by lia. reflexivity.
Qed.

Lemma first_some_find : forall (A B : Type) (p : A -> bool) (g : A -> B) (l : list A),
  first_some (fun x => if p x then Some (g x) else None) l = option_map g (find p l).
Proof.
  induction l as [|x l IH]; [reflexivity|].
  cbn [first_some find]. destruct (p x); [reflexivity|]. exact IH.
Qed.

Lemma first_some_ext : forall (A B : Type) (f g : A -> option B) (l : list A),
  (forall x, f x = g x) -> first_some f l = first_some g l.
Proof.
  intros A B f g l E. induction l as [|x l IH]; [reflexivity|].
  cbn [first_some]. rewrite E, IH. reflexivity.
Qed.

Lemma rmatch_seq : forall (A : Type) r1 r2 pos s caps (k : nat -> pstr -> captures -> option A),
  rmatch (Seq r1 r2) pos s caps k
  = rmatch r1 pos s caps (fun pos' s' caps' => rmatch r2 pos' s' caps' k).
Proof. reflexivity. Qed.

Lemma rmatch_group : forall (A : Type) n r pos s caps (k : nat -> pstr -> captures -> option A),
  rmatch (Group n r) pos s caps k
  = rmatch r pos s caps (fun pos' s' caps' => k pos' s' ((n, firstn (pos' - pos) s) :: caps')).
Proof. reflexivity. Qed.

Lemma rmatch_bol : forall (A : Type) pos s caps (k : nat -> pstr -> captures -> option A),
  rmatch Bol pos s caps k = if Nat.eqb pos 0 then k pos s caps else None.
Proof. reflexivity. Qed.

Lemma match_at_prefix_re : forall s,
  match_at prefix_re 0 s =
  option_map (fun m => (List.length m + (List.length (skipn (List.length m) s)
                                          - List.length (lstrip (skipn (List.length m) s))),
                        [(1, firstn (List.length m) s)]))
             (find (fun m => startswith m s) markers).
Proof.
  intro s. unfold match_at, prefix_re.
  rewrite rmatch_seq, rmatch_bol. cbn [Nat.eqb].
  rewrite rmatch_seq, rmatch_group, rmatch_alts_lit.
  rewrite <- first_some_find.
  apply first_some_ext. intro m.
  destruct (startswith m s); [|reflexivity].
  rewrite rmatch_star_chr, star_isspace_accepts.
  rewrite Nat.add_0_l, Nat.sub_0_r. reflexivity.
Qed.

Lemma markers_nonempty : forall m, In m markers -> 0 < List.length m.
Proof.
  intros m Hin. 
  assert (H : forallb (fun m => Nat.ltb 0 (List.length m)) markers = true) by (vm_compute; reflexivity).
  rewrite forallb_forall in H. apply Nat.ltb_lt. apply H. exact Hin.
Qed.

(** the first substitution of [_normalize_text] strips a leading marker *)
Lemma sub_prefix_re : forall s, re_sub_empty prefix_re s = strip_leading_marker s.
Proof.
  intro s. unfold re_sub_empty, strip_leading_marker.
  destruct s as [|c s].
  - reflexivity.
  - cbn [sub_aux]. rewrite match_at_prefix_re.
    destruct (find (fun m => startswith m (c :: s)) markers) as [m|] eqn:F; cbn [option_map].
    + apply find_some in F. destruct F as [Hin Hsw].
      pose proof (markers_nonempty Hin) as Hm.
      set (t := skipn (List.length m) (c :: s)).
      set (e := List.length m + (List.length t - List.length (lstrip t))).
      replace (Nat.eqb e 0) with false by (symmetry; apply Nat.eqb_neq; unfold e; lia).
      rewrite sub_aux_skip.
      unfold prefix_re.
      rewrite (@sub_aux_bol _ (1 + (e - 0 - 1))) by lia.
      replace (skipn (e - 0 - 1) s) with (skipn e (c :: s))
        by (replace e with (S (e - 0 - 1)) at 1 by (unfold e; lia); reflexivity).
      unfold e. rewrite Nat.add_comm. rewrite <- skipn_skipn. fold t. apply skipn_lstrip.
    + unfold prefix_re. rewrite sub_aux_bol by lia. reflexivity.
Qed.

(** ** The second substitution of [_normalize_text] *)

Lemma rmatch_eol : forall (A : Type) pos s caps (k : nat -> pstr -> captures -> option A),
  rmatch Eol pos s caps k =
  match s with
  | [] => k pos s caps
  | [c] => if (c =? 10)%Z then k pos s caps else None
  | _ => None
  end.
Proof. reflexivity. Qed.

(** no marker begins with white space *)
Lemma markers_start : forall m c s, In m markers -> isspace c = true -> startswith m (c :: s) = false.
Proof.
  intros m c s Hin Hc.
  assert (H : forallb (fun m => match m with d :: _ => negb (isspace d) | [] => false end) markers = true)
    by (vm_compute; reflexivity).
  rewrite forallb_forall in H. specialize (H m Hin).
  destruct m as [|d m]; [discriminate|]. cbn [startswith].
  destruct (Z.eqb_spec d c) as [->|]; [|reflexivity].
  rewrite Hc in H. discriminate.
Qed.

(** a greedy run before something that cannot begin with white space: only
    the longest run is worth a try *)
Lemma star_isspace_committed : forall (A : Type) (k : nat -> pstr -> captures -> option A) pos s caps,
  (forall pos' c s' caps', isspace c = true -> k pos' (c :: s') caps' = None) ->
  star_spec isspace k pos s caps
  = k (pos + (List.length s - List.length (lstrip s))) (lstrip s) caps.
Proof.
  intros A k pos s caps Hk. revert pos. induction s as [|c s IH]; intro pos.
  - cbn. rewrite Nat.add_0_r. reflexivity.
  - cbn [star_spec lstrip]. destruct (isspace c) eqn:E.
    + rewrite IH. pose proof (lstrip_length s). cbn [List.length].
      replace (S pos + (List.length s - List.length (lstrip s)))
        with (pos + (S (List.length s) - List.length (lstrip s))) by lia.
      destruct (k _ (lstrip s) caps); [reflexivity|].
      apply Hk. exact E.
    + rewrite Nat.sub_diag, Nat.add_0_r. reflexivity.
Qed.

Lemma match_at_suffix_re : forall pos t,
  match_at suffix_re pos t
  = marker_at_end (pos + (List.length t - List.length (lstrip t))) (lstrip t) [].
Proof.
  intros pos t. unfold match_at, suffix_re.
  rewrite rmatch_seq, rmatch_star_chr.
  rewrite star_isspace_committed.
  - rewrite rmatch_seq, rmatch_group, rmatch_alts_lit. unfold marker_at_end.
    apply first_some_ext. intro m. destruct (startswith m (lstrip t)); [|reflexivity].
    rewrite rmatch_eol. reflexivity.
  - intros pos' c s' caps' Hc.
    rewrite rmatch_seq, rmatch_group, rmatch_alts_lit.
    assert (H : forall l, (forall m, In m l -> In m markers) ->
      first_some (fun m => if startswith m (c :: s')
        then rmatch Eol (pos' + List.length m) (skipn (List.length m) (c :: s'))
               ((1, firstn (pos' + List.length m - pos') (c :: s')) :: caps')
               (fun pos'0 _ caps0 => Some (pos'0, caps0))
        else None) l = None).
    { induction l as [|m l IHl]; intro Hl; [reflexivity|].
      cbn [first_some]. rewrite markers_start by (auto with datatypes).
      apply IHl. intros; apply Hl; auto with datatypes. }
    apply H. auto.
Qed.

(** *** Trailing white space *)

Lemma lstrip_snoc : forall a c,
  lstrip (a ++ [c]) =
  if forallb isspace a then (if isspace c then [] else [c]) else lstrip a ++ [c].
Proof.
  induction a as [|d a IH]; intro c.
  - cbn. destruct (isspace c); reflexivity.
  - cbn [app lstrip forallb]. destruct (isspace d); [|reflexivity].
    cbn [andb]. apply IH.
Qed.

(** [rstrip], read from the left *)
Lemma rstrip_cons : forall c s,
  rstrip (c :: s) =
  match rstrip s with
  | [] => if isspace c then [] else [c]
  | r => c :: r
  end.
Proof.
  intros c s. unfold rstrip. cbn [rev]. rewrite lstrip_snoc.
  destruct (forallb isspace (rev s)) eqn:E.
  - assert (H : lstrip (rev s) = []).
    { clear - E. induction (rev s) as [|d l IH]; [reflexivity|].
      cbn in *. apply andb_true_iff in E. destruct E as [-> E]. auto. }
    rewrite H. cbn. destruct (isspace c); reflexivity.
  - assert (H : lstrip (rev s) <> []).
    { clear - E. induction (rev s) as [|d l IH]; [discriminate|].
      cbn in *. destruct (isspace d); [auto | discriminate]. }
    rewrite rev_app_distr. cbn [rev app].
    destruct (rev (lstrip (rev s))) eqn:R; [|reflexivity].
    exfalso. apply H. apply (f_equal (@rev _)) in R. rewrite rev_involutive in R. exact R.
Qed.

Lemma rstrip_nil : rstrip [] = [].
Proof. reflexivity. Qed.

Lemma rstrip_all_ws : forall s, forallb isspace s = true -> rstrip s = [].
Proof.
  induction s as [|c s IH]; intro H; [reflexivity|].
  cbn in H. apply andb_true_iff in H. destruct H as [Hc Hs].
  rewrite rstrip_cons, (IH Hs), Hc. reflexivity.
Qed.

Lemma rstrip_not_all_ws : forall s, forallb isspace s = false -> rstrip s <> [].
Proof.
  induction s as [|c s IH]; intro H; [discriminate|].
  cbn in H. rewrite rstrip_cons.
  destruct (rstrip s) eqn:R; [|discriminate].
  destruct (isspace c) eqn:Hc; [|discriminate].
  cbn in H. exfalso. apply (IH H). reflexivity.
Qed.

Lemma no_trailing_ws_tail : forall c s, no_trailing_ws (c :: s) -> no_trailing_ws s.
Proof.
  intros c s H p d E. apply (H (c :: p) d). rewrite E. reflexivity.
Qed.

Lemma no_trailing_ws_lstrip : forall s, no_trailing_ws s -> no_trailing_ws (lstrip s).
Proof.
  induction s as [|c s IH]; intro H; [exact H|].
  cbn [lstrip]. destruct (isspace c); [|exact H].
  apply IH. exact (no_trailing_ws_tail H).
Qed.

Lemma no_trailing_ws_skipn : forall n s, no_trailing_ws s -> no_trailing_ws (skipn n s).
Proof.
  induction n as [|n IH]; intros s H; [exact H|].
  destruct s as [|c s]; [exact H|]. cbn [skipn]. apply IH. exact (no_trailing_ws_tail H).
Qed.

Lemma rstrip_no_trailing_ws : forall s, no_trailing_ws (rstrip s).
Proof.
  induction s as [|c s IH].
  - intros p d E. destruct p; discriminate.
  - rewrite rstrip_cons. destruct (rstrip s) as [|r0 r] eqn:R.
    + destruct (isspace c) eqn:Hc.
      * intros p d E. destruct p; discriminate.
      * intros p d E. destruct p as [|x p].
        -- injection E as <-. exact Hc.
        -- destruct p; discriminate.
    + intros p d E. destruct p as [|x p]; [discriminate|].
      injection E as _ E. exact (IH p d E).
Qed.

Lemma strip_no_trailing_ws : forall s, no_trailing_ws (strip s).
Proof. intro s. apply rstrip_no_trailing_ws. Qed.

Lemma no_trailing_ws_rstrip : forall s, no_trailing_ws s -> rstrip s = s.
Proof.
  induction s as [|c s IH]; intro H; [reflexivity|].
  rewrite rstrip_cons, (IH (no_trailing_ws_tail H)).
  destruct s as [|d s]; [|reflexivity].
  rewrite (H [] c eq_refl). reflexivity.
Qed.

Lemma is_marker_in : forall w, is_marker w = true <-> In w markers.
Proof.
  intro w. unfold is_marker. rewrite existsb_exists. split.
  - intros [m [Hin E]]. apply pstr_eqb_eq in E. subst. exact Hin.
  - intro Hin. exists w. split; [exact Hin | apply pstr_eqb_refl].
Qed.

Lemma skipn_nil_startswith : forall m w,
  startswith m w = true -> skipn (List.length m) w = [] -> w = m.
Proof.
  intros m w H E. rewrite (startswith_split _ _ H), E. apply app_nil_r.
Qed.

(** on a subject without trailing white space the tail of the pattern
    matches exactly when the subject is a marker *)
Lemma marker_at_end_spec : forall pos w,
  no_trailing_ws w ->
  marker_at_end pos w [] =
  if is_marker w then Some (pos + List.length w, [(1, w)]) else None.
Proof.
  intros pos w Hw. unfold marker_at_end, is_marker.
  induction markers as [|m l IH]; [reflexivity|].
  cbn [first_some existsb].
  destruct (startswith m w) eqn:S.
  - destruct (skipn (List.length m) w) as [|c [|d r]] eqn:K.
    + pose proof (skipn_nil_startswith _ _ S K) as ->.
      rewrite pstr_eqb_refl. cbn [orb].
      replace (pos + List.length m - pos) with (List.length m) by lia.
      rewrite firstn_all. reflexivity.
    + assert (Hc : isspace c = false).
      { apply (Hw m c). rewrite <- K. apply startswith_split. exact S. }
      destruct (Z.eqb_spec c 10) as [->|_]; [discriminate|].
      replace (pstr_eqb w m) with false; [exact IH|].
      symmetry. destruct (pstr_eqb w m) eqn:E; [|reflexivity].
      apply pstr_eqb_eq in E. subst. rewrite skipn_all in K. discriminate.
    + replace (pstr_eqb w m) with false; [exact IH|].
      symmetry. destruct (pstr_eqb w m) eqn:E; [|reflexivity].
      apply pstr_eqb_eq in E. subst. rewrite skipn_all in K. discriminate.
  - replace (pstr_eqb w m) with false; [exact IH|].
    symmetry. destruct (pstr_eqb w m) eqn:E; [|reflexivity].
    apply pstr_eqb_eq in E. subst.
    replace (startswith m m) with (startswith m (m ++ [])) in S by (rewrite app_nil_r; reflexivity).
    rewrite startswith_app in S. discriminate.
Qed.

Lemma sub_aux_suffix_re : forall t pos,
  no_trailing_ws t -> sub_aux suffix_re 0 pos t = cut_trailing t.
Proof.
  induction t as [|c t IH]; intros pos Ht; [reflexivity|].
  cbn [sub_aux cut_trailing].
  rewrite match_at_suffix_re, marker_at_end_spec by (apply no_trailing_ws_lstrip; exact Ht).
  destruct (is_marker (lstrip (c :: t))).
  - pose proof (lstrip_length (c :: t)) as Hl. cbn [List.length] in *.
    set (e := pos + (S (List.length t) - List.length (lstrip (c :: t)))
              + List.length (lstrip (c :: t))).
    replace (Nat.eqb e pos) with false by (symmetry; apply Nat.eqb_neq; unfold e; lia).
    rewrite sub_aux_skip.
    replace (e - pos - 1) with (List.length t) by (unfold e; lia).
    rewrite skipn_all. reflexivity.
  - rewrite IH by (exact (no_trailing_ws_tail Ht)). reflexivity.
Qed.

(** *** The trailing marker *)

Lemma endswith_app : forall m p, endswith m (p ++ m) = true.
Proof.
  intros m p. unfold endswith. rewrite rev_app_distr. apply startswith_app.
Qed.

Lemma endswith_split : forall m s, endswith m s = true -> exists p, s = p ++ m.
Proof.
  intros m s H. unfold endswith in H. apply startswith_split in H.
  exists (rev (skipn (List.length (rev m)) (rev s))).
  apply (f_equal (@rev _)) in H. rewrite rev_involutive, rev_app_distr, rev_involutive in H.
  exact H.
Qed.

Lemma endswith_length : forall m s, endswith m s = true -> List.length m <= List.length s.
Proof.
  intros m s H. destruct (endswith_split _ _ H) as [p ->]. rewrite length_app. lia.
Qed.

Lemma longest_suffix_some : forall l s m,
  longest_suffix l s = Some m -> In m l /\ endswith m s = true.
Proof.
  induction l as [|x l IH]; intros s m H; [discriminate|].
  cbn [longest_suffix] in H.
  destruct (longest_suffix l s) as [m'|] eqn:L.
  - destruct (endswith x s && Nat.ltb (List.length m') (List.length x)) eqn:E.
    + injection H as <-. apply andb_true_iff in E. split; [left; reflexivity | tauto].
    + injection H as <-. destruct (IH _ _ L). split; [right|]; assumption.
  - destruct (endswith x s) eqn:E; [|discriminate].
    injection H as <-. split; [left; reflexivity | exact E].
Qed.

Lemma longest_suffix_longest : forall l s m0,
  In m0 l -> endswith m0 s = true ->
  exists m, longest_suffix l s = Some m /\ List.length m0 <= List.length m.
Proof.
  induction l as [|x l IH]; intros s m0 Hin He; [contradiction|].
  cbn [longest_suffix]. destruct Hin as [->|Hin].
  - rewrite He. destruct (longest_suffix l s) as [m'|].
    + cbn [andb]. destruct (Nat.ltb_spec (List.length m') (List.length m0)).
      * exists m0. split; [reflexivity | lia].
      * exists m'. split; [reflexivity | lia].
    + exists m0. split; [reflexivity | lia].
  - destruct (IH s m0 Hin He) as [m [-> Hm]].
    destruct (endswith x s && Nat.ltb (List.length m) (List.length x)) eqn:E.
    + apply andb_true_iff in E. destruct E as [_ E]. apply Nat.ltb_lt in E.
      exists x. split; [reflexivity | lia].
    + exists m. split; [reflexivity | exact Hm].
Qed.

Lemma longest_suffix_ext : forall l s s',
  (forall m, In m l -> endswith m s = endswith m s') ->
  longest_suffix l s = longest_suffix l s'.
Proof.
  induction l as [|x l IH]; intros s s' H; [reflexivity|].
  cbn [longest_suffix]. rewrite (IH s s') by (intros; apply H; right; assumption).
  rewrite (H x) by (left; reflexivity). reflexivity.
Qed.

Lemma lstrip_decomp : forall s, exists w, s = w ++ lstrip s /\ forallb isspace w = true.
Proof.
  induction s as [|c s [w [E H]]].
  - exists []. split; reflexivity.
  - cbn [lstrip]. destruct (isspace c) eqn:Hc.
    + exists (c :: w). split; [cbn; f_equal; exact E | cbn; rewrite Hc; exact H].
    + exists []. split; reflexivity.
Qed.

Lemma lstrip_ws_app : forall w m,
  forallb isspace w = true -> (forall c r, m = c :: r -> isspace c = false) ->
  lstrip (w ++ m) = m.
Proof.
  induction w as [|d w IH]; intros m Hw Hm.
  - cbn. destruct m as [|c r]; [reflexivity|]. cbn. rewrite (Hm c r eq_refl). reflexivity.
  - cbn in Hw. apply andb_true_iff in Hw. destruct Hw as [Hd Hw].
    cbn. rewrite Hd. apply IH; assumption.
Qed.

Lemma marker_head : forall m c r, In m markers -> m = c :: r -> isspace c = false.
Proof.
  intros m c r Hin ->.
  destruct (isspace c) eqn:E; [|reflexivity].
  pose proof (markers_start c r Hin E) as H. cbn in H. rewrite Z.eqb_refl in H.
  cbn in H.
  replace (startswith r r) with (startswith r (r ++ [])) in H by (rewrite app_nil_r; reflexivity).
  rewrite startswith_app in H. discriminate.
Qed.

Lemma firstn_all_ws : forall n w, forallb isspace w = true -> forallb isspace (firstn n w) = true.
Proof.
  induction n as [|n IH]; intros w H; [reflexivity|].
  destruct w as [|c w]; [reflexivity|].
  cbn in *. apply andb_true_iff in H. destruct H as [-> H]. cbn. apply IH. exact H.
Qed.

(** what the leftmost match leaves is what stripping the longest trailing
    marker leaves *)
Lemma cut_trailing_spec : forall s, cut_trailing s = strip_trailing_marker s.
Proof.
  induction s as [|c t IH]; [reflexivity|].
  cbn [cut_trailing]. unfold strip_trailing_marker.
  destruct (is_marker (lstrip (c :: t))) eqn:M.
  - destruct (lstrip_decomp (c :: t)) as [w [E Hw]].
    apply is_marker_in in M.
    assert (He : endswith (lstrip (c :: t)) (c :: t) = true)
      by (rewrite E at 2; apply endswith_app).
    destruct (longest_suffix_longest _ _ _ M He) as [m [-> Hm]].
    assert (Hlen : List.length (c :: t) = List.length w + List.length (lstrip (c :: t)))
      by (rewrite E at 1; apply length_app).
    rewrite E at 2. rewrite firstn_app.
    replace (List.length (c :: t) - List.length m - List.length w) with 0 by lia.
    cbn [firstn]. rewrite app_nil_r.
    symmetry. apply rstrip_all_ws. apply firstn_all_ws. exact Hw.
  - assert (Hends : forall m, In m markers -> endswith m (c :: t) = endswith m t).
    { intros m Hin. destruct (endswith m (c :: t)) eqn:E1.
      - destruct (endswith_split _ _ E1) as [p Hp]. destruct p as [|x p].
        + cbn in Hp. exfalso.
          assert (L : lstrip (c :: t) = m).
          { rewrite Hp. destruct m as [|d r]; [discriminate|].
            cbn. rewrite (marker_head Hin eq_refl). reflexivity. }
          rewrite L in M. apply is_marker_in in Hin. congruence.
        + injection Hp as _ ->. symmetry. apply endswith_app.
      - destruct (endswith m t) eqn:E2; [|reflexivity].
        destruct (endswith_split _ _ E2) as [p ->].
        rewrite <- E1. apply (endswith_app m (c :: p)). }
    rewrite (longest_suffix_ext markers (c :: t) t Hends).
    rewrite IH. unfold strip_trailing_marker.
    destruct (longest_suffix markers t) as [m|] eqn:L; [|reflexivity].
    destruct (longest_suffix_some _ _ L) as [Hin He].
    destruct (endswith_split _ _ He) as [p ->].
    replace (List.length (c :: p ++ m) - List.length m) with (S (List.length p))
      by (change (List.length (c :: p ++ m)) with (S (List.length (p ++ m)));
          rewrite length_app; lia).
    replace (List.length (p ++ m) - List.length m) with (List.length p)
      by (rewrite length_app; lia).
    cbn [firstn]. rewrite firstn_app, Nat.sub_diag, firstn_all. cbn [firstn]. rewrite app_nil_r.
    rewrite rstrip_cons.
    destruct (rstrip p) as [|r0 r] eqn:R; [|reflexivity].
    destruct (isspace c) eqn:Hc; [|reflexivity].
    exfalso.
    assert (Hp : forallb isspace p = true).
    { destruct (forallb isspace p) eqn:F; [reflexivity|].
      exfalso. exact (rstrip_not_all_ws _ F R). }
    assert (L' : lstrip ((c :: p) ++ m) = m).
    { apply lstrip_ws_app; [cbn; rewrite Hc; exact Hp|].
      intros d r E. exact (marker_head Hin E). }
    cbn [app] in L'. rewrite L' in M. apply is_marker_in in Hin. congruence.
Qed.

Lemma sub_suffix_re : forall s,
  no_trailing_ws s -> re_sub_empty suffix_re s = strip_trailing_marker s.
Proof.
  intros s H. unfold re_sub_empty. rewrite sub_aux_suffix_re by exact H.
  apply cut_trailing_spec.
Qed.

(** *** Collapsing white space *)

Lemma split_aux_head : forall x cur w ws, split_aux cur x = w :: ws -> w <> [].
Proof.
  induction x as [|c x IH]; intros cur w ws H.
  - cbn in H. destruct cur as [|d cur]; [discriminate|].
    injection H as <- _. cbn. destruct (rev cur); discriminate.
  - cbn [split_aux] in H. destruct (isspace c).
    + destruct cur as [|d cur]; [exact (IH _ _ _ H)|].
      injection H as <- _. cbn. destruct (rev cur); discriminate.
    + exact (IH _ _ _ H).
Qed.

Lemma join_nonempty : forall sep w ws, w <> [] -> join sep (w :: ws) <> [].
Proof.
  intros sep w ws Hw. cbn [join]. destruct ws; [exact Hw|].
  destruct w; [contradiction | discriminate].
Qed.

Lemma rstrip_cons_nonspace : forall c s, isspace c = false -> rstrip (c :: s) = c :: rstrip s.
Proof.
  intros c s Hc. rewrite rstrip_cons, Hc. destruct (rstrip s); reflexivity.
Qed.

Lemma join_split_squeeze : forall x,
  (forall cur, cur <> [] ->
     join [32%Z] (split_aux cur x) = rev cur ++ rstrip (squeeze false x))
  /\ join [32%Z] (split_aux [] x) = rstrip (squeeze true x).
Proof.
  induction x as [|c x [IH1 IH2]].
  - split; [|reflexivity].
    intros cur Hcur. destruct cur; [contradiction|]. cbn [split_aux join squeeze].
    rewrite rstrip_nil, app_nil_r. reflexivity.
  - split.
    + intros cur Hcur. cbn [split_aux squeeze]. destruct (isspace c) eqn:Hc.
      * destruct cur as [|d cur]; [contradiction|].
        rewrite rstrip_cons, <- IH2.
        destruct (split_aux [] x) as [|w ws] eqn:S.
        -- cbn [join]. replace (isspace 32%Z) with true by reflexivity.
           rewrite app_nil_r. reflexivity.
        -- pose proof (join_nonempty [32%Z] ws (split_aux_head _ _ S)) as Hj.
           change (join [32%Z] (rev (d :: cur) :: w :: ws))
             with (rev (d :: cur) ++ [32%Z] ++ join [32%Z] (w :: ws)).
           destruct (join [32%Z] (w :: ws)) eqn:J; [exfalso; exact (Hj J) | reflexivity].
      * rewrite IH1 by discriminate. rewrite rstrip_cons_nonspace by exact Hc.
        cbn [rev]. rewrite <- app_assoc. reflexivity.
    + cbn [split_aux squeeze]. destruct (isspace c) eqn:Hc.
      * exact IH2.
      * rewrite IH1 by discriminate. rewrite rstrip_cons_nonspace by exact Hc. reflexivity.
Qed.

Lemma lstrip_squeeze : forall x, lstrip (squeeze false x) = squeeze true x.
Proof.
  assert (H : forall x, lstrip (squeeze true x) = squeeze true x).
  { induction x as [|c x IH]; [reflexivity|].
    cbn [squeeze]. destruct (isspace c) eqn:Hc; [exact IH|].
    cbn [lstrip]. rewrite Hc. reflexivity. }
  intro x. destruct x as [|c x]; [reflexivity|].
  cbn [squeeze]. destruct (isspace c) eqn:Hc.
  - cbn [lstrip]. replace (isspace 32%Z) with true by reflexivity. apply H.
  - cbn [lstrip]. rewrite Hc. reflexivity.
Qed.

Lemma split_aux_lstrip : forall x, split_aux [] (lstrip x) = split_aux [] x.
Proof.
  induction x as [|c x IH]; [reflexivity|].
  cbn [lstrip]. destruct (isspace c) eqn:Hc.
  - cbn [split_aux]. rewrite Hc. exact IH.
  - reflexivity.
Qed.

Lemma split_aux_rstrip : forall x cur, split_aux cur (rstrip x) = split_aux cur x.
Proof.
  induction x as [|c x IH]; intro cur; [reflexivity|].
  rewrite rstrip_cons. destruct (rstrip x) as [|r0 r] eqn:R.
  - destruct (isspace c) eqn:Hc.
    + cbn [split_aux]. rewrite Hc. rewrite <- (IH []). 
      destruct cur; reflexivity.
    + cbn [split_aux]. rewrite Hc. rewrite <- (IH (c :: cur)). reflexivity.
  - remember (r0 :: r) as rr. cbn [split_aux]. destruct (isspace c).
    + rewrite (IH []). reflexivity.
    + apply IH.
Qed.

(** [' '.join(text.split())] after [strip] is "collapse, then trim" *)
Lemma collapse_refines : forall x,
  join (u " ") (split (strip x)) = strip (squeeze false x).
Proof.
  intro x. change (u " ") with [32%Z]. unfold split, strip at 1.
  rewrite split_aux_rstrip, split_aux_lstrip.
  rewrite (proj2 (join_split_squeeze x)).
  unfold strip. rewrite lstrip_squeeze. reflexivity.
Qed.

Lemma strip_leading_marker_no_trailing_ws : forall s,
  no_trailing_ws s -> no_trailing_ws (strip_leading_marker s).
Proof.
  intros s H. unfold strip_leading_marker.
  destruct (find (fun m => startswith m s) markers); [|exact H].
  apply no_trailing_ws_lstrip, no_trailing_ws_skipn, H.
Qed.

(** a marker at the start goes, whatever follows it *)
Lemma strip_leading_marker_app : forall m rest,
  In m markers -> strip_leading_marker (m ++ rest) = lstrip rest.
Proof.
  intros m rest Hin. unfold markers in Hin.
  repeat (destruct Hin as [<- | Hin]; [reflexivity|]).
  contradiction.
Qed.

(** ** The text normalizer *)

(** *** The synonyms *)

Lemma replace_aux_skip : forall old new k s,
  replace_aux old new k s = replace_aux old new 0 (skipn k s).
Proof.
  intros old new. induction k as [|k IH]; intro s; [reflexivity|].
  destruct s as [|c s]; [reflexivity|]. cbn [replace_aux skipn]. apply IH.
Qed.

Lemma contract_word_replace : forall old new fuel s,
  old <> [] -> List.length s <= fuel ->
  contract_word fuel old new s = replace_aux old new 0 s.
Proof.
  intros old new. induction fuel as [|fuel IH]; intros s Ho L.
  - destruct s; [reflexivity | cbn [List.length] in L; lia].
  - destruct s as [|c s]; [reflexivity|]. cbn [contract_word replace_aux].
    cbn [List.length] in L.
    destruct (startswith old (c :: s)).
    + f_equal. rewrite replace_aux_skip.
      destruct old as [|x old]; [congruence|].
      assert (E : List.length (x :: old) - 1 = List.length old) by (cbn [List.length]; lia).
      rewrite E. change (skipn (List.length (x :: old)) (c :: s)) with (skipn (List.length old) s).
      apply IH; [exact Ho|]. rewrite length_skipn. lia.
    + f_equal. apply IH; [exact Ho | lia].
Qed.

(** [str.replace] is the replacement the specification describes *)
Lemma replace_contract : forall old new s, old <> [] -> replace old new s = contract old new s.
Proof.
  intros old new s Ho. unfold replace, contract. symmetry.
  apply contract_word_replace; [exact Ho | apply le_n].
Qed.

Lemma apply_replacements_contract : forall s, apply_replacements s = contract_synonyms s.
Proof.
  intro s. unfold apply_replacements, replacements, contract_synonyms. cbn [fold_left].
  rewrite !replace_contract; try reflexivity; vm_compute; discriminate.
Qed.

(** C7: [_normalize_text] returns the empty string on an absent or empty
    input; otherwise it is, step by step, what section 4.1 describes:
    lower-case, collapse the runs of white space and trim, strip one leading
    marker, strip one trailing marker, contract the synonyms by substring
    replacement, trim.  In particular "ул. Абая" and "Абая" have the same
    normal form; a synonym is contracted as a word ("Переулок Тихий", the
    avenue of "г. Алматы, проспект Абая") and inside a word ("Набульварная",
    "Микрорайонная"). *)
Theorem normalize_text_refines_spec : forall U,
  _normalize_text U PNone = []
  /\ _normalize_text U (PStr []) = []
  /\ (forall text, _normalize_text U text = normalize_spec U text)
  /\ _normalize_text U (PStr (u "ул. Абая")) = _normalize_text U (PStr (u "Абая"))
  /\ _normalize_text U (PStr (u "Переулок Тихий")) = u "пер тихий"
  /\ _normalize_text U (PStr (u "Набульварная")) = u "набулная"
  /\ _normalize_text U (PStr (u "г. Алматы, проспект Абая")) = u "алматы, пр абая"
  /\ _normalize_text U (PStr (u "мкр. Улица Микрорайонная")) = u "ул мкрная".
Proof.
  intro U. split; [reflexivity|]. split; [reflexivity|]. split.
  - intro text. unfold _normalize_text, normalize_spec.
    destruct (negb (truthy text)); [reflexivity|].
    rewrite collapse_refines, sub_prefix_re, sub_suffix_re, apply_replacements_contract.
    + reflexivity.
    + apply strip_leading_marker_no_trailing_ws, strip_no_trailing_ws.
  - repeat split; vm_compute; reflexivity.
Qed.

(** C10: the leading marker is stripped as a substring: the first
    substitution removes a marker at the start of the text whatever follows
    it, a letter included, so that "Городок" is normalized to "ок". *)
Theorem normalize_text_strips_inside_word : forall U,
  (forall m rest, In m markers -> re_sub_empty prefix_re (m ++ rest) = lstrip rest)
  /\ _normalize_text U (PStr (u "Городок")) = u "ок".
Proof.
  intro U. split.
  - intros m rest Hin. rewrite sub_prefix_re. apply strip_leading_marker_app. exact Hin.
  - reflexivity.
Qed.

(** ** The order of binary64 numbers *)

Lemma SFcompare_fkey : forall x y,
  SFcompare x y =
  match fkey x, fkey y with
  | Some a, Some b => Some (lex3 a b)
  | _, _ => None
  end.
Proof.
  intros x y.
  destruct x as [sx|sx| |sx mx ex], y as [sy|sy| |sy my ey];
    try destruct sx; try destruct sy; try reflexivity.
  cbn [SFcompare fkey lex3]. change (-1 ?= -1)%Z with Eq. cbn match.
  rewrite Z.compare_opp, (Z.compare_antisym ex ey).
  destruct (ex ?= ey)%Z; reflexivity.
Qed.

Lemma lex3_lt : forall a b, lex3 a b = Lt <-> lt3 a b.
Proof.
  intros [[a1 a2] a3] [[b1 b2] b3]. unfold lex3, lt3.
  destruct (Z.compare_spec a1 b1); destruct (Z.compare_spec a2 b2);
    destruct (Z.compare_spec a3 b3); split; intro HH; try discriminate; try reflexivity; lia.
Qed.

Lemma lex3_eq : forall a b, lex3 a b = Eq <-> a = b.
Proof.
  intros [[a1 a2] a3] [[b1 b2] b3]. unfold lex3.
  destruct (Z.compare_spec a1 b1); destruct (Z.compare_spec a2 b2);
    destruct (Z.compare_spec a3 b3); split; intro HH; try discriminate; try reflexivity;
    try (injection HH; intros; lia); subst; reflexivity.
Qed.

Lemma lex3_gt : forall a b, lex3 a b = Gt <-> lt3 b a.
Proof.
  intros [[a1 a2] a3] [[b1 b2] b3]. unfold lex3, lt3.
  destruct (Z.compare_spec a1 b1); destruct (Z.compare_spec a2 b2);
    destruct (Z.compare_spec a3 b3); split; intro HH; try discriminate; try reflexivity; lia.
Qed.

Lemma lt3_trans : forall a b c, lt3 a b -> lt3 b c -> lt3 a c.
Proof. intros [[a1 a2] a3] [[b1 b2] b3] [[c1 c2] c3]. unfold lt3. lia. Qed.

Lemma lt3_irrefl : forall a, ~ lt3 a a.
Proof. intros [[a1 a2] a3]. unfold lt3. lia. Qed.

Lemma lt3_total : forall a b, lt3 a b \/ a = b \/ lt3 b a.
Proof.
  intros [[a1 a2] a3] [[b1 b2] b3]. unfold lt3.
  destruct (Z.lt_total a1 b1) as [|[|]]; destruct (Z.lt_total a2 b2) as [|[|]];
    destruct (Z.lt_total a3 b3) as [|[|]]; subst; try lia; auto.
Qed.

(** [x < y], [x <= y] and [x == y] through the keys *)
Lemma SFltb_fkey : forall x y,
  SFltb x y = true <-> exists a b, fkey x = Some a /\ fkey y = Some b /\ lt3 a b.
Proof.
  intros x y. unfold SFltb. rewrite SFcompare_fkey.
  destruct (fkey x) as [a|], (fkey y) as [b|]; split; intro H;
    try discriminate; try (destruct H as (? & ? & ? & ? & ?); discriminate).
  - exists a, b. repeat split. apply lex3_lt. destruct (lex3 a b); try discriminate; reflexivity.
  - destruct H as [a' [b' [Ea [Eb L]]]]. injection Ea as <-. injection Eb as <-.
    apply lex3_lt in L. rewrite L. reflexivity.
Qed.

Lemma SFleb_fkey : forall x y,
  SFleb x y = true <-> exists a b, fkey x = Some a /\ fkey y = Some b /\ (lt3 a b \/ a = b).
Proof.
  intros x y. unfold SFleb. rewrite SFcompare_fkey.
  destruct (fkey x) as [a|], (fkey y) as [b|]; split; intro H;
    try discriminate; try (destruct H as (? & ? & ? & ? & ?); discriminate).
  - exists a, b. repeat split. destruct (lex3 a b) eqn:L; try discriminate.
    + right. apply lex3_eq. exact L.
    + left. apply lex3_lt. exact L.
  - destruct H as [a' [b' [Ea [Eb L]]]]. injection Ea as <-. injection Eb as <-.
    destruct L as [L|L].
    + apply lex3_lt in L. rewrite L. reflexivity.
    + apply lex3_eq in L. rewrite L. reflexivity.
Qed.

Lemma SFeqb_fkey : forall x y,
  SFeqb x y = true <-> exists a, fkey x = Some a /\ fkey y = Some a.
Proof.
  intros x y. unfold SFeqb. rewrite SFcompare_fkey.
  destruct (fkey x) as [a|], (fkey y) as [b|]; split; intro H;
    try discriminate; try (destruct H as (? & ? & ?); discriminate).
  - exists a. split; [reflexivity|]. destruct (lex3 a b) eqn:L; try discriminate.
    apply lex3_eq in L. subst. reflexivity.
  - destruct H as [a' [Ea Eb]]. assert (E : a = b) by congruence. subst b.
    rewrite (proj2 (lex3_eq a a) eq_refl). reflexivity.
Qed.

(** [x < y] excludes [y <= x] *)
Lemma SFltb_not_leb : forall x y, SFltb x y = true -> SFleb y x = false.
Proof.
  intros x y H. apply SFltb_fkey in H. destruct H as [a [b [Ea [Eb L]]]].
  destruct (SFleb y x) eqn:E; [|reflexivity].
  apply SFleb_fkey in E. destruct E as [b' [a' [Eb' [Ea' L']]]].
  rewrite Eb in Eb'. rewrite Ea in Ea'. injection Eb' as <-. injection Ea' as <-.
  exfalso. destruct L' as [L'|L'].
  - exact (lt3_irrefl _ (lt3_trans _ _ _ L L')).
  - subst. exact (lt3_irrefl _ L).
Qed.

(** on numbers that are not NaN, [x < y] or [y <= x] *)
Lemma SFltb_false_leb : forall x y,
  fkey x <> None -> fkey y <> None -> SFltb x y = false -> SFleb y x = true.
Proof.
  intros x y Hx Hy H.
  destruct (fkey x) as [a|] eqn:Ea; [|contradiction].
  destruct (fkey y) as [b|] eqn:Eb; [|contradiction].
  apply SFleb_fkey. exists b, a. repeat split; try assumption.
  destruct (lt3_total a b) as [L|[L|L]]; auto.
  exfalso. assert (T : SFltb x y = true) by (apply SFltb_fkey; exists a, b; auto).
  congruence.
Qed.

Lemma SFleb_trans : forall x y z, SFleb x y = true -> SFleb y z = true -> SFleb x z = true.
Proof.
  intros x y z H1 H2. apply SFleb_fkey in H1, H2.
  destruct H1 as [a [b [Ea [Eb L1]]]]. destruct H2 as [b' [c [Eb' [Ec L2]]]].
  rewrite Eb in Eb'. injection Eb' as <-.
  apply SFleb_fkey. exists a, c. repeat split; try assumption.
  destruct L1 as [L1|L1]; destruct L2 as [L2|L2]; subst; auto.
  left. exact (lt3_trans _ _ _ L1 L2).
Qed.

Lemma SFleb_not_nan : forall x y, SFleb x y = true -> fkey x <> None /\ fkey y <> None.
Proof.
  intros x y H. apply SFleb_fkey in H. destruct H as [a [b [Ea [Eb _]]]].
  rewrite Ea, Eb. split; discriminate.
Qed.

(** ** Rounding *)

Section Rounding.
Local Open Scope Z_scope.

(** ** Binary digits *)


Lemma fexp64_eq : forall k, fexp64 k = Z.max (k - 53) (-1074).
Proof. reflexivity. Qed.

Lemma digits2_pos_bounds : forall p,
  2 ^ (Zpos (digits2_pos p) - 1) <= Zpos p < 2 ^ Zpos (digits2_pos p).
Proof.
  induction p as [p IH|p IH|]; cbn [digits2_pos].
  - rewrite Pos2Z.inj_succ.
    replace (Z.succ (Zpos (digits2_pos p)) - 1) with (Z.succ (Zpos (digits2_pos p) - 1)) by lia.
    rewrite !Z.pow_succ_r by lia. lia.
  - rewrite Pos2Z.inj_succ.
    replace (Z.succ (Zpos (digits2_pos p)) - 1) with (Z.succ (Zpos (digits2_pos p) - 1)) by lia.
    rewrite !Z.pow_succ_r by lia. lia.
  - cbn. lia.
Qed.

Lemma Zdigits2_bounds : forall V, 0 < V -> 2 ^ (Zdigits2 V - 1) <= V < 2 ^ Zdigits2 V.
Proof.
  intros V H. destruct V as [|p|p]; try lia. apply digits2_pos_bounds.
Qed.

Lemma Zdigits2_pos : forall V, 0 < V -> 0 < Zdigits2 V.
Proof. intros V H. destruct V; cbn; lia. Qed.

Lemma Zdigits2_nonneg : forall V, 0 <= V -> 0 <= Zdigits2 V.
Proof. intros V H. destruct V; cbn; lia. Qed.

Lemma Zdigits2_unique : forall V k, 2 ^ (k - 1) <= V < 2 ^ k -> 0 < V -> Zdigits2 V = k.
Proof.
  intros V k [H1 H2] HV.
  pose proof (Zdigits2_bounds HV) as [B1 B2]. pose proof (Zdigits2_pos HV) as Hd.
  assert (Hk : 0 < k).
  { destruct (Z_lt_le_dec 0 k); [assumption|]. exfalso.
    destruct (Z.eq_dec k 0) as [E|E].
    - subst k. change (2 ^ 0) with 1 in H2. lia.
    - rewrite Z.pow_neg_r in H2 by lia. lia. }
  assert (k - 1 < Zdigits2 V).
  { apply (Z.pow_lt_mono_r_iff 2); lia. }
  assert (Zdigits2 V - 1 < k).
  { apply (Z.pow_lt_mono_r_iff 2); lia. }
  lia.
Qed.

Lemma Zdigits2_mono : forall a b, 0 <= a <= b -> Zdigits2 a <= Zdigits2 b.
Proof.
  intros a b [Ha Hab].
  destruct (Z.eq_dec a 0) as [->|Na].
  - apply Zdigits2_nonneg. lia.
  - assert (Pa : 0 < a) by lia. assert (Pb : 0 < b) by lia.
    pose proof (Zdigits2_bounds Pa) as [A1 A2]. pose proof (Zdigits2_bounds Pb) as [B1 B2].
    pose proof (Zdigits2_pos Pa). pose proof (Zdigits2_pos Pb).
    assert (Zdigits2 a - 1 < Zdigits2 b) by (apply (Z.pow_lt_mono_r_iff 2); lia).
    lia.
Qed.

Lemma Zdigits2_shift : forall m j, 0 < m -> 0 <= j -> Zdigits2 (m * 2 ^ j) = Zdigits2 m + j.
Proof.
  intros m j Hm Hj.
  pose proof (Zdigits2_bounds Hm) as [B1 B2]. pose proof (Zdigits2_pos Hm).
  assert (P : 0 < 2 ^ j) by (apply Z.pow_pos_nonneg; lia).
  apply Zdigits2_unique; [|nia].
  replace (Zdigits2 m + j - 1) with (Zdigits2 m - 1 + j) by lia.
  rewrite !Z.pow_add_r by lia. nia.
Qed.

(** a number with at least [k] digits is at least [2^(k-1)] *)
Lemma Zdigits2_ge : forall V k, 0 < k -> 2 ^ (k - 1) <= V -> k <= Zdigits2 V.
Proof.
  intros V k Hk H.
  assert (PV : 0 < V) by (pose proof (Z.pow_pos_nonneg 2 (k - 1)); lia).
  pose proof (Zdigits2_bounds PV) as [B1 B2]. pose proof (Zdigits2_pos PV).
  assert (k - 1 < Zdigits2 V) by (apply (Z.pow_lt_mono_r_iff 2); lia).
  lia.
Qed.

Lemma Zdigits2_le : forall V k, 0 <= k -> 0 <= V < 2 ^ k -> Zdigits2 V <= k.
Proof.
  intros V k Hk [H0 H].
  destruct (Z.eq_dec V 0) as [->|N]; [cbn; lia|].
  assert (PV : 0 < V) by lia.
  pose proof (Zdigits2_bounds PV) as [B1 B2]. pose proof (Zdigits2_pos PV).
  assert (Zdigits2 V - 1 < k) by (apply (Z.pow_lt_mono_r_iff 2); lia).
  lia.
Qed.

(** ** Shifting right *)

Lemma iter_pos_nat : forall (A : Type) (f : A -> A) p x,
  iter_pos f p x = Nat.iter (Pos.to_nat p) f x.
Proof.
  intros A f. induction p as [p IH|p IH|]; intro x; cbn [iter_pos].
  - rewrite !IH, Pos2Nat.inj_xI. rewrite <- Nat.iter_add.
    replace (Pos.to_nat p + Pos.to_nat p)%nat with (2 * Pos.to_nat p)%nat by lia.
    symmetry. apply Nat.iter_succ_r.
  - rewrite !IH, Pos2Nat.inj_xO. rewrite <- Nat.iter_add.
    replace (Pos.to_nat p + Pos.to_nat p)%nat with (2 * Pos.to_nat p)%nat by lia.
    reflexivity.
  - reflexivity.
Qed.

Lemma shr_1_nonneg : forall m r s, 0 <= m ->
  shr_1 {| shr_m := m; shr_r := r; shr_s := s |}
  = {| shr_m := m / 2; shr_r := Z.odd m; shr_s := r || s |}.
Proof.
  intros m r s Hm. destruct m as [|p|p]; [reflexivity| |lia].
  destruct p as [p|p|]; cbn [shr_1].
  - f_equal. rewrite Pos2Z.inj_xI. apply Z.div_unique with 1; lia.
  - f_equal. rewrite Pos2Z.inj_xO. apply Z.div_unique with 0; lia.
  - reflexivity.
Qed.

(** [n] shifts of an exact record: the quotient by [2^n], and where the
    remainder stands with respect to the half of [2^n] *)
Lemma shr_iter_exact : forall (n : nat) m, 0 <= m ->
  Nat.iter n shr_1 {| shr_m := m; shr_r := false; shr_s := false |}
  = {| shr_m := m / 2 ^ Z.of_nat n;
       shr_r := 2 ^ Z.of_nat n <=? 2 * (m mod 2 ^ Z.of_nat n);
       shr_s := negb ((2 * (m mod 2 ^ Z.of_nat n)) mod 2 ^ Z.of_nat n =? 0) |}.
Proof.
  induction n as [|n IH]; intros m Hm.
  - cbn [Nat.iter Z.of_nat]. change (2 ^ 0) with 1.
    rewrite Z.div_1_r, Z.mod_1_r. reflexivity.
  - rewrite Nat.iter_succ, IH by exact Hm.
    rewrite Nat2Z.inj_succ, Z.pow_succ_r by lia.
    set (P := 2 ^ Z.of_nat n).
    assert (HP : 0 < P) by (apply Z.pow_pos_nonneg; lia).
    pose proof (Z.div_mod m P ltac:(lia)) as Em.
    pose proof (Z.mod_pos_bound m P HP) as Br.
    assert (Hq : 0 <= m / P) by (apply Z.div_pos; lia).
    set (q := m / P) in *. set (rem := m mod P) in *.
    rewrite shr_1_nonneg by exact Hq.
    pose proof (Z.div_mod q 2 ltac:(lia)) as Eq2.
    pose proof (Z.mod_pos_bound q 2 ltac:(lia)) as Bq.
    assert (Eb : q mod 2 = if Z.odd q then 1 else 0).
    { rewrite Zmod_odd. reflexivity. }
    assert (Emod : m mod (2 * P) = (q mod 2) * P + rem).
    { symmetry. apply Z.mod_unique with (q / 2); [left; nia | nia]. }
    assert (Ediv : m / (2 * P) = q / 2).
    { symmetry. apply Z.div_unique with ((q mod 2) * P + rem); [left; nia | nia]. }
    rewrite Ediv, Emod. f_equal.
    + (* the round bit *)
      rewrite Eb. destruct (Z.odd q).
      * symmetry. apply Z.leb_le. lia.
      * symmetry. apply Z.leb_gt. lia.
    + (* the sticky bit *)
      assert (E2 : (2 * (q mod 2 * P + rem)) mod (2 * P) = 2 * rem).
      { symmetry. apply Z.mod_unique with (q mod 2); [left; lia | ring]. }
      rewrite E2.
      destruct (Z.eqb_spec rem 0) as [R0|R0].
      * rewrite R0. change (2 * 0) with 0. rewrite Z.mod_0_l by lia.
        replace (P <=? 0) with false by (symmetry; apply Z.leb_gt; lia). reflexivity.
      * replace (2 * rem =? 0) with false by (symmetry; apply Z.eqb_neq; lia).
        destruct (Z.leb_spec P (2 * rem)); [reflexivity|].
        rewrite Z.mod_small by lia.
        replace (2 * rem =? 0) with false by (symmetry; apply Z.eqb_neq; lia).
        reflexivity.
Qed.

(** rounding an exact record that was shifted [n] times is [rne] *)
Lemma round_shr_exact : forall m e n, 0 <= m -> 0 <= n ->
  let '(mrs, e') := shr {| shr_m := m; shr_r := false; shr_s := false |} e n in
  round_nearest_even (shr_m mrs) (loc_of_shr_record mrs) = rne m n /\ e' = e + n.
Proof.
  intros m e n Hm Hn. unfold shr. destruct n as [|p|p]; [| |lia].
  - cbn [shr_m loc_of_shr_record round_nearest_even]. unfold rne.
    change (2 ^ 0) with 1. rewrite Z.div_1_r, Z.mod_1_r. cbn. split; [reflexivity|lia].
  - split; [|reflexivity].
    rewrite iter_pos_nat, shr_iter_exact by exact Hm.
    rewrite positive_nat_Z. unfold rne.
    set (P := 2 ^ Z.pos p).
    assert (HP : 0 < P) by (apply Z.pow_pos_nonneg; lia).
    pose proof (Z.mod_pos_bound m P HP) as Br.
    set (q := m / P). set (rem := m mod P) in *.
    cbn [shr_m loc_of_shr_record].
    destruct (Z.compare_spec (2 * rem) P) as [E|L|G].
    + replace (P <=? 2 * rem) with true by (symmetry; apply Z.leb_le; lia).
      rewrite E, Z.mod_same by lia. cbn. reflexivity.
    + replace (P <=? 2 * rem) with false by (symmetry; apply Z.leb_gt; lia).
      destruct (negb (2 * rem mod P =? 0)); reflexivity.
    + replace (P <=? 2 * rem) with true by (symmetry; apply Z.leb_le; lia).
      assert (N : 2 * rem mod P <> 0).
      { replace (2 * rem) with (2 * rem - P + 1 * P) by ring.
        rewrite Z.mod_add by lia. rewrite Z.mod_small by lia. lia. }
      replace (2 * rem mod P =? 0) with false by (symmetry; apply Z.eqb_neq; exact N).
      reflexivity.
Qed.

(** ** Rounding to nearest, ties to even *)

Lemma rne_between : forall m n, 0 <= n -> m / 2 ^ n <= rne m n <= m / 2 ^ n + 1.
Proof.
  intros m n Hn. unfold rne.
  destruct (2 * (m mod 2 ^ n) ?= 2 ^ n); [destruct (Z.even (m / 2 ^ n))| |]; lia.
Qed.

Lemma rne_nonneg : forall m n, 0 <= m -> 0 <= n -> 0 <= rne m n.
Proof.
  intros m n Hm Hn. pose proof (rne_between m Hn).
  assert (0 <= m / 2 ^ n) by (apply Z.div_pos; [lia | apply Z.pow_pos_nonneg; lia]).
  lia.
Qed.

Lemma rne_exact : forall q n, 0 <= n -> rne (q * 2 ^ n) n = q.
Proof.
  intros q n Hn. unfold rne.
  assert (HP : 0 < 2 ^ n) by (apply Z.pow_pos_nonneg; lia).
  rewrite Z.mod_mul, Z.div_mul by lia.
  change (2 * 0) with 0. destruct (Z.compare_spec 0 (2 ^ n)); lia || reflexivity.
Qed.

Lemma rne_mono : forall m1 m2 n, 0 <= n -> m1 <= m2 -> rne m1 n <= rne m2 n.
Proof.
  intros m1 m2 n Hn H. unfold rne.
  set (P := 2 ^ n). assert (HP : 0 < P) by (apply Z.pow_pos_nonneg; lia).
  pose proof (Z.div_mod m1 P ltac:(lia)) as E1. pose proof (Z.mod_pos_bound m1 P HP) as B1.
  pose proof (Z.div_mod m2 P ltac:(lia)) as E2. pose proof (Z.mod_pos_bound m2 P HP) as B2.
  assert (Q : m1 / P <= m2 / P) by (apply Z.div_le_mono; lia).
  set (q1 := m1 / P) in *. set (r1 := m1 mod P) in *.
  set (q2 := m2 / P) in *. set (r2 := m2 mod P) in *.
  destruct (Z.eq_dec q1 q2) as [Eq|Nq].
  - assert (r1 <= r2) by nia. rewrite Eq.
    destruct (Z.compare_spec (2 * r1) P); destruct (Z.compare_spec (2 * r2) P);
      try destruct (Z.even q2); lia.
  - assert (q1 + 1 <= q2) by lia.
    destruct (Z.compare_spec (2 * r1) P); destruct (Z.compare_spec (2 * r2) P);
      try destruct (Z.even q1); try destruct (Z.even q2); lia.
Qed.

Lemma rne_scale : forall m n j, 0 <= n -> 0 <= j -> rne (m * 2 ^ j) (n + j) = rne m n.
Proof.
  intros m n j Hn Hj. unfold rne.
  assert (HP : 0 < 2 ^ n) by (apply Z.pow_pos_nonneg; lia).
  assert (HJ : 0 < 2 ^ j) by (apply Z.pow_pos_nonneg; lia).
  rewrite Z.pow_add_r by lia.
  rewrite Z.div_mul_cancel_r by lia.
  rewrite Zmult_mod_distr_r.
  replace (2 * (m mod 2 ^ n * 2 ^ j)) with (2 * (m mod 2 ^ n) * 2 ^ j) by ring.
  destruct (Z.compare_spec (2 * (m mod 2 ^ n)) (2 ^ n));
    destruct (Z.compare_spec (2 * (m mod 2 ^ n) * 2 ^ j) (2 ^ n * 2 ^ j));
    try reflexivity; nia.
Qed.

Lemma rne_small : forall m n, 0 <= n -> 0 <= m -> 2 * m < 2 ^ n -> rne m n = 0.
Proof.
  intros m n Hn Hm H. unfold rne.
  rewrite Z.mod_small, Z.div_small by lia.
  destruct (Z.compare_spec (2 * m) (2 ^ n)); lia || reflexivity.
Qed.

Lemma rne_le_pow : forall m n d, 0 <= n <= d -> 0 <= m < 2 ^ d -> rne m n <= 2 ^ (d - n).
Proof.
  intros m n d Hn Hm. pose proof (rne_between m (proj1 Hn)) as [_ U].
  assert (HP : 0 < 2 ^ n) by (apply Z.pow_pos_nonneg; lia).
  assert (m / 2 ^ n < 2 ^ (d - n)).
  { apply Z.div_lt_upper_bound; [lia|]. rewrite <- Z.pow_add_r by lia.
    replace (n + (d - n)) with d by lia. lia. }
  lia.
Qed.

Lemma rne_ge_pow : forall m n d, 0 <= n <= d -> 2 ^ d <= m -> 2 ^ (d - n) <= rne m n.
Proof.
  intros m n d Hn Hm.
  replace (2 ^ (d - n)) with (rne (2 ^ (d - n) * 2 ^ n) n) by (apply rne_exact; lia).
  apply rne_mono; [lia|]. rewrite <- Z.pow_add_r by lia.
  replace (d - n + n) with d by lia. exact Hm.
Qed.

(** ** The end of a rounding *)

Lemma shr_m_iter : forall (n : nat) mrs, 0 <= shr_m mrs ->
  shr_m (Nat.iter n shr_1 mrs) = shr_m mrs / 2 ^ Z.of_nat n.
Proof.
  induction n as [|n IH]; intros mrs H.
  - cbn [Nat.iter Z.of_nat]. change (2 ^ 0) with 1. rewrite Z.div_1_r. reflexivity.
  - rewrite Nat.iter_succ. specialize (IH mrs H).
    assert (HP : 0 < 2 ^ Z.of_nat n) by (apply Z.pow_pos_nonneg; lia).
    destruct (Nat.iter n shr_1 mrs) as [m r s]. cbn [shr_m] in IH.
    assert (Hq : 0 <= m) by (rewrite IH; apply Z.div_pos; lia).
    rewrite shr_1_nonneg by exact Hq. cbn [shr_m]. rewrite IH.
    rewrite Nat2Z.inj_succ, Z.pow_succ_r by lia.
    rewrite Z.div_div by lia. f_equal. ring.
Qed.

Lemma finish_out : forall q g, 0 <= q < 2 ^ 53 -> -1074 <= g -> finish q g = out q g.
Proof.
  intros q g Hq Hg. unfold finish, shr_fexp.
  assert (D : Zdigits2 q <= 53) by (apply Zdigits2_le; lia).
  change (SpecFloat.fexp prec emax (Zdigits2 q + g)) with (fexp64 (Zdigits2 q + g)).
  rewrite fexp64_eq.
  assert (N : Z.max (Zdigits2 q + g - 53) (-1074) - g <= 0) by lia.
  unfold shr. destruct (Z.max (Zdigits2 q + g - 53) (-1074) - g) as [|p|p]; [|lia|];
    reflexivity.
Qed.

Lemma finish_carry : forall g, -1074 <= g -> finish (2 ^ 53) g = out (2 ^ 52) (g + 1).
Proof.
  intros g Hg. unfold finish, shr_fexp.
  change (SpecFloat.fexp prec emax (Zdigits2 (2 ^ 53) + g)) with (fexp64 (Zdigits2 (2 ^ 53) + g)).
  rewrite fexp64_eq. change (Zdigits2 (2 ^ 53)) with 54.
  replace (Z.max (54 + g - 53) (-1074) - g) with 1 by lia.
  reflexivity.
Qed.

Lemma out_valid : forall q g, 0 <= q < 2 ^ 53 -> -1074 <= g ->
  (-1074 < g -> 2 ^ 52 <= q) -> valid_binary prec emax (out q g) = true.
Proof.
  intros q g Hq Hg Hn. unfold out. destruct q as [|m|m]; [reflexivity| |lia].
  destruct (Z.leb_spec g (emax - prec)) as [L|L]; [|reflexivity].
  cbn [valid_binary]. unfold bounded, canonical_mantissa.
  apply andb_true_iff. split; [|apply Z.leb_le; exact L].
  apply Z.eqb_eq.
  change (SpecFloat.fexp prec emax (Z.pos (digits2_pos m) + g))
    with (fexp64 (Zdigits2 (Z.pos m) + g)).
  rewrite fexp64_eq.
  assert (D : Zdigits2 (Z.pos m) <= 53) by (apply Zdigits2_le; lia).
  destruct (Z.eq_dec g (-1074)) as [->|Ng]; [lia|].
  assert (53 <= Zdigits2 (Z.pos m)) by (apply Zdigits2_ge; [lia | apply Hn; lia]).
  lia.
Qed.

(** the order of two results *)
Lemma out_le : forall q1 g1 q2 g2, 0 < q1 -> 0 < q2 ->
  g1 < g2 \/ (g1 = g2 /\ q1 <= q2) -> SFleb (out q1 g1) (out q2 g2) = true.
Proof.
  intros q1 g1 q2 g2 H1 H2 H. unfold out.
  destruct q1 as [|m1|m1]; try lia. destruct q2 as [|m2|m2]; try lia.
  destruct (Z.leb_spec g1 (emax - prec)); destruct (Z.leb_spec g2 (emax - prec));
    try reflexivity; try lia.
  apply SFleb_fkey. cbn [fkey]. eexists. eexists. split; [reflexivity|]. split; [reflexivity|].
  unfold lt3. destruct H as [H|[H1' H2']].
  - left. lia.
  - destruct (Z.eq_dec (Z.pos m1) (Z.pos m2)) as [E|E].
    + right. congruence.
    + left. lia.
Qed.

Lemma out_zero_le : forall q g, 0 <= q -> SFleb (S754_zero false) (out q g) = true.
Proof.
  intros q g H. unfold out. destruct q as [|m|m]; [reflexivity| |lia].
  destruct (g <=? emax - prec); reflexivity.
Qed.

(** ** Rounding by value *)

(** the rounded mantissa of a positive number: at most [2^53], and at least
    [2^52] above the subnormal range *)
Lemma round_val_shape : forall s V, s <= -1074 -> 0 < V ->
  let g := fexp64 (Zdigits2 V + s) in
  let q := rne V (g - s) in
  -1074 <= g /\ 0 <= q <= 2 ^ 53 /\ (-1074 < g -> 2 ^ 52 <= q).
Proof.
  intros s V Hs HV g q. unfold q, g. rewrite fexp64_eq.
  pose proof (Zdigits2_bounds HV) as [B1 B2]. pose proof (Zdigits2_pos HV) as Hd.
  set (d := Zdigits2 V) in *.
  set (g' := Z.max (d + s - 53) (-1074)).
  assert (Hg : -1074 <= g') by lia.
  split; [exact Hg|]. split; [split|].
  - apply rne_nonneg; lia.
  - destruct (Z_le_gt_dec (g' - s) d) as [L|G].
    + apply Z.le_trans with (2 ^ (d - (g' - s))).
      * apply rne_le_pow; lia.
      * apply Z.pow_le_mono_r; lia.
    + rewrite rne_small; try lia.
      assert (2 ^ d <= 2 ^ (g' - s - 1)) by (apply Z.pow_le_mono_r; lia).
      replace (2 ^ (g' - s)) with (2 * 2 ^ (g' - s - 1)); [lia|].
      rewrite <- Z.pow_succ_r by lia. f_equal. lia.
  - intro N. assert (E : g' = d + s - 53) by lia.
    replace (2 ^ 52) with (2 ^ (d - 1 - (g' - s))) by (f_equal; lia).
    apply rne_ge_pow; lia.
Qed.

Lemma round_val_out : forall s V, s <= -1074 -> 0 < V ->
  let g := fexp64 (Zdigits2 V + s) in
  let q := rne V (g - s) in
  round_val s V = if q =? 2 ^ 53 then out (2 ^ 52) (g + 1) else out q g.
Proof.
  intros s V Hs HV g q. pose proof (round_val_shape Hs HV) as [Hg [Hq Hn]].
  fold g q in Hg, Hq, Hn. unfold round_val. fold g q.
  destruct (Z.eqb_spec q (2 ^ 53)) as [E|E].
  - rewrite E. apply finish_carry. exact Hg.
  - apply finish_out; lia.
Qed.

Lemma round_val_zero : forall s, round_val s 0 = S754_zero false.
Proof.
  intro s. unfold round_val. change (Zdigits2 0) with 0.
  assert (E : forall n, rne 0 n = 0).
  { intro n. unfold rne. rewrite Zmod_0_l, Zdiv_0_l.
    destruct (Z.compare_spec (2 * 0) (2 ^ n)) as [C|C|C]; try reflexivity.
    pose proof (Z.pow_nonneg 2 n ltac:(lia)). lia. }
  rewrite E. unfold finish, shr_fexp. change (Zdigits2 0) with 0.
  unfold shr. destruct (SpecFloat.fexp prec emax (0 + fexp64 (0 + s)) - fexp64 (0 + s)) as [|p|p];
    try reflexivity.
  cbn [shr_record_of_loc]. rewrite iter_pos_nat.
  pose proof (@shr_m_iter (Pos.to_nat p) {| shr_m := 0; shr_r := false; shr_s := false |}) as H.
  cbn [shr_m] in H. rewrite H by lia. rewrite Zdiv_0_l. reflexivity.
Qed.

Lemma out_nonneg : forall q g, 0 <= q < 2 ^ 53 -> -1074 <= g ->
  (-1074 < g -> 2 ^ 52 <= q) -> nonneg (out q g).
Proof.
  intros q g Hq Hg Hn. split; [apply out_valid; assumption|].
  unfold out. destruct q as [|m|m]; try lia; try exact I.
  destruct (g <=? emax - prec); exact I.
Qed.

(** what [round_val] returns is a valid number that is not negative *)
Lemma round_val_nonneg : forall s V, s <= -1074 -> 0 <= V -> nonneg (round_val s V).
Proof.
  intros s V Hs HV. destruct (Z.eq_dec V 0) as [->|N].
  - rewrite round_val_zero. unfold nonneg. cbn. auto.
  - assert (PV : 0 < V) by lia.
    pose proof (round_val_shape Hs PV) as [Hg [Hq Hn]].
    rewrite (round_val_out Hs PV).
    set (g := fexp64 (Zdigits2 V + s)) in *. set (q := rne V (g - s)) in *.
    destruct (Z.eqb_spec q (2 ^ 53)) as [E|E].
    + apply out_nonneg; lia.
    + apply out_nonneg; lia.
Qed.

Lemma zero_le_nonneg : forall x, nonneg x -> SFleb (S754_zero false) x = true.
Proof.
  intros x [_ H]. destruct x as [sx|sx| |sx m e]; try destruct sx; try contradiction; reflexivity.
Qed.

(** rounding is monotone *)
Lemma round_val_mono : forall s V1 V2, s <= -1074 -> 0 <= V1 <= V2 ->
  SFleb (round_val s V1) (round_val s V2) = true.
Proof.
  intros s V1 V2 Hs [H1 H12].
  destruct (Z.eq_dec V1 0) as [->|N1].
  - rewrite round_val_zero. apply zero_le_nonneg. apply round_val_nonneg; lia.
  - assert (P1 : 0 < V1) by lia. assert (P2 : 0 < V2) by lia.
    pose proof (round_val_shape Hs P1) as [Hg1 [Hq1 Hn1]].
    pose proof (round_val_shape Hs P2) as [Hg2 [Hq2 Hn2]].
    rewrite (round_val_out Hs P1), (round_val_out Hs P2).
    assert (G : fexp64 (Zdigits2 V1 + s) <= fexp64 (Zdigits2 V2 + s)).
    { rewrite !fexp64_eq. pose proof (@Zdigits2_mono V1 V2 ltac:(lia)). lia. }
    set (g1 := fexp64 (Zdigits2 V1 + s)) in *. set (q1 := rne V1 (g1 - s)) in *.
    set (g2 := fexp64 (Zdigits2 V2 + s)) in *. set (q2 := rne V2 (g2 - s)) in *.
    assert (Q : g1 = g2 -> q1 <= q2).
    { intro E. unfold q1, q2. rewrite E. apply rne_mono; lia. }
    destruct (Z.eq_dec q1 0) as [Z1|Z1].
    { rewrite Z1. change (0 =? 2 ^ 53) with false. cbv iota.
      change (out 0 g1) with (S754_zero false).
      destruct (q2 =? 2 ^ 53); apply out_zero_le; lia. }
    assert (Z2 : q2 <> 0).
    { destruct (Z.eq_dec g1 g2) as [E|E]; [specialize (Q E); lia|].
      assert (2 ^ 52 <= q2) by (apply Hn2; lia). lia. }
    destruct (Z.eqb_spec q1 (2 ^ 53)) as [E1|E1]; destruct (Z.eqb_spec q2 (2 ^ 53)) as [E2|E2].
    + apply out_le; lia.
    + assert (g1 <> g2) by (intro E; specialize (Q E); lia).
      assert (2 ^ 52 <= q2) by (apply Hn2; lia).
      apply out_le; lia.
    + apply out_le; lia.
    + assert (g1 = g2 -> q1 <= q2) by exact Q.
      apply out_le; lia.
Qed.

(** a valid number is the rounding of its own value *)
Lemma round_val_id : forall m e,
  valid_binary prec emax (S754_finite false m e) = true ->
  round_val (-1074) (fval (S754_finite false m e)) = S754_finite false m e.
Proof.
  intros m e H. cbn [valid_binary] in H. unfold bounded, canonical_mantissa in H.
  apply andb_true_iff in H. destruct H as [C B]. apply Z.eqb_eq in C. apply Z.leb_le in B.
  change (SpecFloat.fexp prec emax (Z.pos (digits2_pos m) + e))
    with (fexp64 (Zdigits2 (Z.pos m) + e)) in C.
  rewrite fexp64_eq in C.
  cbn [fval]. change emin64 with (-1074).
  assert (He : -1074 <= e) by lia.
  assert (PV : 0 < Z.pos m * 2 ^ (e - -1074)).
  { apply Z.mul_pos_pos; [lia | apply Z.pow_pos_nonneg; lia]. }
  rewrite (round_val_out (Z.le_refl _) PV).
  rewrite Zdigits2_shift by lia.
  replace (Zdigits2 (Z.pos m) + (e - -1074) + -1074) with (Zdigits2 (Z.pos m) + e) by lia.
  rewrite fexp64_eq, C. rewrite rne_exact by lia.
  assert (D : Zdigits2 (Z.pos m) <= 53) by lia.
  pose proof (@Zdigits2_bounds (Z.pos m) ltac:(lia)) as [_ U].
  assert (Z.pos m < 2 ^ 53).
  { apply Z.lt_le_trans with (2 ^ Zdigits2 (Z.pos m)); [exact U|].
    apply Z.pow_le_mono_r; lia. }
  replace (Z.pos m =? 2 ^ 53) with false by (symmetry; apply Z.eqb_neq; lia).
  unfold out. replace (e <=? emax - prec) with true by (symmetry; apply Z.leb_le; exact B).
  reflexivity.
Qed.

(** [binary_round_aux] on an exact input rounds its value *)
Lemma binary_round_aux_val : forall s m e, s <= -1074 -> s <= e -> 0 < m ->
  e <= fexp64 (Zdigits2 m + e) ->
  binary_round_aux prec emax false m e loc_Exact = round_val s (m * 2 ^ (e - s)).
Proof.
  intros s m e Hs Hse Hm Hn.
  unfold binary_round_aux, shr_fexp. cbn [shr_record_of_loc].
  change (SpecFloat.fexp prec emax (Zdigits2 m + e)) with (fexp64 (Zdigits2 m + e)).
  pose proof (@round_shr_exact m e (fexp64 (Zdigits2 m + e) - e) ltac:(lia) ltac:(lia)) as R.
  destruct (shr {| shr_m := m; shr_r := false; shr_s := false |} e
              (fexp64 (Zdigits2 m + e) - e)) as [mrs e'].
  destruct R as [R ->]. rewrite R.
  unfold round_val. rewrite Zdigits2_shift by lia.
  replace (Zdigits2 m + (e - s) + s) with (Zdigits2 m + e) by lia.
  replace (e + (fexp64 (Zdigits2 m + e) - e)) with (fexp64 (Zdigits2 m + e)) by lia.
  replace (fexp64 (Zdigits2 m + e) - s) with ((fexp64 (Zdigits2 m + e) - e) + (e - s)) by lia.
  rewrite rne_scale by lia. reflexivity.
Qed.

(** ** Values and order *)

Lemma SFleb_congr : forall a a' b b',
  fkey a = fkey a' -> fkey b = fkey b' -> SFleb a b = SFleb a' b'.
Proof.
  intros a a' b b' Ha Hb. unfold SFleb. rewrite !SFcompare_fkey, Ha, Hb. reflexivity.
Qed.

Lemma fval_nonneg : forall x, 0 <= fval x.
Proof.
  intro x. destruct x as [s|s| |s m e]; cbn [fval]; try lia.
  destruct s; [lia|]. apply Z.mul_nonneg_nonneg; [lia | apply Z.pow_nonneg; lia].
Qed.

Lemma valid_exponent : forall m e,
  valid_binary prec emax (S754_finite false m e) = true -> -1074 <= e.
Proof.
  intros m e H. cbn [valid_binary] in H. unfold bounded, canonical_mantissa in H.
  apply andb_true_iff in H. destruct H as [C _]. apply Z.eqb_eq in C.
  change (SpecFloat.fexp prec emax (Z.pos (digits2_pos m) + e))
    with (fexp64 (Zdigits2 (Z.pos m) + e)) in C.
  rewrite fexp64_eq in C. lia.
Qed.

Lemma valid_canonical : forall m e,
  valid_binary prec emax (S754_finite false m e) = true ->
  fexp64 (Zdigits2 (Z.pos m) + e) = e.
Proof.
  intros m e H. cbn [valid_binary] in H. unfold bounded, canonical_mantissa in H.
  apply andb_true_iff in H. destruct H as [C _]. apply Z.eqb_eq in C. exact C.
Qed.

Lemma fval_pos : forall m e,
  valid_binary prec emax (S754_finite false m e) = true -> 0 < fval (S754_finite false m e).
Proof.
  intros m e H. pose proof (valid_exponent _ _ H). cbn [fval]. change emin64 with (-1074).
  apply Z.mul_pos_pos; [lia | apply Z.pow_pos_nonneg; lia].
Qed.

(** a finite number that is not negative is the rounding of its value, up
    to the sign of zero *)
Lemma fkey_round_fval : forall x, fin_nonneg x -> fkey x = fkey (round_val (-1074) (fval x)).
Proof.
  intros x [V C]. destruct x as [s|s| |s m e]; try contradiction.
  - cbn [fval]. rewrite round_val_zero. reflexivity.
  - destruct s; [contradiction|]. rewrite round_val_id by exact V. reflexivity.
Qed.

(** the order of the values is the order of the numbers *)
Lemma fval_le_SFleb : forall x y, fin_nonneg x -> fin_nonneg y ->
  fval x <= fval y -> SFleb x y = true.
Proof.
  intros x y Hx Hy H.
  rewrite (SFleb_congr _ _ _ _ (fkey_round_fval Hx) (fkey_round_fval Hy)).
  apply round_val_mono; [lia|]. split; [apply fval_nonneg | exact H].
Qed.

Lemma fkey_eq_fval : forall x y, fin_nonneg x -> fin_nonneg y ->
  fkey x = fkey y -> fval x = fval y.
Proof.
  intros x y [_ Cx] [_ Cy] E.
  destruct x as [sx|sx| |sx mx ex]; try contradiction;
    destruct y as [sy|sy| |sy my ey]; try contradiction.
  - reflexivity.
  - destruct sy; [contradiction | discriminate].
  - destruct sx; [contradiction | discriminate].
  - destruct sx; [contradiction|]. destruct sy; [contradiction|].
    cbn [fkey] in E. injection E as E1 E2. subst. congruence.
Qed.

Lemma SFleb_fval_le : forall x y, fin_nonneg x -> fin_nonneg y ->
  SFleb x y = true -> fval x <= fval y.
Proof.
  intros x y Hx Hy H.
  destruct (Z_le_gt_dec (fval x) (fval y)) as [L|G]; [exact L|exfalso].
  assert (H' : SFleb y x = true) by (apply fval_le_SFleb; try assumption; lia).
  apply SFleb_fkey in H, H'.
  destruct H as [a [b [Ea [Eb L]]]]. destruct H' as [b' [a' [Eb' [Ea' L']]]].
  rewrite Ea in Ea'. rewrite Eb in Eb'. injection Ea' as <-. injection Eb' as <-.
  assert (E : a = b).
  { destruct L as [L|L]; [|exact L]. destruct L' as [L'|L']; [|congruence].
    exfalso. exact (lt3_irrefl _ (lt3_trans _ _ _ L L')). }
  assert (fval x = fval y) by (apply fkey_eq_fval; congruence).
  lia.
Qed.

(** ** Multiplication by a weight *)

Lemma nonneg_of_fin : forall x, fin_nonneg x -> nonneg x.
Proof.
  intros x [V C]. split; [exact V|]. destruct x as [s|s| |s m e]; try contradiction; auto.
Qed.

Lemma nonneg_cases : forall x, nonneg x -> fin_nonneg x \/ x = S754_infinity false.
Proof.
  intros x [V C]. destruct x as [s|s| |s m e]; try contradiction.
  - left. split; [exact V | exact I].
  - destruct s; [contradiction|]. right. reflexivity.
  - left. split; [exact V | exact C].
Qed.

Lemma nonneg_le_inf : forall x, nonneg x -> SFleb x (S754_infinity false) = true.
Proof.
  intros x [_ C]. destruct x as [s|s| |s m e]; try destruct s; try contradiction; reflexivity.
Qed.

Lemma inf_le : forall x, SFleb (S754_infinity false) x = true -> x = S754_infinity false.
Proof.
  intros x H. destruct x as [s|s| |s m e]; try destruct s; try discriminate. reflexivity.
Qed.

Lemma nonneg_fkey : forall x y, fkey x = fkey y -> valid_binary prec emax x = true ->
  nonneg y -> nonneg x.
Proof.
  intros x y E V [_ C]. split; [exact V|].
  destruct y as [sy|sy| |sy my ey]; try contradiction;
    destruct x as [sx|sx| |sx mx ex]; try destruct sx; try destruct sy;
    try discriminate; try contradiction; exact I.
Qed.

(** the product of a finite number and a normal weight is the rounding of
    the product of the values *)
Lemma fmul_round_val : forall mx ex mw ew,
  valid_binary prec emax (S754_finite false mx ex) = true ->
  2 ^ 52 <= Z.pos mw -> ew <= 0 ->
  fmul (S754_finite false mx ex) (S754_finite false mw ew)
  = round_val (-1074 + ew) (fval (S754_finite false mx ex) * Z.pos mw).
Proof.
  intros mx ex mw ew V Hw He. pose proof (valid_exponent _ _ V) as Hex.
  unfold fmul, SFmul. cbn [xorb].
  rewrite (@binary_round_aux_val (-1074 + ew)); try lia.
  - f_equal. cbn [fval]. change emin64 with (-1074). rewrite Pos2Z.inj_mul.
    replace (ex + ew - (-1074 + ew)) with (ex - -1074) by lia. ring.
  - rewrite fexp64_eq.
    assert (53 <= Zdigits2 (Z.pos (mx * mw))).
    { apply Zdigits2_ge; [lia|]. rewrite Pos2Z.inj_mul. nia. }
    lia.
Qed.

Lemma fmul_fkey : forall x mw ew, fin_nonneg x -> 2 ^ 52 <= Z.pos mw -> ew <= 0 ->
  fkey (fmul x (S754_finite false mw ew))
  = fkey (round_val (-1074 + ew) (fval x * Z.pos mw))
  /\ nonneg (fmul x (S754_finite false mw ew)).
Proof.
  intros x mw ew [V C] Hw He. destruct x as [s|s| |s m e]; try contradiction.
  - cbn [fval]. rewrite Z.mul_0_l, round_val_zero. split; [reflexivity|].
    split; [reflexivity | exact I].
  - destruct s; [contradiction|]. rewrite fmul_round_val by assumption.
    split; [reflexivity|]. apply round_val_nonneg; [lia|].
    apply Z.mul_nonneg_nonneg; [apply fval_nonneg | lia].
Qed.

Lemma fmul_nonneg : forall x mw ew, nonneg x -> 2 ^ 52 <= Z.pos mw -> ew <= 0 ->
  nonneg (fmul x (S754_finite false mw ew)).
Proof.
  intros x mw ew Hx Hw He. destruct (nonneg_cases Hx) as [F| ->].
  - apply fmul_fkey; assumption.
  - split; [reflexivity | exact I].
Qed.

(** multiplying by a weight is monotone *)
Lemma fmul_mono : forall x x' mw ew, nonneg x -> nonneg x' ->
  2 ^ 52 <= Z.pos mw -> ew <= 0 -> SFleb x x' = true ->
  SFleb (fmul x (S754_finite false mw ew)) (fmul x' (S754_finite false mw ew)) = true.
Proof.
  intros x x' mw ew Hx Hx' Hw He H.
  destruct (nonneg_cases Hx') as [F'|E'].
  - destruct (nonneg_cases Hx) as [F|E].
    + rewrite (SFleb_congr _ _ _ _ (proj1 (fmul_fkey F Hw He)) (proj1 (fmul_fkey F' Hw He))).
      apply round_val_mono; [lia|].
      pose proof (SFleb_fval_le F F' H). pose proof (fval_nonneg x). nia.
    + subst x. rewrite (inf_le _ H). reflexivity.
  - subst x'. change (fmul (S754_infinity false) (S754_finite false mw ew))
      with (S754_infinity false).
    apply nonneg_le_inf. apply fmul_nonneg; assumption.
Qed.

(** ** Addition *)

Lemma pos_iter_xO : forall m d, Z.pos (Pos.iter xO m d) = Z.pos m * 2 ^ Z.pos d.
Proof.
  intros m d. induction d as [|d IH] using Pos.peano_ind.
  - cbn [Pos.iter]. change (2 ^ 1) with 2. lia.
  - rewrite Pos.iter_succ, Pos2Z.inj_xO, IH, Pos2Z.inj_succ, Z.pow_succ_r by lia. ring.
Qed.

Lemma shl_align_fst : forall m e e', e' <= e ->
  Z.pos (fst (shl_align m e e')) = Z.pos m * 2 ^ (e - e').
Proof.
  intros m e e' H. unfold shl_align.
  destruct (e' - e) as [|p|p] eqn:E.
  - replace (e - e') with 0 by lia. cbn [fst]. change (2 ^ 0) with 1. lia.
  - lia.
  - cbn [fst]. rewrite pos_iter_xO. f_equal. f_equal. lia.
Qed.

(** the sum of two finite positive numbers is the rounding of the sum of
    their values *)
Lemma fadd_round_val : forall ma ea mb eb,
  valid_binary prec emax (S754_finite false ma ea) = true ->
  valid_binary prec emax (S754_finite false mb eb) = true ->
  fadd (S754_finite false ma ea) (S754_finite false mb eb)
  = round_val (-1074) (fval (S754_finite false ma ea) + fval (S754_finite false mb eb)).
Proof.
  intros ma ea mb eb Va Vb.
  pose proof (valid_exponent _ _ Va) as Hea. pose proof (valid_exponent _ _ Vb) as Heb.
  pose proof (valid_canonical _ _ Va) as Ca. pose proof (valid_canonical _ _ Vb) as Cb.
  unfold fadd, SFadd. cbn [cond_Zopp].
  set (ez := Z.min ea eb).
  pose proof (@shl_align_fst ma ea ez ltac:(lia)) as A.
  pose proof (@shl_align_fst mb eb ez ltac:(lia)) as B.
  set (ma' := fst (shl_align ma ea ez)) in *. set (mb' := fst (shl_align mb eb ez)) in *.
  change (Z.pos ma' + Z.pos mb') with (Z.pos (ma' + mb')).
  cbn [binary_normalize]. unfold binary_round.
  (* the sum is not below the grid of the operand with the least exponent *)
  assert (G : ez <= fexp64 (Zdigits2 (Z.pos (ma' + mb')) + ez)).
  { assert (Pa : 1 <= 2 ^ (ea - ez)) by (apply (Z.pow_le_mono_r 2 0); lia).
    assert (Pb : 1 <= 2 ^ (eb - ez)) by (apply (Z.pow_le_mono_r 2 0); lia).
    rewrite fexp64_eq in *. destruct (Z.min_spec ea eb) as [[_ E]|[_ E]]; fold ez in E.
    - assert (Zdigits2 (Z.pos ma) <= Zdigits2 (Z.pos (ma' + mb'))).
      { apply Zdigits2_mono. rewrite Pos2Z.inj_add. nia. }
      lia.
    - assert (Zdigits2 (Z.pos mb) <= Zdigits2 (Z.pos (ma' + mb'))).
      { apply Zdigits2_mono. rewrite Pos2Z.inj_add. nia. }
      lia. }
  change (SpecFloat.fexp prec emax (Z.pos (digits2_pos (ma' + mb')) + ez))
    with (fexp64 (Zdigits2 (Z.pos (ma' + mb')) + ez)).
  unfold shl_align.
  destruct (fexp64 (Zdigits2 (Z.pos (ma' + mb')) + ez) - ez) as [|p|p] eqn:E; try lia.
  - rewrite (@binary_round_aux_val (-1074)); try lia.
    f_equal. cbn [fval]. change emin64 with (-1074).
    rewrite Pos2Z.inj_add, A, B, Z.mul_add_distr_r, <- !Z.mul_assoc, <- !Z.pow_add_r by lia.
    f_equal; f_equal; f_equal; lia.
  - rewrite (@binary_round_aux_val (-1074)); try lia.
    f_equal. cbn [fval]. change emin64 with (-1074).
    rewrite Pos2Z.inj_add, A, B, Z.mul_add_distr_r, <- !Z.mul_assoc, <- !Z.pow_add_r by lia.
    f_equal; f_equal; f_equal; lia.
Qed.

Lemma fadd_fkey : forall a b, fin_nonneg a -> fin_nonneg b ->
  fkey (fadd a b) = fkey (round_val (-1074) (fval a + fval b)) /\ nonneg (fadd a b).
Proof.
  intros a b Ha Hb. pose proof Ha as [Va Ca]. pose proof Hb as [Vb Cb].
  destruct a as [sa|sa| |sa ma ea]; try contradiction;
    destruct b as [sb|sb| |sb mb eb]; try contradiction.
  - cbn [fval]. rewrite round_val_zero. split.
    + destruct sa, sb; reflexivity.
    + destruct sa, sb; split; try reflexivity; exact I.
  - destruct sb; [contradiction|]. cbn [fval Z.add].
    change (fadd (S754_zero sa) (S754_finite false mb eb)) with (S754_finite false mb eb).
    split; [apply (fkey_round_fval Hb) | apply nonneg_of_fin; exact Hb].
  - destruct sa; [contradiction|]. cbn [fval]. rewrite Z.add_0_r.
    change (fadd (S754_finite false ma ea) (S754_zero sb)) with (S754_finite false ma ea).
    split; [apply (fkey_round_fval Ha) | apply nonneg_of_fin; exact Ha].
  - destruct sa; [contradiction|]. destruct sb; [contradiction|].
    rewrite fadd_round_val by assumption. split; [reflexivity|].
    apply round_val_nonneg; [lia|].
    pose proof (fval_nonneg (S754_finite false ma ea)).
    pose proof (fval_nonneg (S754_finite false mb eb)). lia.
Qed.

Lemma fadd_inf_l : forall b, nonneg b -> fadd (S754_infinity false) b = S754_infinity false.
Proof.
  intros b [_ C]. destruct b as [s|s| |s m e]; try destruct s; try contradiction; reflexivity.
Qed.

Lemma fadd_inf_r : forall a, nonneg a -> fadd a (S754_infinity false) = S754_infinity false.
Proof.
  intros a [_ C]. destruct a as [s|s| |s m e]; try destruct s; try contradiction; reflexivity.
Qed.

Lemma fadd_nonneg : forall a b, nonneg a -> nonneg b -> nonneg (fadd a b).
Proof.
  intros a b Ha Hb.
  destruct (nonneg_cases Ha) as [Fa| ->]; [|rewrite fadd_inf_l by exact Hb; split; [reflexivity | exact I]].
  destruct (nonneg_cases Hb) as [Fb| ->]; [|rewrite fadd_inf_r by exact Ha; split; [reflexivity | exact I]].
  apply fadd_fkey; assumption.
Qed.

(** addition is monotone in each operand *)
Lemma fadd_mono_r : forall a b b', nonneg a -> nonneg b -> nonneg b' ->
  SFleb b b' = true -> SFleb (fadd a b) (fadd a b') = true.
Proof.
  intros a b b' Ha Hb Hb' H.
  destruct (nonneg_cases Ha) as [Fa| ->].
  2:{ rewrite !fadd_inf_l by assumption. reflexivity. }
  destruct (nonneg_cases Hb') as [Fb'| ->].
  2:{ rewrite fadd_inf_r by exact Ha. apply nonneg_le_inf, fadd_nonneg; assumption. }
  destruct (nonneg_cases Hb) as [Fb| ->].
  2:{ apply inf_le in H. subst b'. destruct Fb' as [_ []]. }
  rewrite (SFleb_congr _ _ _ _ (proj1 (fadd_fkey Fa Fb)) (proj1 (fadd_fkey Fa Fb'))).
  apply round_val_mono; [lia|].
  pose proof (SFleb_fval_le Fb Fb' H). pose proof (fval_nonneg a). pose proof (fval_nonneg b).
  lia.
Qed.

Lemma fadd_mono_l : forall a a' c, nonneg a -> nonneg a' -> nonneg c ->
  SFleb a a' = true -> SFleb (fadd a c) (fadd a' c) = true.
Proof.
  intros a a' c Ha Ha' Hc H.
  destruct (nonneg_cases Hc) as [Fc| ->].
  2:{ rewrite !fadd_inf_r by assumption. reflexivity. }
  destruct (nonneg_cases Ha') as [Fa'| ->].
  2:{ rewrite fadd_inf_l by exact Hc. apply nonneg_le_inf, fadd_nonneg; assumption. }
  destruct (nonneg_cases Ha) as [Fa| ->].
  2:{ apply inf_le in H. subst a'. destruct Fa' as [_ []]. }
  rewrite (SFleb_congr _ _ _ _ (proj1 (fadd_fkey Fa Fc)) (proj1 (fadd_fkey Fa' Fc))).
  apply round_val_mono; [lia|].
  pose proof (SFleb_fval_le Fa Fa' H). pose proof (fval_nonneg a). pose proof (fval_nonneg c).
  lia.
Qed.

(** ** Division and conversion from integers *)

Lemma round_nearest_even_cases : forall q l,
  round_nearest_even q l = q \/ round_nearest_even q l = q + 1.
Proof.
  intros q l. destruct l as [|[| |]]; cbn [round_nearest_even]; auto.
  destruct (Z.even q); auto.
Qed.

Lemma shr_m_shr : forall mrs e n, 0 <= shr_m mrs -> 0 <= n ->
  shr_m (fst (shr mrs e n)) = shr_m mrs / 2 ^ n /\ snd (shr mrs e n) = e + n.
Proof.
  intros mrs e n H Hn. unfold shr. destruct n as [|p|p]; [| |lia].
  - cbn [fst snd]. change (2 ^ 0) with 1. rewrite Z.div_1_r. split; [reflexivity | lia].
  - cbn [fst snd]. rewrite iter_pos_nat, shr_m_iter by exact H.
    rewrite positive_nat_Z. split; reflexivity.
Qed.

(** whatever the location, rounding a mantissa that is not below its grid
    gives a valid number that is not negative *)
Lemma binary_round_aux_nonneg : forall m e l, 0 <= m -> e <= fexp64 (Zdigits2 m + e) ->
  nonneg (binary_round_aux prec emax false m e l).
Proof.
  intros m e l Hm Hn.
  change (binary_round_aux prec emax false m e l)
    with (let '(mrs', e') := shr_fexp prec emax m e l in
          finish (round_nearest_even (shr_m mrs') (loc_of_shr_record mrs')) e').
  unfold shr_fexp.
  change (SpecFloat.fexp prec emax (Zdigits2 m + e)) with (fexp64 (Zdigits2 m + e)).
  set (g := fexp64 (Zdigits2 m + e)) in *.
  assert (Hrec : shr_m (shr_record_of_loc m l) = m) by (destruct l as [|[| |]]; reflexivity).
  pose proof (@shr_m_shr (shr_record_of_loc m l) e (g - e) ltac:(lia) ltac:(lia)) as [S1 S2].
  destruct (shr (shr_record_of_loc m l) e (g - e)) as [mrs' e']. cbn [fst snd] in S1, S2.
  rewrite Hrec in S1. replace e' with g by lia.
  set (q := round_nearest_even (shr_m mrs') (loc_of_shr_record mrs')).
  assert (HP : 0 < 2 ^ (g - e)) by (apply Z.pow_pos_nonneg; lia).
  assert (Hq0 : 0 <= m / 2 ^ (g - e)) by (apply Z.div_pos; lia).
  assert (Hq : q = m / 2 ^ (g - e) \/ q = m / 2 ^ (g - e) + 1).
  { unfold q. rewrite <- S1. apply round_nearest_even_cases. }
  assert (Hg : -1074 <= g) by (unfold g; rewrite fexp64_eq; lia).
  (* the bounds of the rounded mantissa *)
  assert (B : 0 <= q <= 2 ^ 53 /\ (-1074 < g -> 2 ^ 52 <= q)).
  { destruct (Z.eq_dec m 0) as [Em|Nm].
    - subst m. rewrite Zdiv_0_l in Hq. change (Zdigits2 0) with 0 in *.
      unfold g in *. rewrite fexp64_eq in *. split; [lia|]. intro. lia.
    - assert (Pm : 0 < m) by lia.
      pose proof (Zdigits2_bounds Pm) as [D1 D2]. pose proof (Zdigits2_pos Pm) as Dp.
      set (d := Zdigits2 m) in *.
      assert (Eg : g = Z.max (d + e - 53) (-1074)) by (unfold g; rewrite fexp64_eq; reflexivity).
      assert (U : m / 2 ^ (g - e) < 2 ^ 53).
      { apply Z.div_lt_upper_bound; [lia|]. rewrite <- Z.pow_add_r by lia.
        apply Z.lt_le_trans with (2 ^ d); [exact D2|]. apply Z.pow_le_mono_r; lia. }
      split; [lia|]. intro N.
      assert (E : g - e = d - 53) by lia.
      assert (2 ^ 52 <= m / 2 ^ (g - e)).
      { apply Z.div_le_lower_bound; [lia|]. rewrite E, <- Z.pow_add_r by lia.
        replace (d - 53 + 52) with (d - 1) by lia. exact D1. }
      lia. }
  destruct B as [Bq Bn].
  destruct (Z.eq_dec q (2 ^ 53)) as [E|E].
  - rewrite E, finish_carry by exact Hg. apply out_nonneg; lia.
  - rewrite finish_out by lia. apply out_nonneg; lia.
Qed.

Lemma div_core_bound : forall m1 e1 m2 e2,
  let '(q, e', l) := SFdiv_core_binary prec emax (Z.pos m1) e1 (Z.pos m2) e2 in
  0 <= q /\ e' <= fexp64 (Zdigits2 q + e').
Proof.
  intros m1 e1 m2 e2. unfold SFdiv_core_binary.
  set (d1 := Zdigits2 (Z.pos m1)). set (d2 := Zdigits2 (Z.pos m2)).
  change (SpecFloat.fexp prec emax (d1 + e1 - (d2 + e2))) with (fexp64 (d1 + e1 - (d2 + e2))).
  set (e' := Z.min (fexp64 (d1 + e1 - (d2 + e2))) (e1 - e2)).
  set (s := e1 - e2 - e').
  assert (Hs : 0 <= s) by (unfold s, e'; lia).
  set (m' := match s with Z.pos _ => Z.shiftl (Z.pos m1) s | 0 => Z.pos m1 | Z.neg _ => 0 end).
  assert (Em : m' = Z.pos m1 * 2 ^ s).
  { unfold m'. destruct s as [|p|p]; [change (2 ^ 0) with 1; lia | | lia].
    apply Z.shiftl_mul_pow2. lia. }
  pose proof (Z_div_mod m' (Z.pos m2) ltac:(lia)) as DM.
  unfold Z.div in *. destruct (Z.div_eucl m' (Z.pos m2)) as [q r]. destruct DM as [DM Br].
  assert (P1 : 0 < Z.pos m1) by lia. assert (P2 : 0 < Z.pos m2) by lia.
  pose proof (Zdigits2_bounds P1) as [A1 A2]. pose proof (Zdigits2_bounds P2) as [B1 B2].
  pose proof (Zdigits2_pos P1) as Dp1. pose proof (Zdigits2_pos P2) as Dp2.
  fold d1 in A1, A2, Dp1. fold d2 in B1, B2, Dp2.
  assert (PS : 0 < 2 ^ s) by (apply Z.pow_pos_nonneg; lia).
  assert (Hq : 0 <= q) by nia.
  split; [exact Hq|].
  assert (Dq : d1 + s - d2 <= Zdigits2 q).
  { destruct (Z_le_gt_dec (d1 + s - d2) 0) as [L|G].
    - pose proof (Zdigits2_nonneg Hq). lia.
    - apply Zdigits2_ge; [lia|].
      (* [m' >= 2^(d1-1+s)] and [m2 < 2^d2] *)
      assert (E1 : 2 ^ (d1 - 1 + s) = 2 ^ (d1 + s - d2 - 1) * 2 ^ d2).
      { rewrite <- Z.pow_add_r by lia. f_equal. lia. }
      assert (L1 : 2 ^ (d1 - 1 + s) <= m').
      { rewrite Em, Z.pow_add_r by lia. nia. }
      assert (PK : 0 < 2 ^ (d1 + s - d2 - 1)) by (apply Z.pow_pos_nonneg; lia).
      destruct (Z_le_gt_dec (2 ^ (d1 + s - d2 - 1)) q) as [Lq|Gq]; [exact Lq|exfalso].
      assert (q + 1 <= 2 ^ (d1 + s - d2 - 1)) by lia.
      assert (m' < 2 ^ (d1 + s - d2 - 1) * 2 ^ d2) by nia.
      lia. }
  unfold e' at 1. rewrite !fexp64_eq in *.
  assert (d1 + e1 - (d2 + e2) <= Zdigits2 q + e') by (unfold s in Dq; lia).
  lia.
Qed.

Lemma fdiv_nonneg : forall x m e, nonneg x ->
  nonneg (fdiv x (S754_finite false m e)).
Proof.
  intros x m e [V C]. destruct x as [s|s| |s mx ex]; try destruct s; try contradiction;
    try (split; [reflexivity | exact I]).
  unfold fdiv, SFdiv.
  pose proof (div_core_bound mx ex m e) as H.
  destruct (SFdiv_core_binary prec emax (Z.pos mx) ex (Z.pos m) e) as [[q e'] l].
  destruct H as [Hq He]. cbn [xorb]. apply binary_round_aux_nonneg; assumption.
Qed.

(** [float(n)] is the rounding of [n] *)
Lemma float_of_int_val : forall n, 0 <= n ->
  float_of_int n = round_val (-1074) (n * 2 ^ 1074).
Proof.
  intros n Hn. destruct n as [|p|p]; [| |lia].
  - rewrite Z.mul_0_l, round_val_zero. reflexivity.
  - unfold float_of_int. cbn [binary_normalize]. unfold binary_round.
    change (SpecFloat.fexp prec emax (Z.pos (digits2_pos p) + 0))
      with (fexp64 (Zdigits2 (Z.pos p) + 0)).
    set (g := fexp64 (Zdigits2 (Z.pos p) + 0)).
    assert (Eg : g = Z.max (Zdigits2 (Z.pos p) - 53) (-1074))
      by (unfold g; rewrite fexp64_eq; f_equal; lia).
    pose proof (@Zdigits2_pos (Z.pos p) ltac:(lia)) as Dp.
    unfold shl_align. destruct (g - 0) as [|d|d] eqn:E.
    + rewrite (@binary_round_aux_val (-1074)); try lia. reflexivity.
    + rewrite (@binary_round_aux_val (-1074)); try lia. reflexivity.
    + assert (X : Z.pos (Pos.iter xO p d) = Z.pos p * 2 ^ Z.pos d) by apply pos_iter_xO.
      rewrite (@binary_round_aux_val (-1074)); try lia.
      * rewrite X, <- Z.mul_assoc, <- Z.pow_add_r by lia.
        f_equal. f_equal. f_equal. lia.
      * rewrite X, Zdigits2_shift by lia.
        rewrite fexp64_eq. lia.
Qed.

Lemma float_of_int_nonneg : forall n, 0 <= n -> nonneg (float_of_int n).
Proof.
  intros n Hn. rewrite float_of_int_val by exact Hn.
  apply round_val_nonneg; [lia | apply Z.mul_nonneg_nonneg; lia].
Qed.

Lemma float_of_int_mono : forall n n', 0 <= n <= n' ->
  SFleb (float_of_int n) (float_of_int n') = true.
Proof.
  intros n n' H. rewrite !float_of_int_val by lia.
  apply round_val_mono; [lia|]. split; [|apply Z.mul_le_mono_nonneg_r]; lia.
Qed.

End Rounding.

(** ** The status *)

(** C1: when the scan of a row finds a best match, the status of the result
    is a function of the winning composite score alone: 'Да' from 0.9 on
    (0.9 included), 'Проверить' from PARTIAL_MATCH_THRESHOLD up to 0.9, 'Нет'
    below PARTIAL_MATCH_THRESHOLD. *)
Theorem status_is_a_function_of_the_score : forall U cache ad bm best_score,
  scan_settlements U (street ad) (house ad)
    (_find_matching_settlements U cache (settlement ad)) (None, f0_0)
    = Ok (Some bm, best_score) ->
  let r := match_address U cache ad in
  let composite := bm_total_score bm in
  r_status r = classify composite
  /\ (fge composite f0_9 = true -> r_status r = status_yes)
  /\ (fge composite PARTIAL_MATCH_THRESHOLD = true -> SFltb composite f0_9 = true ->
      r_status r = status_check)
  /\ (SFltb composite PARTIAL_MATCH_THRESHOLD = true -> r_status r = status_no)
  /\ classify f0_9 = status_yes.
Proof.
  intros U cache ad bm best_score H r composite.
  assert (R : r = _determine_status bm ad).
  { unfold r, match_address, match_address_try.
    destruct (_find_matching_settlements U cache (settlement ad)) as [|c cs] eqn:F.
    - cbn in H. discriminate.
    - rewrite H. reflexivity. }
  assert (S1 : r_status r =
               if fge composite f0_9 then status_yes
               else if fge composite PARTIAL_MATCH_THRESHOLD then status_check
               else status_no) by (rewrite R; reflexivity).
  repeat split.
  - rewrite S1. unfold classify, fge, SFleb, composite.
    rewrite (SFcompare_fkey f0_9), (SFcompare_fkey PARTIAL_MATCH_THRESHOLD).
    rewrite !SFcompare_fkey.
    destruct (fkey (bm_total_score bm)) as [a|]; [|reflexivity].
    cbn [fkey f0_9 PARTIAL_MATCH_THRESHOLD f0_4].
    set (k9 := (1, -53, 8106479329266893)%Z). set (k4 := (1, -54, 7205759403792794)%Z).
    destruct (lt3_total a k9) as [L|[L|L]].
    + rewrite (proj2 (lex3_lt a k9) L), (proj2 (lex3_gt k9 a) L).
      destruct (lt3_total a k4) as [L4|[L4|L4]].
      * rewrite (proj2 (lex3_lt a k4) L4), (proj2 (lex3_gt k4 a) L4). reflexivity.
      * subst a. reflexivity.
      * rewrite (proj2 (lex3_gt a k4) L4), (proj2 (lex3_lt k4 a) L4). reflexivity.
    + subst a. reflexivity.
    + rewrite (proj2 (lex3_gt a k9) L), (proj2 (lex3_lt k9 a) L). reflexivity.
  - intro G. rewrite S1, G. reflexivity.
  - intros G L. rewrite S1, G. unfold fge. rewrite (SFltb_not_leb _ _ L). reflexivity.
  - intro L. rewrite S1. unfold fge.
    rewrite (SFltb_not_leb _ _ L).
    assert (L9 : SFltb composite f0_9 = true).
    { apply SFltb_fkey in L. destruct L as [a [b [Ea [Eb L]]]].
      apply SFltb_fkey. exists a, (1, -53, 8106479329266893)%Z. repeat split; try assumption.
      cbn in Eb. injection Eb as <-. apply (lt3_trans _ _ _ L). unfold lt3. lia. }
    rewrite (SFltb_not_leb _ _ L9). reflexivity.
Qed.

Lemma status_is_a_function_of_the_score_witness :
  scan_settlements blocks_only (street example_row) (house example_row)
    (_find_matching_settlements blocks_only example_cache (settlement example_row)) (None, f0_0)
    = Ok (Some example_best_match, bm_total_score example_best_match)
  /\ r_status (match_address blocks_only example_cache example_row)
     = classify (bm_total_score example_best_match).
Proof.
  assert (H : scan_settlements blocks_only (street example_row) (house example_row)
    (_find_matching_settlements blocks_only example_cache (settlement example_row)) (None, f0_0)
    = Ok (Some example_best_match, bm_total_score example_best_match))
    by (vm_compute; reflexivity).
  exact (conj H (proj1 (status_is_a_function_of_the_score blocks_only example_cache
                          example_row H))).
Defined.
(** ** The fail-safe *)

Lemma scan_offices_raises : forall U street house s opre o opost st e,
  (forall o', In o' opre -> exists m, _match_street_and_house U street house o' s = Ok m) ->
  _match_street_and_house U street house o s = Raise e ->
  scan_offices U street house s (opre ++ o :: opost) st = Raise e.
Proof.
  intros U street house s opre o opost. induction opre as [|o0 opre IH]; intros st e P H.
  - cbn [app scan_offices]. rewrite H. reflexivity.
  - cbn [app scan_offices]. destruct (P o0 (or_introl eq_refl)) as [m E]. rewrite E.
    cbn [bind]. apply IH; [|exact H]. intros o' I. apply P. right. exact I.
Qed.

Lemma scan_offices_returns : forall U street house s offices st,
  (forall o, In o offices -> exists m, _match_street_and_house U street house o s = Ok m) ->
  exists st', scan_offices U street house s offices st = Ok st'.
Proof.
  intros U street house s offices. induction offices as [|o offices IH]; intros st P.
  - eexists. reflexivity.
  - cbn [scan_offices]. destruct (P o (or_introl eq_refl)) as [m E]. rewrite E. cbn [bind].
    apply IH. intros o' I. apply P. right. exact I.
Qed.

(** the first comparison that raises ends the scan with its exception *)
Lemma scan_settlements_raises : forall U street house pre c post opre o opost st e,
  (forall c' o', In c' pre -> In o' (c_offices c') ->
     exists m, _match_street_and_house U street house o' (c_score c') = Ok m) ->
  c_offices c = opre ++ o :: opost ->
  (forall o', In o' opre ->
     exists m, _match_street_and_house U street house o' (c_score c) = Ok m) ->
  _match_street_and_house U street house o (c_score c) = Raise e ->
  scan_settlements U street house (pre ++ c :: post) st = Raise e.
Proof.
  intros U street house pre c post opre o opost. induction pre as [|c0 pre IH];
    intros st e P Ec Po H.
  - cbn [app scan_settlements]. rewrite Ec, (@scan_offices_raises U street house (c_score c) opre o opost st e Po H).
    reflexivity.
  - cbn [app scan_settlements].
    destruct (@scan_offices_returns U street house (c_score c0) (c_offices c0) st
                (fun o' I => P c0 o' (or_introl eq_refl) I)) as [st1 E].
    rewrite E. cbn [bind]. apply IH; try assumption.
    intros c' o' I. apply P. right. exact I.
Qed.

Lemma int_has_no_strip : forall n,
  no_attribute (PInt n) (u "strip") = AttributeError (u "'int' object has no attribute 'strip'").
Proof. intro n. reflexivity. Qed.

(** C5: an exception raised while a row is resolved is caught: the result
    is 'Проверить' for that row, and its details end with the message of the
    exception; without an exception the result is the one the resolution
    returned.  The exception of the first comparison of an office that
    raises, the comparisons before it having returned, is the one that is
    caught.  Its message is the text of an [AttributeError] and the quoted
    key of a [KeyError]: a house number that is a number and not a string
    gives "'int' object has no attribute 'strip'", an office record without
    a settlement gives "'settlement'".  [match_address] is a total
    function, one result per row. *)
Theorem match_address_catches : forall U cache ad,
  (forall e, match_address_try U cache ad = Raise e ->
     match_address U cache ad
       = {| r_row_num := row_num ad; r_status := status_check;
            r_details := u "Ошибка при проверке: " ++ exn_str e |}
     /\ contains (exn_str e) (r_details (match_address U cache ad)) = true)
  /\ (forall r, match_address_try U cache ad = Ok r -> match_address U cache ad = r)
  /\ (forall pre c post opre o opost e,
        _find_matching_settlements U cache (settlement ad) = pre ++ c :: post ->
        (forall c' o', In c' pre -> In o' (c_offices c') ->
           exists m, _match_street_and_house U (street ad) (house ad) o' (c_score c') = Ok m) ->
        c_offices c = opre ++ o :: opost ->
        (forall o', In o' opre ->
           exists m, _match_street_and_house U (street ad) (house ad) o' (c_score c) = Ok m) ->
        _match_street_and_house U (street ad) (house ad) o (c_score c) = Raise e ->
        match_address_try U cache ad = Raise e
        /\ match_address U cache ad
           = {| r_row_num := row_num ad; r_status := status_check;
                r_details := u "Ошибка при проверке: " ++ exn_str e |})
  /\ (forall msg, exn_str (AttributeError msg) = msg)
  /\ (forall key, exn_str (KeyError key) = u "'" ++ key ++ u "'")
  /\ (forall street n o s, n <> 0%Z ->
        truthy (dict_get o (u "house") (PStr [])) = true ->
        _match_street_and_house U street (PInt n) o s
        = Raise (AttributeError (u "'int' object has no attribute 'strip'")))
  /\ (forall street house o s x,
        _calculate_house_similarity U house (dict_get o (u "house") (PStr [])) = Ok x ->
        dict_lookup o (u "settlement") = None ->
        _match_street_and_house U street house o s = Raise (KeyError (u "settlement")))
  /\ match_address U [(u "алматы", [example_office])] example_row_int
     = {| r_row_num := 10; r_status := u "Проверить";
          r_details := u "Ошибка при проверке: 'int' object has no attribute 'strip'" |}
  /\ match_address U [(u "алматы", [[(u "street", PStr (u "ул. Абая"))]])] example_row
     = {| r_row_num := 9; r_status := u "Проверить";
          r_details := u "Ошибка при проверке: 'settlement'" |}.
Proof.
  intros U cache ad.
  assert (C1 : forall e, match_address_try U cache ad = Raise e ->
             match_address U cache ad
             = {| r_row_num := row_num ad; r_status := status_check;
                  r_details := u "Ошибка при проверке: " ++ exn_str e |}).
  { intros e H. unfold match_address. rewrite H. reflexivity. }
  split; [|split; [|split; [|split; [|split; [|split; [|split; [|split]]]]]]].
  - intros e H. split; [exact (C1 e H)|]. rewrite (C1 e H).
    cbn [r_details]. apply contains_app_r.
  - intros r H. unfold match_address. rewrite H. reflexivity.
  - intros pre c post opre o opost e Ecands P Ec Po H.
    assert (T : match_address_try U cache ad = Raise e).
    { unfold match_address_try. rewrite Ecands.
      rewrite (@scan_settlements_raises U (street ad) (house ad) pre c post opre o opost
               (None, f0_0) e P Ec Po H).
      destruct pre; reflexivity. }
    split; [exact T | exact (C1 e T)].
  - intro msg. reflexivity.
  - intro key. reflexivity.
  - intros street n o s Hn Ht. unfold _match_street_and_house, _calculate_house_similarity.
    rewrite Ht. cbn [truthy]. destruct (n =? 0)%Z eqn:E; [apply Z.eqb_eq in E; contradiction|].
    cbn [negb orb method_strip bind]. rewrite int_has_no_strip. reflexivity.
  - intros street house o s x X N. unfold _match_street_and_house. rewrite X. cbn [bind].
    unfold dict_getitem. rewrite N. reflexivity.
  - vm_compute. reflexivity.
  - vm_compute. reflexivity.
Qed.

Lemma match_address_catches_witness :
  match_address_try blocks_only example_cache example_row_int = Raise example_exn
  /\ match_address blocks_only example_cache example_row_int
       = {| r_row_num := row_num example_row_int; r_status := status_check;
            r_details := u "Ошибка при проверке: " ++ exn_str example_exn |}
  /\ contains (exn_str example_exn)
       (r_details (match_address blocks_only example_cache example_row_int)) = true.
Proof.
  assert (H : match_address_try blocks_only example_cache example_row_int = Raise example_exn)
    by (vm_compute; reflexivity).
  exact (conj H (proj1 (match_address_catches blocks_only example_cache example_row_int) _ H)).
Defined.

(** ** House numbers *)

Lemma star_digits_accepts : forall U pos s caps,
  star_spec (isdecimal U) (fun pos' _ caps' => Some (pos', caps')) pos s caps
  = Some (pos + List.length (take_digits U s), caps).
Proof.
  intros U pos s caps. revert pos. induction s as [|c s IH]; intro pos.
  - cbn. rewrite Nat.add_0_r. reflexivity.
  - cbn [star_spec take_digits]. destruct (isdecimal U c).
    + rewrite IH. cbn [List.length]. f_equal. f_equal. lia.
    + cbn. rewrite Nat.add_0_r. reflexivity.
Qed.

Lemma firstn_take_digits : forall U s, firstn (List.length (take_digits U s)) s = take_digits U s.
Proof.
  intros U. induction s as [|c s IH]; [reflexivity|].
  cbn [take_digits]. destruct (isdecimal U c); [|reflexivity].
  cbn [List.length firstn]. rewrite IH. reflexivity.
Qed.

Lemma match_at_digits : forall U pos s,
  match_at (digits_re U) pos s =
  match s with
  | c :: t => if isdecimal U c then Some (S pos + List.length (take_digits U t), []) else None
  | [] => None
  end.
Proof.
  intros U pos s. unfold match_at, digits_re, Plus. rewrite rmatch_seq.
  destruct s as [|c t]; [reflexivity|].
  cbn [rmatch]. destruct (isdecimal U c); [|reflexivity].
  change ((fix loop (n pos0 : nat) (s : pstr) (caps : captures) {struct n} := _)
            (List.length t) (S pos) t [])
    with (rmatch (Star (Chr (isdecimal U))) (S pos) t []
            (fun pos' (_ : pstr) caps' => Some (pos', caps'))).
  rewrite rmatch_star_chr. apply star_digits_accepts.
Qed.

(** [re.search] with [\d+] finds the first run of digits *)
Lemma search_digits : forall U s pos,
  search_from (digits_re U) pos s
  = option_map (fun '(o, n) => (pos + o, pos + o + n, [])) (digit_span U s).
Proof.
  intros U. induction s as [|c t IH]; intro pos.
  - reflexivity.
  - cbn [search_from digit_span]. rewrite match_at_digits.
    destruct (isdecimal U c).
    + cbn [option_map]. rewrite Nat.add_0_r.
      replace (pos + S (List.length (take_digits U t)))
        with (S pos + List.length (take_digits U t)) by lia.
      reflexivity.
    + rewrite IH. destruct (digit_span U t) as [[o n]|]; [|reflexivity].
      cbn [option_map]. replace (S pos + o) with (pos + S o) by lia. reflexivity.
Qed.

Lemma digit_span_run : forall U s,
  option_map (fun '(o, n) => firstn n (skipn o s)) (digit_span U s) = first_digit_run U s.
Proof.
  intros U. induction s as [|c t IH]; [reflexivity|].
  cbn [digit_span first_digit_run]. destruct (isdecimal U c) eqn:D.
  - cbn [option_map skipn firstn take_digits]. rewrite D, firstn_take_digits. reflexivity.
  - rewrite <- IH. destruct (digit_span U t) as [[o n]|]; reflexivity.
Qed.

Lemma extract_house_number_spec : forall U s,
  _extract_house_number U (PStr s) = first_digit_run U s.
Proof.
  intros U s. unfold _extract_house_number. destruct s as [|c t]; [reflexivity|].
  cbn [truthy negb py_str]. unfold re_search. rewrite search_digits.
  rewrite <- digit_span_run.
  destruct (digit_span U (c :: t)) as [[o n]|]; [|reflexivity].
  cbn [option_map]. rewrite Nat.add_0_l. f_equal. f_equal. lia.
Qed.

Lemma first_digit_run_nonempty : forall U s n, first_digit_run U s = Some n -> n <> [].
Proof.
  intros U. induction s as [|c t IH]; intros n H; [discriminate|].
  cbn [first_digit_run] in H. destruct (isdecimal U c) eqn:D.
  - injection H as <-. cbn [take_digits]. rewrite D. discriminate.
  - exact (IH _ H).
Qed.

(** C3: on two house strings [_calculate_house_similarity] applies the tiers
    of section 4.2 in their order: 0.0 when one is empty; else 1.0 when they
    are equal after trimming and lower-casing; else 0.9 when both have a first
    run of decimal digits and the two runs are equal; else the similarity of
    the raw strings.  "12" against "12A" gives 0.9. *)
Theorem house_similarity_tiers : forall U h1 h2,
  _calculate_house_similarity U (PStr h1) (PStr h2) = Ok (house_similarity_spec U h1 h2)
  /\ _calculate_house_similarity U (PStr (u "12")) (PStr (u "12A")) = Ok f0_9.
Proof.
  intros U h1 h2. split; [|reflexivity].
  unfold _calculate_house_similarity, house_similarity_spec.
  destruct h1 as [|c1 t1]; [reflexivity|].
  destruct h2 as [|c2 t2]; [reflexivity|].
  cbn [truthy negb orb method_strip bind py_str].
  rewrite !extract_house_number_spec.
  destruct (pstr_eqb (lower U (strip (c1 :: t1))) (lower U (strip (c2 :: t2)))); [reflexivity|].
  destruct (first_digit_run U (c1 :: t1)) as [n1|] eqn:E1;
    destruct (first_digit_run U (c2 :: t2)) as [n2|] eqn:E2; try reflexivity.
  - pose proof (first_digit_run_nonempty _ _ E1). pose proof (first_digit_run_nonempty _ _ E2).
    destruct n1; [contradiction|]. destruct n2; [contradiction|].
    cbn [same_number]. destruct (pstr_eqb _ _); reflexivity.
  - destruct n1; reflexivity.
Qed.

(** ** The similarity of two strings *)

(** C4, as the code has it: a non-empty string is fully similar to itself,
    the empty string is similar to nothing, itself included, and the order of
    the arguments does not matter when one is empty or both are equal; it
    does matter in general: "tide" against "diet" is 0.25, "diet" against
    "tide" is 0.5. *)
Theorem similarity_reflexive_not_symmetric :
  (forall s, s <> [] -> _calculate_similarity s s = f1_0)
  /\ (forall s, _calculate_similarity s [] = f0_0 /\ _calculate_similarity [] s = f0_0)
  /\ (forall a b, a = [] \/ b = [] \/ a = b ->
        _calculate_similarity a b = _calculate_similarity b a)
  /\ _calculate_similarity (u "tide") (u "diet") = S754_finite false 4503599627370496 (-54)
  /\ _calculate_similarity (u "diet") (u "tide") = S754_finite false 4503599627370496 (-53).
Proof.
  repeat split.
  - intros s Hs. destruct s as [|c t]; [contradiction|].
    unfold _calculate_similarity. rewrite pstr_eqb_refl. reflexivity.
  - destruct s; reflexivity.
  - intros a b [H|[H|H]]; subst.
    + destruct b; reflexivity.
    + destruct a; reflexivity.
    + reflexivity.
Qed.

Lemma similarity_reflexive_not_symmetric_witness :
  _calculate_similarity (u "12") (u "12") = f1_0
  /\ _calculate_similarity (u "12") [] = _calculate_similarity [] (u "12").
Proof.
  split.
  - apply (proj1 similarity_reflexive_not_symmetric). discriminate.
  - apply (proj1 (proj2 (proj2 similarity_reflexive_not_symmetric))). right. left. reflexivity.
Defined.

(** the claim of C4 fails on the empty string and on "tide" and "diet" *)
Lemma similarity_counterexample :
  _calculate_similarity [] [] <> f1_0
  /\ _calculate_similarity (u "tide") (u "diet") <> _calculate_similarity (u "diet") (u "tide").
Proof.
  split; vm_compute; discriminate.
Qed.

(** ** The reference index *)

Lemma cache_lookup_extend : forall cache k offs key,
  cache_lookup (cache_extend cache k offs) key =
  if pstr_eqb k key
  then Some (match cache_lookup cache key with Some os => os ++ offs | None => offs end)
  else cache_lookup cache key.
Proof.
  induction cache as [|[k' os] cache IH]; intros k offs key.
  - cbn. destruct (pstr_eqb k key); reflexivity.
  - cbn [cache_extend cache_lookup]. destruct (pstr_eqb k' k) eqn:E.
    + apply pstr_eqb_eq in E. subst k'. cbn [cache_lookup].
      destruct (pstr_eqb k key); reflexivity.
    + cbn [cache_lookup]. destruct (pstr_eqb k' key) eqn:E'.
      * apply pstr_eqb_eq in E'. subst k'.
        rewrite pstr_eqb_sym, E. reflexivity.
      * apply IH.
Qed.

Lemma cache_extend_in_keys : forall cache k offs x,
  In x (map fst (cache_extend cache k offs)) -> x = k \/ In x (map fst cache).
Proof.
  induction cache as [|[k' os] cache IH]; intros k offs x Hx.
  - cbn in Hx. destruct Hx as [<-|[]]. left. reflexivity.
  - cbn [cache_extend] in Hx. destruct (pstr_eqb k' k).
    + right. exact Hx.
    + cbn in Hx. destruct Hx as [<-|Hx]; [right; left; reflexivity|].
      destruct (IH _ _ _ Hx); [left | right; right]; assumption.
Qed.

(** the keys of the index stay distinct *)
Lemma cache_extend_keys : forall cache k offs,
  NoDup (map fst cache) -> NoDup (map fst (cache_extend cache k offs)).
Proof.
  induction cache as [|[k' os] cache IH]; intros k offs H.
  - cbn. constructor; [intros [] | constructor].
  - cbn [cache_extend]. destruct (pstr_eqb k' k) eqn:E; [exact H|].
    cbn [map fst] in *. inversion H as [|? ? Hn Hd]; subst.
    constructor; [|apply IH; exact Hd].
    intro Hin. destruct (cache_extend_in_keys _ _ _ _ Hin) as [->|Hin']; [|contradiction].
    rewrite pstr_eqb_refl in E. discriminate.
Qed.

Lemma prepare_fold_keys : forall U data acc,
  NoDup (map fst acc) ->
  NoDup (map fst (fold_left (fun cache '(settlement, offices) =>
                               cache_extend cache (_normalize_text U (PStr settlement)) offices)
                            data acc)).
Proof.
  intros U. induction data as [|[k offs] data IH]; intros acc H; [exact H|].
  cbn [fold_left]. apply IH. apply cache_extend_keys. exact H.
Qed.

Lemma prepare_fold_lookup : forall U key data acc,
  cache_lookup (fold_left (fun cache '(settlement, offices) =>
                             cache_extend cache (_normalize_text U (PStr settlement)) offices)
                          data acc) key =
  match spelled_as U key data, cache_lookup acc key with
  | [], r => r
  | es, Some os => Some (os ++ flat_map snd es)
  | es, None => Some (flat_map snd es)
  end.
Proof.
  intros U key. induction data as [|[k offs] data IH]; intro acc.
  - cbn. destruct (cache_lookup acc key); reflexivity.
  - cbn [fold_left]. rewrite IH, cache_lookup_extend.
    unfold spelled_as. cbn [filter fst].
    destruct (pstr_eqb (_normalize_text U (PStr k)) key).
    + cbn [flat_map snd].
      destruct (filter _ data) as [|e es]; destruct (cache_lookup acc key);
        cbn [flat_map]; rewrite ?app_nil_r, ?app_assoc; reflexivity.
    + reflexivity.
Qed.

(** ** The sort of the candidates *)

Lemma insert_desc_perm : forall x l, Permutation (insert_desc x l) (x :: l).
Proof.
  intros x. induction l as [|y l IH]; [apply Permutation_refl|].
  cbn [insert_desc]. destruct (SFltb (c_score y) (c_score x)); [apply Permutation_refl|].
  apply Permutation_trans with (y :: x :: l); [constructor; exact IH | constructor].
Qed.

Lemma sort_desc_snoc : forall l x, sort_desc (l ++ [x]) = insert_desc x (sort_desc l).
Proof.
  intros l x. unfold sort_desc. rewrite fold_left_app. reflexivity.
Qed.

Lemma sort_desc_perm : forall l, Permutation (sort_desc l) l.
Proof.
  intro l. induction l as [|x l IH] using rev_ind; [apply Permutation_refl|].
  rewrite sort_desc_snoc.
  apply Permutation_trans with (x :: sort_desc l); [apply insert_desc_perm|].
  apply Permutation_trans with (x :: l); [constructor; exact IH|].
  apply Permutation_cons_append.
Qed.

Lemma insert_desc_sorted : forall x l,
  not_nan x -> Forall not_nan l ->
  StronglySorted score_ge l -> StronglySorted score_ge (insert_desc x l).
Proof.
  intros x l Hx. induction l as [|y l IH]; intros Hl Hs.
  - cbn. constructor; constructor.
  - inversion Hl as [|? ? Hy Hl']; subst. inversion Hs as [|? ? Hs' Hall]; subst.
    cbn [insert_desc]. destruct (SFltb (c_score y) (c_score x)) eqn:L.
    + (* [x] is above [y], which is not below the rest *)
      assert (Gxy : score_ge x y).
      { unfold score_ge, fge. apply SFltb_fkey in L. destruct L as [a [b [Ea [Eb L]]]].
        apply SFleb_fkey. exists a, b. auto. }
      constructor; [exact Hs|]. constructor; [exact Gxy|].
      rewrite Forall_forall in *. intros z Hz. unfold score_ge, fge in *.
      apply SFleb_trans with (c_score y); auto.
    + constructor; [apply IH; assumption|].
      assert (Gyx : score_ge y x) by (apply SFltb_false_leb; assumption).
      rewrite Forall_forall in *. intros z Hz.
      apply (Permutation_in _ (insert_desc_perm x l)) in Hz.
      destruct Hz as [<-|Hz]; auto.
Qed.

Lemma insert_desc_not_nan : forall x l,
  not_nan x -> Forall not_nan l -> Forall not_nan (insert_desc x l).
Proof.
  intros x l Hx Hl. rewrite Forall_forall in *. intros z Hz.
  apply (Permutation_in _ (insert_desc_perm x l)) in Hz. destruct Hz as [<-|Hz]; auto.
Qed.

Lemma sort_desc_sorted : forall l,
  Forall not_nan l -> StronglySorted score_ge (sort_desc l) /\ Forall not_nan (sort_desc l).
Proof.
  intro l. induction l as [|x l IH] using rev_ind; intro H.
  - split; constructor.
  - apply Forall_app in H. destruct H as [Hl Hx]. inversion Hx; subst.
    destruct (IH Hl) as [Hs Hn]. rewrite sort_desc_snoc. split.
    + apply insert_desc_sorted; assumption.
    + apply insert_desc_not_nan; assumption.
Qed.

(** inserting [x] puts it behind the candidates it is tied with *)
Lemma insert_desc_tied : forall v x l,
  StronglySorted score_ge l ->
  tied_with v (insert_desc x l) = tied_with v l ++ tied_with v [x].
Proof.
  intros v x. induction l as [|y l IH]; intro Hs; [reflexivity|].
  inversion Hs as [|? ? Hs' Hall]; subst.
  cbn [insert_desc]. destruct (SFltb (c_score y) (c_score x)) eqn:L.
  - change (tied_with v (x :: y :: l))
      with (if feq (c_score x) v then x :: tied_with v (y :: l) else tied_with v (y :: l)).
    change (tied_with v [x]) with (if feq (c_score x) v then [x] else []).
    destruct (feq (c_score x) v) eqn:T; [|rewrite app_nil_r; reflexivity].
    (* nothing at or below [y] is tied with [x] *)
    assert (N : forall z, score_ge y z -> feq (c_score z) v = false).
    { intros z Gz. destruct (feq (c_score z) v) eqn:Tz; [|reflexivity]. exfalso.
      apply SFeqb_fkey in T, Tz. destruct T as [a [Ea Ev]]. destruct Tz as [a' [Ea' Ev']].
      rewrite Ev in Ev'. injection Ev' as <-.
      apply SFltb_fkey in L. destruct L as [b [a2 [Eb [Ea2 L]]]].
      rewrite Ea in Ea2. injection Ea2 as <-.
      unfold score_ge, fge in Gz. apply SFleb_fkey in Gz.
      destruct Gz as [a3 [b3 [Ea3 [Eb3 G]]]].
      rewrite Ea' in Ea3. injection Ea3 as <-. rewrite Eb in Eb3. injection Eb3 as <-.
      destruct G as [G|G].
      - exact (lt3_irrefl _ (lt3_trans _ _ _ G L)).
      - subst. exact (lt3_irrefl _ L). }
    assert (E : tied_with v (y :: l) = []).
    { unfold tied_with. cbn [filter].
      rewrite (N y) by (unfold score_ge, fge; apply SFleb_fkey;
                        apply SFltb_fkey in L; destruct L as [b [a2 [Eb _]]];
                        exists b, b; auto).
      rewrite Forall_forall in Hall.
      clear - Hall N. induction l as [|z l IH]; [reflexivity|].
      cbn [filter]. rewrite (N z) by (apply Hall; left; reflexivity).
      apply IH. intros w Hw. apply Hall. right. exact Hw. }
    rewrite E. reflexivity.
  - unfold tied_with in *. cbn [filter]. rewrite (IH Hs').
    destruct (feq (c_score y) v); reflexivity.
Qed.

Lemma sort_desc_tied : forall v l,
  Forall not_nan l -> tied_with v (sort_desc l) = tied_with v l.
Proof.
  intros v l. induction l as [|x l IH] using rev_ind; intro H; [reflexivity|].
  apply Forall_app in H. destruct H as [Hl Hx].
  rewrite sort_desc_snoc, insert_desc_tied by (apply sort_desc_sorted; exact Hl).
  rewrite (IH Hl). unfold tied_with. rewrite filter_app. reflexivity.
Qed.

Lemma settlement_matches_in_order : forall nq cache,
  settlement_matches nq cache = candidates_in_order nq cache.
Proof.
  intros nq. induction cache as [|[k os] cache IH]; [reflexivity|].
  cbn [settlement_matches]. unfold candidates_in_order in *. cbn [filter fst snd].
  destruct (fge (_calculate_similarity nq k) SETTLEMENT_MATCH_THRESHOLD).
  - cbn [map fst snd]. rewrite IH. reflexivity.
  - exact IH.
Qed.

Lemma candidates_not_nan : forall nq cache, Forall not_nan (candidates_in_order nq cache).
Proof.
  intros nq cache. unfold candidates_in_order. rewrite Forall_forall. intros c Hc.
  apply in_map_iff in Hc. destruct Hc as [e [<- He]].
  apply filter_In in He. destruct He as [_ He].
  unfold not_nan. cbn [c_score]. unfold fge in He.
  exact (proj2 (SFleb_not_nan _ _ He)).
Qed.

(** C6: the index has one bucket per normalized settlement name, holding the
    offices of all the spellings that normalize to it, in their order; the
    lookup returns the buckets whose similarity to the normalized query is at
    least SETTLEMENT_MATCH_THRESHOLD, each once, by descending score, the
    buckets of equal score in the iteration order of the index. *)
Theorem index_groups_and_lookup_sorts : forall U data query,
  let cache := _prepare_search_cache U data in
  let found := _find_matching_settlements U cache query in
  let candidates := candidates_in_order (_normalize_text U query) cache in
  NoDup (map fst cache)
  /\ (forall key, cache_lookup cache key =
        match spelled_as U key data with
        | [] => None
        | es => Some (flat_map snd es)
        end)
  /\ Permutation found candidates
  /\ (forall c, In c found <->
        exists key offices, In (key, offices) cache
          /\ fge (_calculate_similarity (_normalize_text U query) key)
                 SETTLEMENT_MATCH_THRESHOLD = true
          /\ c = {| c_name := key; c_offices := offices;
                    c_score := _calculate_similarity (_normalize_text U query) key |})
  /\ StronglySorted score_ge found
  /\ (forall v, tied_with v found = tied_with v candidates).
Proof.
  intros U data query cache found candidates.
  assert (P : Permutation found candidates).
  { unfold found, _find_matching_settlements. rewrite settlement_matches_in_order.
    apply sort_desc_perm. }
  split; [|split; [|split; [|split; [|split]]]].
  - unfold cache, _prepare_search_cache. apply prepare_fold_keys. constructor.
  - intro key. unfold cache, _prepare_search_cache. rewrite prepare_fold_lookup.
    destruct (spelled_as U key data); reflexivity.
  - exact P.
  - intro c. split.
    + intro Hc. apply (Permutation_in _ P) in Hc. unfold candidates, candidates_in_order in Hc.
      apply in_map_iff in Hc. destruct Hc as [[k os] [<- He]].
      apply filter_In in He. destruct He as [Hin Hs].
      exists k, os. auto.
    + intros [k [os [Hin [Hs ->]]]]. apply (Permutation_in _ (Permutation_sym P)).
      unfold candidates, candidates_in_order. apply in_map_iff.
      exists (k, os). split; [reflexivity|]. apply filter_In. auto.
  - unfold found, _find_matching_settlements. rewrite settlement_matches_in_order.
    apply sort_desc_sorted, candidates_not_nan.
  - intro v. unfold found, _find_matching_settlements. rewrite settlement_matches_in_order.
    apply sort_desc_tied, candidates_not_nan.
Qed.

(** ** The parser of scraped addresses *)

Lemma parse_loop_some : forall U ps clean r,
  parse_loop U ps clean = Some r <->
  exists before p after,
    ps = before ++ p :: after
    /\ (forall q, In q before -> try_pattern U q clean = None)
    /\ try_pattern U p clean = Some r.
Proof.
  intros U. induction ps as [|p ps IH]; intros clean r.
  - split; [discriminate|]. intros [before [q [after [E _]]]].
    destruct before; discriminate.
  - cbn [parse_loop]. destruct (try_pattern U p clean) as [r'|] eqn:T.
    + split.
      * intro H. injection H as <-. exists [], p, ps. repeat split; [intros q []|exact T].
      * intros [before [q [after [E [Hb Hq]]]]]. destruct before as [|b before].
        -- injection E as <- _. congruence.
        -- injection E as <- _. rewrite (Hb p (or_introl eq_refl)) in T. discriminate.
    + rewrite IH. split.
      * intros [before [q [after [E [Hb Hq]]]]]. exists (p :: before), q, after.
        repeat split; [rewrite E; reflexivity| |exact Hq].
        intros x [<-|Hx]; auto.
      * intros [before [q [after [E [Hb Hq]]]]]. destruct before as [|b before].
        -- injection E as <- _. congruence.
        -- injection E as _ E. exists before, q, after. repeat split; auto.
           intros x Hx. apply Hb. right. exact Hx.
Qed.

Lemma parse_loop_none : forall U ps clean,
  parse_loop U ps clean = None <-> forall p, In p ps -> try_pattern U p clean = None.
Proof.
  intros U. induction ps as [|p ps IH]; intro clean.
  - split; [intros _ q []|reflexivity].
  - cbn [parse_loop]. destruct (try_pattern U p clean) as [r'|] eqn:T.
    + split; [discriminate|]. intro H. rewrite (H p (or_introl eq_refl)) in T. discriminate.
    + rewrite IH. split.
      * intros H q [<-|Hq]; auto.
      * intros H q Hq. apply H. right. exact Hq.
Qed.

Lemma try_pattern_none : forall U p clean,
  try_pattern U p clean = None <->
  re_search p clean = None
  \/ exists b e caps, re_search p clean = Some (b, e, caps)
       /\ (nonempty (_clean_settlement_name U (strip (group_text 1 caps))) = false
           \/ nonempty (_clean_street_name U (strip (group_text 2 caps))) = false
           \/ nonempty (_clean_house_number U (strip (group_text 3 caps))) = false).
Proof.
  intros U p clean. unfold try_pattern.
  destruct (re_search p clean) as [[[b e] caps]|].
  - split.
    + intro H. right. exists b, e, caps. split; [reflexivity|].
      destruct (_clean_settlement_name U (strip (group_text 1 caps))) as [[|c1 s1]|];
        cbn [nonempty]; auto.
      destruct (_clean_street_name U (strip (group_text 2 caps))) as [[|c2 s2]|];
        cbn [nonempty]; auto.
      destruct (_clean_house_number U (strip (group_text 3 caps))) as [[|c3 s3]|];
        cbn [nonempty]; auto.
      discriminate.
    + intros [H | [b' [e' [caps' [E H]]]]]; [discriminate|].
      injection E as <- <- <-.
      destruct (_clean_settlement_name U (strip (group_text 1 caps))) as [[|c1 s1]|];
        try reflexivity.
      destruct (_clean_street_name U (strip (group_text 2 caps))) as [[|c2 s2]|];
        try reflexivity.
      destruct (_clean_house_number U (strip (group_text 3 caps))) as [[|c3 s3]|];
        try reflexivity.
      cbn [nonempty] in H. destruct H as [H | [H | H]]; discriminate.
  - split; [left; reflexivity | reflexivity].
Qed.

(** C8, as the code has it: the parser goes through its patterns in order
    and returns the fields of the first one that matches and leaves the
    three cleaned fields non-empty; a pattern that matches with an empty
    cleaned field is passed over and the next ones are tried; the result is
    null exactly when no pattern is usable, and a container whose record
    cannot be extracted is skipped, the scan going on with the next one. *)
Theorem parser_takes_first_usable_pattern : forall U address_text,
  let clean := join (u " ") (split address_text) in
  (forall r, _parse_address_string U address_text = Some r <->
     exists before p after,
       patterns U = before ++ p :: after
       /\ (forall q, In q before -> try_pattern U q clean = None)
       /\ try_pattern U p clean = Some r)
  /\ (_parse_address_string U address_text = None <->
      forall p, In p (patterns U) -> try_pattern U p clean = None)
  /\ (forall p, try_pattern U p clean = None <->
        re_search p clean = None
        \/ exists b e caps, re_search p clean = Some (b, e, caps)
             /\ (nonempty (_clean_settlement_name U (strip (group_text 1 caps))) = false
                 \/ nonempty (_clean_street_name U (strip (group_text 2 caps))) = false
                 \/ nonempty (_clean_house_number U (strip (group_text 3 caps))) = false))
  /\ (address_text <> [] -> _parse_address_string U address_text = None ->
      _extract_office_data U (Some address_text) = None)
  /\ (forall c cs db n, _extract_office_data U c = None ->
        parse_containers U (c :: cs) db n = parse_containers U cs db n).
Proof.
  intros U address_text clean. split; [|split; [|split; [|split]]].
  - intro r. apply parse_loop_some.
  - apply parse_loop_none.
  - intro p. apply try_pattern_none.
  - intros Hne H. destruct address_text as [|c t]; [contradiction|].
    cbn [_extract_office_data]. rewrite H. reflexivity.
  - intros c cs db n H. cbn [parse_containers]. rewrite H. reflexivity.
Qed.

Lemma parser_takes_first_usable_pattern_witness :
  _extract_office_data blocks_only (Some (u "просто текст")) = None
  /\ parse_containers blocks_only [Some (u "просто текст"); Some (u "Астана, пр. Кунаева, 12")] [] 0
     = parse_containers blocks_only [Some (u "Астана, пр. Кунаева, 12")] [] 0.
Proof.
  assert (N : _parse_address_string blocks_only (u "просто текст") = None)
    by (vm_compute; reflexivity).
  assert (E : u "просто текст" <> []) by (vm_compute; discriminate).
  pose proof (parser_takes_first_usable_pattern blocks_only (u "просто текст"))
    as [_ [_ [_ [H1 H2]]]].
  exact (conj (H1 E N) (H2 _ [Some (u "Астана, пр. Кунаева, 12")] [] 0 (H1 E N))).
Defined.

(** the claim of C8 fails on "г. г., ул. Абая, 5": the first pattern matches
    it, the settlement it captures is cleaned to nothing, and the parser
    still returns a record, the one of the second pattern *)
Lemma parser_counterexample :
  re_search (pattern1 blocks_only) (join (u " ") (split (u "г. г., ул. Абая, 5")))
    = Some (0, 18, [(3, u "5"); (2, u "Абая"); (1, u "г.")])
  /\ _clean_settlement_name blocks_only (strip (u "г.")) = None
  /\ _parse_address_string blocks_only (u "г. г., ул. Абая, 5")
     = Some {| pa_settlement := u "г."; pa_street := u "ул. Абая"; pa_house := u "5" |}.
Proof.
  repeat split; vm_compute; reflexivity.
Qed.

Lemma normalize_text_strips_inside_word_witness :
  re_sub_empty prefix_re (u "город" ++ u "ок") = lstrip (u "ок").
Proof.
  apply (proj1 (normalize_text_strips_inside_word blocks_only)).
  vm_compute. right. left. reflexivity.
Defined.

Lemma index_groups_and_lookup_sorts_witness :
  In {| c_name := u "алматы"; c_offices := [example_office]; c_score := f1_0 |}
     (_find_matching_settlements blocks_only
        (_prepare_search_cache blocks_only [(u "алматы", [example_office])])
        (PStr (u "г. Алматы"))).
Proof.
  apply (proj1 (proj2 (proj2 (proj2
           (index_groups_and_lookup_sorts blocks_only [(u "алматы", [example_office])]
              (PStr (u "г. Алматы"))))))).
  exists (u "алматы"), [example_office]. repeat split.
  vm_compute. left. reflexivity.
Defined.

(** ** The matching blocks of [difflib] *)

Section DifflibFacts.
Import Difflib.
Local Open Scope Z_scope.

Lemma j2len_get_bounds : forall B d j, 0 <= B -> lens_le B d -> 0 <= j2len_get d j <= B.
Proof.
  intros B d j HB H. induction H as [|[j' k] d Hk _ IH]; cbn [j2len_get]; [lia|].
  destruct (j' =? j); [exact Hk | exact IH].
Qed.

Lemma in_rows_weaken : forall alo hi hi' x, hi <= hi' -> in_rows alo hi x -> in_rows alo hi' x.
Proof. unfold in_rows. intros. lia. Qed.

Lemma scan_row_inv : forall js blo bhi alo i j2len newj2len bst,
  alo <= i -> lens_le (i - alo) j2len -> lens_le (i - alo + 1) newj2len ->
  in_rows alo (i + 1) bst ->
  lens_le (i - alo + 1) (fst (scan_row js blo bhi i j2len newj2len bst))
  /\ in_rows alo (i + 1) (snd (scan_row js blo bhi i j2len newj2len bst)).
Proof.
  induction js as [|j js IH]; intros blo bhi alo i j2len newj2len bst Hi H1 H2 H3;
    cbn [scan_row]; [split; assumption|].
  destruct (j <? blo); [apply IH; assumption|].
  destruct (bhi <=? j); [split; assumption|].
  pose proof (@j2len_get_bounds (i - alo) j2len (j - 1) ltac:(lia) H1) as Hk.
  apply IH; try assumption.
  - constructor; [cbn [snd]; lia | exact H2].
  - destruct (bestsize bst <? j2len_get j2len (j - 1) + 1); [|exact H3].
    unfold in_rows. cbn [besti bestsize]. lia.
Qed.

Lemma scan_rows_inv : forall a b n i blo bhi alo j2len bst,
  alo <= i -> lens_le (i - alo) j2len -> in_rows alo i bst ->
  in_rows alo (i + Z.of_nat n) (scan_rows a b n i blo bhi j2len bst).
Proof.
  induction n as [|n IH]; intros i blo bhi alo j2len bst Hi H1 H2.
  - cbn [scan_rows]. replace (i + Z.of_nat 0) with i by lia. exact H2.
  - cbn [scan_rows].
    assert (H2' : in_rows alo (i + 1) bst) by (apply in_rows_weaken with (hi := i); [lia|exact H2]).
    pose proof (@scan_row_inv (b2j_get b (at_ a i)) blo bhi alo i j2len [] bst Hi H1
                  (Forall_nil _) H2') as [A B].
    destruct (scan_row (b2j_get b (at_ a i)) blo bhi i j2len [] bst) as [newj2len bst'].
    cbn [fst snd] in A, B.
    replace (i + Z.of_nat (S n)) with (i + 1 + Z.of_nat n) by lia.
    apply IH; [lia | | exact B].
    replace (i + 1 - alo) with (i - alo + 1) by lia. exact A.
Qed.

Lemma extend_left_inv : forall a b n alo blo hi bst,
  in_rows alo hi bst -> in_rows alo hi (extend_left a b n alo blo bst).
Proof.
  induction n as [|n IH]; intros alo blo hi bst H; cbn [extend_left]; [exact H|].
  destruct (alo <? besti bst) eqn:E1; cbn [andb]; [|exact H].
  destruct (blo <? bestj bst); cbn [andb]; [|exact H].
  destruct (at_ a (besti bst - 1) =? at_ b (bestj bst - 1)); [|exact H].
  apply IH. apply Z.ltb_lt in E1. unfold in_rows in *. cbn [besti bestsize]. lia.
Qed.

Lemma extend_right_inv : forall a b n ahi bhi alo bst,
  in_rows alo ahi bst -> in_rows alo ahi (extend_right a b n ahi bhi bst).
Proof.
  induction n as [|n IH]; intros ahi bhi alo bst H; cbn [extend_right]; [exact H|].
  destruct (besti bst + bestsize bst <? ahi) eqn:E1; cbn [andb]; [|exact H].
  destruct (bestj bst + bestsize bst <? bhi); cbn [andb]; [|exact H].
  destruct (at_ a (besti bst + bestsize bst) =? at_ b (bestj bst + bestsize bst)); [|exact H].
  apply IH. apply Z.ltb_lt in E1. unfold in_rows in *. cbn [besti bestsize]. lia.
Qed.

(** the longest match lies inside the window of [a] it was looked for in *)
Lemma find_longest_match_in_rows : forall a b alo ahi blo bhi,
  alo <= ahi -> in_rows alo ahi (find_longest_match a b alo ahi blo bhi).
Proof.
  intros a b alo ahi blo bhi H. unfold find_longest_match.
  apply extend_right_inv, extend_left_inv.
  replace ahi with (alo + Z.of_nat (Z.to_nat (ahi - alo))) at 1 by lia.
  apply scan_rows_inv; [lia | constructor |].
  unfold in_rows. cbn [besti bestsize]. lia.
Qed.

Lemma queue_turns_nonneg : forall q, Forall window_ok q -> 0 <= queue_turns q.
Proof.
  intros q H. induction H as [|[[[alo ahi] blo] bhi] q Hw _ IH]; cbn [queue_turns fold_right]; [lia|].
  fold (queue_turns q). unfold turns. cbn [window_ok] in Hw. lia.
Qed.

Lemma blocks_loop_total : forall a b fuel q acc,
  Forall window_ok q -> queue_turns q <= Z.of_nat fuel ->
  exists bl, blocks_loop a b fuel q acc = Some bl.
Proof.
  induction fuel as [|fuel IH]; intros q acc Hq Hf.
  - destruct q as [|[[[alo ahi] blo] bhi] q]; [eexists; reflexivity|].
    exfalso. inversion Hq as [|? ? Hw Hq']; subst.
    pose proof (queue_turns_nonneg Hq'). cbn [queue_turns fold_right] in Hf.
    fold (queue_turns q) in Hf. unfold turns in Hf. cbn [window_ok] in Hw. lia.
  - destruct q as [|[[[alo ahi] blo] bhi] q]; [eexists; reflexivity|].
    inversion Hq as [|? ? Hw Hq']; subst. cbn [window_ok] in Hw.
    cbn [queue_turns fold_right] in Hf. fold (queue_turns q) in Hf. unfold turns in Hf.
    cbn [blocks_loop].
    pose proof (find_longest_match_in_rows a b blo bhi Hw) as [X1 [X2 X3]].
    set (x := find_longest_match a b alo ahi blo bhi) in *.
    destruct (bestsize x =? 0) eqn:Ek.
    + apply IH; [exact Hq'|lia].
    + apply Z.eqb_neq in Ek.
      apply IH.
      * destruct ((besti x + bestsize x <? ahi) && (bestj x + bestsize x <? bhi)) eqn:E2;
          destruct ((alo <? besti x) && (blo <? bestj x)) eqn:E1;
          repeat (constructor; [cbn [window_ok]; lia|]); exact Hq'.
      * destruct ((besti x + bestsize x <? ahi) && (bestj x + bestsize x <? bhi)) eqn:E2;
          destruct ((alo <? besti x) && (blo <? bestj x)) eqn:E1;
          cbn [queue_turns fold_right]; fold (queue_turns q); unfold turns; lia.
Qed.

(** [get_matching_blocks] returns: the turns it is given are enough *)
Lemma matching_blocks_total : forall a b, exists bl, get_matching_blocks a b = Some bl.
Proof.
  intros a b. unfold get_matching_blocks. apply blocks_loop_total.
  - constructor; [|constructor]. cbn [window_ok]. unfold zlen. lia.
  - cbn [queue_turns fold_right turns]. unfold zlen. lia.
Qed.

Lemma blocks_loop_sizes : forall a b fuel q acc bl,
  Forall window_ok q -> Forall (fun x => 0 <= bestsize x) acc ->
  blocks_loop a b fuel q acc = Some bl -> Forall (fun x => 0 <= bestsize x) bl.
Proof.
  induction fuel as [|fuel IH]; intros q acc bl Hq Ha E.
  - destruct q as [|[[[alo ahi] blo] bhi] q]; cbn [blocks_loop] in E; [|discriminate].
    injection E as <-. exact Ha.
  - destruct q as [|[[[alo ahi] blo] bhi] q]; cbn [blocks_loop] in E.
    { injection E as <-. exact Ha. }
    inversion Hq as [|? ? Hw Hq']; subst. cbn [window_ok] in Hw.
    pose proof (find_longest_match_in_rows a b blo bhi Hw) as [X1 [X2 X3]].
    set (x := find_longest_match a b alo ahi blo bhi) in *.
    destruct (bestsize x =? 0) eqn:Ek.
    + eapply IH; [exact Hq' | exact Ha | exact E].
    + eapply IH; [| | exact E].
      * destruct ((besti x + bestsize x <? ahi) && (bestj x + bestsize x <? bhi)) eqn:E2;
          destruct ((alo <? besti x) && (blo <? bestj x)) eqn:E1;
          repeat (constructor; [cbn [window_ok]; lia|]); exact Hq'.
      * apply Forall_app. split; [exact Ha|]. constructor; [exact X2|constructor].
Qed.

Lemma matches_nonneg : forall a b, 0 <= matches a b.
Proof.
  intros a b. unfold matches, get_matching_blocks.
  destruct (blocks_loop a b (2 * List.length a + 1) [(0, zlen a, 0, zlen b)] []) as [bl|] eqn:E; [|lia].
  apply blocks_loop_sizes in E; [| |constructor].
  - induction E as [|x bl Hx _ IH]; cbn [fold_right]; lia.
  - constructor; [|constructor]. cbn [window_ok]. unfold zlen. lia.
Qed.

End DifflibFacts.

(** ** The composite score *)

Lemma literals_are_nearest :
  f0_9 = fdiv (float_of_int 9) (float_of_int 10)
  /\ f0_7 = fdiv (float_of_int 7) (float_of_int 10)
  /\ f0_4 = fdiv (float_of_int 4) (float_of_int 10)
  /\ f0_3 = fdiv (float_of_int 3) (float_of_int 10)
  /\ f0_27 = fdiv (float_of_int 27) (float_of_int 100)
  /\ f1_3 = fdiv (float_of_int 13) (float_of_int 10)
  /\ f1_0 = float_of_int 1 /\ f2_0 = float_of_int 2.
Proof. vm_compute. repeat split. Qed.

Lemma SFleb_refl : forall x, fkey x <> None -> SFleb x x = true.
Proof.
  intros x H. destruct (fkey x) as [a|] eqn:E; [|congruence].
  apply SFleb_fkey. exists a, a. auto.
Qed.

Lemma nonneg_not_nan : forall x, nonneg x -> fkey x <> None.
Proof.
  intros x [_ C]. destruct x as [s|s| |s m e]; try destruct s; try contradiction; discriminate.
Qed.

Lemma SFltb_leb_trans : forall x y z, SFltb x y = true -> SFleb y z = true -> SFltb x z = true.
Proof.
  intros x y z H1 H2. apply SFltb_fkey in H1. apply SFleb_fkey in H2.
  destruct H1 as (a & b & Ea & Eb & L1). destruct H2 as (b' & c & Eb' & Ec & L2).
  assert (b' = b) by congruence. subst b'.
  apply SFltb_fkey. exists a, c. repeat split; try assumption.
  destruct L2 as [L2|L2]; [exact (lt3_trans _ _ _ L1 L2) | subst; exact L1].
Qed.

Lemma fmul_comm : forall x y, fmul x y = fmul y x.
Proof.
  intros x y. unfold fmul, SFmul.
  destruct x as [sx|sx| |sx mx ex], y as [sy|sy| |sy my ey]; try reflexivity;
    rewrite (xorb_comm sx sy); try reflexivity.
  rewrite (Pos.mul_comm mx my), (Z.add_comm ex ey). reflexivity.
Qed.

Lemma literal_nonneg : forall m e,
  valid_binary prec emax (S754_finite false m e) = true -> nonneg (S754_finite false m e).
Proof. intros m e V. split; [exact V | exact I]. Qed.

Lemma zero_nonneg : nonneg f0_0.
Proof. split; [reflexivity | exact I]. Qed.

(** [a + b >= a] when [b] is not negative *)
Lemma fadd_ge_l : forall a b, nonneg a -> nonneg b -> SFleb a (fadd a b) = true.
Proof.
  intros a b Ha Hb.
  apply SFleb_trans with (fadd a (S754_zero false)).
  - pose proof (nonneg_not_nan Ha) as N. destruct Ha as [V C].
    destruct a as [s|s| |s m e]; try destruct s; try contradiction;
      try reflexivity.
    change (fadd (S754_finite false m e) (S754_zero false)) with (S754_finite false m e).
    apply SFleb_refl. exact N.
  - apply fadd_mono_r; [exact Ha | exact zero_nonneg | exact Hb |].
    apply zero_le_nonneg. exact Hb.
Qed.

Lemma weighted_nonneg : forall x, nonneg x ->
  nonneg (fmul x f0_3) /\ nonneg (fmul x STREET_WEIGHT) /\ nonneg (fmul x HOUSE_WEIGHT).
Proof.
  intros x Hx. repeat split; apply fmul_nonneg; try exact Hx; try (apply Z.leb_le; reflexivity).
Qed.

Lemma total_score_nonneg : forall s st h, nonneg s -> nonneg st -> nonneg h ->
  nonneg (total_score s st h).
Proof.
  intros s st h Hs Hst Hh. unfold total_score.
  apply fadd_nonneg; [apply fadd_nonneg|]; apply weighted_nonneg; assumption.
Qed.

Lemma total_score_mono_street : forall s st st' h,
  nonneg s -> nonneg st -> nonneg st' -> nonneg h -> SFleb st st' = true ->
  SFleb (total_score s st h) (total_score s st' h) = true.
Proof.
  intros s st st' h Hs Hst Hst' Hh H. unfold total_score.
  apply fadd_mono_l; try (apply fadd_nonneg); try (apply weighted_nonneg; assumption).
  apply fadd_mono_r; try (apply weighted_nonneg; assumption).
  apply fmul_mono; try assumption; apply Z.leb_le; reflexivity.
Qed.

Lemma total_score_mono_house : forall s st h h',
  nonneg s -> nonneg st -> nonneg h -> nonneg h' -> SFleb h h' = true ->
  SFleb (total_score s st h) (total_score s st h') = true.
Proof.
  intros s st h h' Hs Hst Hh Hh' H. unfold total_score.
  apply fadd_mono_r; try (apply fadd_nonneg); try (apply weighted_nonneg; assumption).
  apply fmul_mono; try assumption; apply Z.leb_le; reflexivity.
Qed.

Lemma match_street_and_house_fields : forall U street house o s m,
  _match_street_and_house U street house o s = Ok m ->
  sh_score m = total_score s (sh_street_similarity m) (sh_house_similarity m)
  /\ sh_street_similarity m
     = _calculate_similarity (_normalize_text U street)
         (_normalize_text U (dict_get o (u "street") (PStr [])))
  /\ _calculate_house_similarity U house (dict_get o (u "house") (PStr []))
     = Ok (sh_house_similarity m).
Proof.
  intros U street house o s m H. unfold _match_street_and_house in H.
  destruct (_calculate_house_similarity U house (dict_get o (u "house") (PStr [])))
    as [hs|e]; cbn [bind] in H; [|discriminate].
  destruct (dict_getitem o (u "settlement")) as [v|e]; cbn [bind] in H; [|discriminate].
  injection H as <-. cbn [sh_score sh_street_similarity sh_house_similarity].
  repeat split.
Qed.



(** ** Similarities are not negative *)

Section Similarities.
Local Open Scope Z_scope.

Lemma float_of_int_finite : forall n, 1 <= n <= 2 ^ 64 ->
  exists m e, float_of_int n = S754_finite false m e.
Proof.
  intros n Hn.
  pose proof (@float_of_int_nonneg n ltac:(lia)) as [V C].
  pose proof (@float_of_int_mono 1 n ltac:(lia)) as L1.
  pose proof (@float_of_int_mono n (2 ^ 64) ltac:(lia)) as L2.
  assert (E1 : float_of_int 1 = f1_0) by (vm_compute; reflexivity).
  assert (E2 : float_of_int (2 ^ 64) = S754_finite false 4503599627370496 12)
    by (vm_compute; reflexivity).
  rewrite E1 in L1. rewrite E2 in L2.
  destruct (float_of_int n) as [s|s| |s m e]; try destruct s; try contradiction;
    try discriminate.
  exists m, e. reflexivity.
Qed.

Lemma ratio_nonneg : forall a b, a <> [] -> sized a -> sized b -> nonneg (Difflib.ratio a b).
Proof.
  intros a b Ha Sa Sb. unfold Difflib.ratio, Difflib.calculate_ratio.
  unfold sized, maxsize in *.
  assert (La : 1 <= Difflib.zlen a).
  { unfold Difflib.zlen. destruct a; [congruence|]. cbn [List.length]. lia. }
  assert (Lb : 0 <= Difflib.zlen b) by (unfold Difflib.zlen; lia).
  destruct (Difflib.zlen a + Difflib.zlen b =? 0) eqn:E; [apply Z.eqb_eq in E; lia|].
  assert (P : 2 ^ 64 = 18446744073709551616) by reflexivity.
  destruct (@float_of_int_finite (Difflib.zlen a + Difflib.zlen b) ltac:(lia)) as (m & e & F).
  rewrite F. apply fdiv_nonneg. rewrite fmul_comm.
  apply fmul_nonneg; [|apply Z.leb_le; reflexivity|lia].
  apply float_of_int_nonneg, matches_nonneg.
Qed.

Lemma similarity_nonneg : forall a b, sized a -> sized b -> nonneg (_calculate_similarity a b).
Proof.
  intros a b Sa Sb. unfold _calculate_similarity.
  destruct a as [|c a]; [exact zero_nonneg|].
  destruct b as [|d b]; [exact zero_nonneg|].
  destruct (pstr_eqb (c :: a) (d :: b)); [split; [reflexivity | exact I]|].
  apply ratio_nonneg; [discriminate | assumption | assumption].
Qed.

Lemma house_similarity_nonneg : forall U h1 h2 x,
  sized (py_str h1) -> sized (py_str h2) ->
  _calculate_house_similarity U h1 h2 = Ok x -> nonneg x.
Proof.
  intros U h1 h2 x S1 S2 H. unfold _calculate_house_similarity in H.
  destruct (negb (truthy h1) || negb (truthy h2)).
  { injection H as <-. exact zero_nonneg. }
  destruct (method_strip h1) as [s1|e]; cbn [bind] in H; [|discriminate].
  destruct (method_strip h2) as [s2|e]; cbn [bind] in H; [|discriminate].
  destruct (pstr_eqb (lower U s1) (lower U s2)).
  { injection H as <-. split; [reflexivity | exact I]. }
  destruct (same_number (_extract_house_number U h1) (_extract_house_number U h2)).
  { injection H as <-. split; [reflexivity | exact I]. }
  injection H as <-. apply similarity_nonneg; assumption.
Qed.

(** a settlement score of 0.9 or more puts the composite at 0.27 or more *)
Lemma total_score_ge : forall s st h, nonneg s -> nonneg st -> nonneg h ->
  SFleb f0_9 s = true -> SFleb f0_27 (total_score s st h) = true.
Proof.
  intros s st h Hs Hst Hh H. unfold total_score.
  destruct (weighted_nonneg Hs) as [A _]. destruct (weighted_nonneg Hst) as [_ [B _]].
  destruct (weighted_nonneg Hh) as [_ [_ C]].
  assert (L : SFleb f0_27 (fmul s f0_3) = true).
  { change f0_27 with (fmul f0_9 f0_3).
    apply fmul_mono; try assumption; try (apply Z.leb_le; reflexivity).
    split; [reflexivity | exact I]. }
  eapply SFleb_trans; [exact L|].
  eapply SFleb_trans; [apply (fadd_ge_l A B)|].
  apply fadd_ge_l; [apply fadd_nonneg; assumption | exact C].
Qed.

End Similarities.

(** ** The candidates and the scan *)

Lemma settlement_matches_in : forall nq cache c,
  In c (settlement_matches nq cache) ->
  In (c_name c, c_offices c) cache
  /\ c_score c = _calculate_similarity nq (c_name c)
  /\ fge (c_score c) SETTLEMENT_MATCH_THRESHOLD = true.
Proof.
  intros nq cache c. induction cache as [|[key offs] cache IH]; cbn [settlement_matches]; [intros []|].
  destruct (fge (_calculate_similarity nq key) SETTLEMENT_MATCH_THRESHOLD) eqn:G.
  - intros [E|H].
    + subst c. cbn [c_name c_offices c_score]. repeat split; [left; reflexivity | exact G].
    + destruct (IH H) as (A & B & C). repeat split; [right; exact A | exact B | exact C].
  - intro H. destruct (IH H) as (A & B & C). repeat split; [right; exact A | exact B | exact C].
Qed.

Lemma find_matching_settlements_in : forall U cache name c,
  In c (_find_matching_settlements U cache name) ->
  In (c_name c, c_offices c) cache
  /\ c_score c = _calculate_similarity (_normalize_text U name) (c_name c)
  /\ fge (c_score c) SETTLEMENT_MATCH_THRESHOLD = true.
Proof.
  intros U cache name c H. apply settlement_matches_in.
  unfold _find_matching_settlements in H.
  exact (Permutation_in c (sort_desc_perm _) H).
Qed.

Lemma scan_offices_keeps : forall U street house s offices st st',
  fst st <> None -> scan_offices U street house s offices st = Ok st' -> fst st' <> None.
Proof.
  intros U street house s offices. induction offices as [|o offices IH]; intros st st' N H;
    cbn [scan_offices] in H.
  - injection H as <-. exact N.
  - destruct (_match_street_and_house U street house o s) as [m|e]; cbn [bind] in H; [|discriminate].
    apply IH in H; [exact H|].
    destruct (fgt (sh_score m) (snd st)); [cbn [fst]; discriminate | exact N].
Qed.

Lemma scan_settlements_keeps : forall U street house cands st st',
  fst st <> None -> scan_settlements U street house cands st = Ok st' -> fst st' <> None.
Proof.
  intros U street house cands. induction cands as [|c cands IH]; intros st st' N H;
    cbn [scan_settlements] in H.
  - injection H as <-. exact N.
  - destruct (scan_offices U street house (c_score c) (c_offices c) st) as [st1|e] eqn:E;
      cbn [bind] in H; [|discriminate].
    apply (IH st1 st'); [|exact H]. exact (scan_offices_keeps _ _ _ _ _ _ N E).
Qed.

(** the first office of a scan that starts from nothing becomes the best
    match when its score is above 0 *)
Lemma scan_offices_first : forall U street house s offices st',
  offices <> [] ->
  (forall o m, In o offices -> _match_street_and_house U street house o s = Ok m ->
               fgt (sh_score m) f0_0 = true) ->
  scan_offices U street house s offices (None, f0_0) = Ok st' -> fst st' <> None.
Proof.
  intros U street house s offices st' N P H.
  destruct offices as [|o offices]; [congruence|]. cbn [scan_offices] in H.
  destruct (_match_street_and_house U street house o s) as [m|e] eqn:E; cbn [bind] in H;
    [|discriminate].
  cbn [snd] in H. rewrite (P o m (or_introl eq_refl) E) in H.
  apply scan_offices_keeps in H; [exact H | cbn [fst]; discriminate].
Qed.

Lemma scan_settlements_none : forall U street house cands st,
  (forall c o m, In c cands -> In o (c_offices c) ->
     _match_street_and_house U street house o (c_score c) = Ok m ->
     fgt (sh_score m) f0_0 = true) ->
  scan_settlements U street house cands (None, f0_0) = Ok st ->
  (fst st = None <-> forall c, In c cands -> c_offices c = []).
Proof.
  intros U street house cands. induction cands as [|c cands IH]; intros st P H;
    cbn [scan_settlements] in H.
  - injection H as <-. cbn [fst]. split; [intros _ c []|reflexivity].
  - destruct (c_offices c) as [|o offs] eqn:Ec.
    + cbn [scan_offices bind] in H.
      apply IH in H; [|intros c' o' m' I; apply P; right; exact I].
      rewrite H. split.
      * intros A c' [E|I]; [subst; exact Ec | apply A; exact I].
      * intros A c' I. apply A. right. exact I.
    + destruct (scan_offices U street house (c_score c) (o :: offs) (None, f0_0))
        as [st1|e] eqn:E; cbn [bind] in H; [|discriminate].
      assert (N1 : fst st1 <> None).
      { apply (scan_offices_first U street house (c_score c) (offices := o :: offs));
          [discriminate | | exact E].
        intros o' m' I. apply (P c); [left; reflexivity | rewrite Ec; exact I]. }
      pose proof (scan_settlements_keeps _ _ _ _ _ N1 H) as N.
      split; [intro A; contradiction|].
      intro A. pose proof (A c (or_introl eq_refl)) as B. congruence.
Qed.

(** rows of text and complete offices raise nothing *)
Lemma match_street_and_house_ok : forall U street house o s,
  is_text house = true -> complete_office o ->
  exists m, _match_street_and_house U street house o s = Ok m.
Proof.
  intros U street house o s T [Th Ts]. unfold _match_street_and_house.
  assert (X : exists x, _calculate_house_similarity U house (dict_get o (u "house") (PStr [])) = Ok x).
  { unfold _calculate_house_similarity.
    destruct (negb (truthy house) || negb (truthy (dict_get o (u "house") (PStr []))));
      [eexists; reflexivity|].
    destruct house as [|h|n]; try discriminate.
    destruct (dict_get o (u "house") (PStr [])) as [|h'|n']; try discriminate.
    cbn [method_strip bind].
    destruct (pstr_eqb (lower U (strip h)) (lower U (strip h'))); [eexists; reflexivity|].
    destruct (same_number _ _); eexists; reflexivity. }
  destruct X as [x X]. rewrite X. cbn [bind]. unfold dict_getitem.
  destruct (dict_lookup o (u "settlement")) as [v|]; [|congruence].
  cbn [bind]. eexists. reflexivity.
Qed.

Lemma scan_offices_ok : forall U street house s offices st,
  is_text house = true -> Forall complete_office offices ->
  exists st', scan_offices U street house s offices st = Ok st'.
Proof.
  intros U street house s offices. induction offices as [|o offices IH]; intros st T F;
    cbn [scan_offices]; [eexists; reflexivity|].
  inversion F as [|? ? Fo F']; subst.
  destruct (@match_street_and_house_ok U street house o s T Fo) as [m E]. rewrite E. cbn [bind].
  apply IH; assumption.
Qed.

Lemma scan_settlements_ok : forall U street house cands st,
  is_text house = true -> Forall (fun c => Forall complete_office (c_offices c)) cands ->
  exists st', scan_settlements U street house cands st = Ok st'.
Proof.
  intros U street house cands. induction cands as [|c cands IH]; intros st T F;
    cbn [scan_settlements]; [eexists; reflexivity|].
  inversion F as [|? ? Fc F']; subst.
  destruct (@scan_offices_ok U street house (c_score c) (c_offices c) st T Fc) as [st1 E]. rewrite E. cbn [bind].
  apply IH; assumption.
Qed.

(** ** The best match *)

Lemma office_score_bounds : forall U cache ad c o m,
  sized_row U ad -> sized_cache U cache ->
  In c (_find_matching_settlements U cache (settlement ad)) -> In o (c_offices c) ->
  _match_street_and_house U (street ad) (house ad) o (c_score c) = Ok m ->
  fge (sh_score m) f0_27 = true /\ fgt (sh_score m) f0_0 = true.
Proof.
  intros U cache ad c o m (Rs & Rst & Rh) Hc Ic Io E.
  destruct (find_matching_settlements_in _ _ _ _ Ic) as (Icache & Es & G).
  unfold sized_cache in Hc. rewrite Forall_forall in Hc.
  destruct (Hc _ Icache) as [Sk So]. cbn [fst snd] in Sk, So.
  rewrite Forall_forall in So. destruct (So _ Io) as [Sos Soh].
  destruct (match_street_and_house_fields _ _ _ _ _ E) as (F1 & F2 & F3).
  assert (Ns : nonneg (c_score c)) by (rewrite Es; apply similarity_nonneg; assumption).
  assert (Nst : nonneg (sh_street_similarity m))
    by (rewrite F2; apply similarity_nonneg; assumption).
  assert (Nh : nonneg (sh_house_similarity m))
    by (exact (house_similarity_nonneg _ _ _ Rh Soh F3)).
  assert (L : SFleb f0_27 (sh_score m) = true)
    by (rewrite F1; apply total_score_ge; assumption).
  split; [exact L|].
  unfold fgt. apply SFltb_leb_trans with f0_27; [reflexivity | exact L].
Qed.

Lemma match_street_and_house_found : forall U street house o s m,
  _match_street_and_house U street house o s = Ok m ->
  startswith (u "Найден: ") (sh_details m) = true.
Proof.
  intros U street house o s m H.
  assert (E : exists rest, sh_details m = u "Найден: " ++ rest).
  { unfold _match_street_and_house in H.
    destruct (_calculate_house_similarity U house (dict_get o (u "house") (PStr [])))
      as [hs|e]; cbn [bind] in H; [|discriminate].
    destruct (dict_getitem o (u "settlement")) as [v|e]; cbn [bind] in H; [|discriminate].
    injection H as <-. eexists. reflexivity. }
  destruct E as [rest E]. rewrite E. apply startswith_app.
Qed.

Lemma scan_offices_found : forall U street house s offices st st',
  (forall bm, fst st = Some bm -> startswith (u "Найден: ") (bm_details bm) = true) ->
  scan_offices U street house s offices st = Ok st' ->
  forall bm, fst st' = Some bm -> startswith (u "Найден: ") (bm_details bm) = true.
Proof.
  intros U street house s offices. induction offices as [|o offices IH]; intros st st' P H;
    cbn [scan_offices] in H.
  - injection H as <-. exact P.
  - destruct (_match_street_and_house U street house o s) as [m|e] eqn:E; cbn [bind] in H;
      [|discriminate].
    refine (IH _ st' _ H).
    destruct (fgt (sh_score m) (snd st)); [|exact P].
    cbn [fst]. intros bm B. injection B as <-. cbn [bm_details].
    exact (match_street_and_house_found _ _ _ _ _ E).
Qed.

Lemma scan_settlements_found : forall U street house cands st st',
  (forall bm, fst st = Some bm -> startswith (u "Найден: ") (bm_details bm) = true) ->
  scan_settlements U street house cands st = Ok st' ->
  forall bm, fst st' = Some bm -> startswith (u "Найден: ") (bm_details bm) = true.
Proof.
  intros U street house cands. induction cands as [|c cands IH]; intros st st' P H;
    cbn [scan_settlements] in H.
  - injection H as <-. exact P.
  - destruct (scan_offices U street house (c_score c) (c_offices c) st) as [st1|e] eqn:E;
      cbn [bind] in H; [|discriminate].
    exact (IH st1 st' (scan_offices_found _ _ _ _ _ _ P E) H).
Qed.

Lemma street_not_found_details : forall ad,
  startswith (u "Найден: ") (r_details (street_not_found ad)) = false
  /\ startswith (u "Улица '") (r_details (street_not_found ad)) = true
  /\ startswith (u "Улица '") (r_details (settlement_not_found ad)) = false.
Proof.
  intro ad.
  assert (A : forall rest, startswith (u "Найден: ") (u "Улица '" ++ rest) = false)
    by (intro rest; vm_compute; reflexivity).
  assert (B : forall rest, startswith (u "Улица '") (u "Поселение '" ++ rest) = false)
    by (intro rest; vm_compute; reflexivity).
  unfold street_not_found, settlement_not_found. cbn [r_details].
  split; [apply A|]. split; [apply startswith_app | apply B].
Qed.

(** the result of a best match is not the street-not-found result *)
Lemma determine_status_not_street : forall bm ad,
  startswith (u "Найден: ") (bm_details bm) = true ->
  _determine_status bm ad <> street_not_found ad.
Proof.
  intros bm ad H E. apply (f_equal r_details) in E.
  change (r_details (_determine_status bm ad)) with (bm_details bm) in E.
  rewrite E in H. rewrite (proj1 (street_not_found_details ad)) in H. discriminate.
Qed.

Lemma settlement_not_street : forall ad, settlement_not_found ad <> street_not_found ad.
Proof.
  intros ad E. apply (f_equal r_details) in E.
  destruct (street_not_found_details ad) as (_ & A & B). rewrite E in B. congruence.
Qed.



(** the branches of [match_address_try] after a scan that returns *)
Lemma match_address_try_scan : forall U cache ad st,
  _find_matching_settlements U cache (settlement ad) <> [] ->
  scan_settlements U (street ad) (house ad)
    (_find_matching_settlements U cache (settlement ad)) (None, f0_0) = Ok st ->
  match_address_try U cache ad
  = match fst st with
    | Some bm => Ok (_determine_status bm ad)
    | None => Ok (street_not_found ad)
    end.
Proof.
  intros U cache ad st N H. unfold match_address_try.
  destruct (_find_matching_settlements U cache (settlement ad)) as [|c cands]; [congruence|].
  rewrite H. reflexivity.
Qed.




(** * Further properties of the code *)

(** ** [match_address]: the result of a row *)

Lemma match_address_result : forall U cache ad,
  r_row_num (match_address U cache ad) = row_num ad
  /\ (r_status (match_address U cache ad) = status_yes
      \/ r_status (match_address U cache ad) = status_check
      \/ r_status (match_address U cache ad) = status_no).
Proof.
  intros U cache ad. unfold match_address, match_address_try.
  destruct (_find_matching_settlements U cache (settlement ad)) as [|c cands].
  - split; [reflexivity|]. right. right. reflexivity.
  - destruct (scan_settlements U (street ad) (house ad) (c :: cands) (None, f0_0)) as [st|e];
      cbn [bind].
    + destruct (fst st) as [bm|].
      * unfold _determine_status. cbn [r_row_num r_status]. split; [reflexivity|].
        destruct (fge (bm_total_score bm) f0_9); [left; reflexivity|].
        destruct (fge (bm_total_score bm) PARTIAL_MATCH_THRESHOLD);
          [right; left; reflexivity | right; right; reflexivity].
      * split; [reflexivity|]. right. right. reflexivity.
    + split; [reflexivity|]. right. left. reflexivity.
Qed.

(** X1. Whatever the row and the index, [match_address] returns a result for
    the row it was given, and its status is one of 'Да', 'Проверить', 'Нет'. *)
Theorem match_address_row_and_status : forall U cache ad,
  r_row_num (match_address U cache ad) = row_num ad
  /\ (r_status (match_address U cache ad) = status_yes
      \/ r_status (match_address U cache ad) = status_check
      \/ r_status (match_address U cache ad) = status_no).
Proof.
  intros U cache ad. unfold match_address, match_address_try.
  destruct (_find_matching_settlements U cache (settlement ad)) as [|c cands].
  - split; [reflexivity|]. right. right. reflexivity.
  - destruct (scan_settlements U (street ad) (house ad) (c :: cands) (None, f0_0)) as [st|e];
      cbn [bind].
    + destruct (fst st) as [bm|].
      * unfold _determine_status. cbn [r_row_num r_status]. split; [reflexivity|].
        destruct (fge (bm_total_score bm) f0_9); [left; reflexivity|].
        destruct (fge (bm_total_score bm) PARTIAL_MATCH_THRESHOLD);
          [right; left; reflexivity | right; right; reflexivity].
      * split; [reflexivity|]. right. right. reflexivity.
    + split; [reflexivity|]. right. left. reflexivity.
Qed.

Lemma settlement_matches_empty_query : forall cache, settlement_matches [] cache = [].
Proof.
  induction cache as [|[key offs] cache IH]; [reflexivity|].
  cbn [settlement_matches]. unfold _calculate_similarity.
  change (fge f0_0 SETTLEMENT_MATCH_THRESHOLD) with false. exact IH.
Qed.

Lemma normalize_text_falsy : forall U text, truthy text = false -> _normalize_text U text = [].
Proof. intros U text H. unfold _normalize_text. rewrite H. reflexivity. Qed.

(** X2. A row whose settlement normalizes to the empty string - an absent
    or empty value, or a marker word alone - has no candidate: the result is
    'Нет', the settlement not found, whatever the index holds; so is the
    result of any row on an empty index. *)
Theorem empty_settlement_is_not_found : forall U cache ad,
  (_normalize_text U (settlement ad) = [] \/ cache = []) ->
  _find_matching_settlements U cache (settlement ad) = []
  /\ match_address U cache ad = settlement_not_found ad
  /\ r_status (match_address U cache ad) = status_no.
Proof.
  intros U cache ad H.
  assert (E : _find_matching_settlements U cache (settlement ad) = []).
  { unfold _find_matching_settlements. destruct H as [H|H].
    - rewrite H, settlement_matches_empty_query. reflexivity.
    - subst cache. reflexivity. }
  assert (M : match_address U cache ad = settlement_not_found ad).
  { unfold match_address, match_address_try. rewrite E. reflexivity. }
  split; [exact E|]. split; [exact M|]. rewrite M. reflexivity.
Qed.

Lemma empty_settlement_is_not_found_witness :
  (_normalize_text blocks_only
     (settlement {| row_num := 9; settlement := PStr (u "Город"); street := PStr (u "Абая");
                    house := PStr (u "150") |}) = []
   \/ example_cache = [])
  /\ match_address blocks_only example_cache
       {| row_num := 9; settlement := PStr (u "Город"); street := PStr (u "Абая");
          house := PStr (u "150") |}
     = settlement_not_found
         {| row_num := 9; settlement := PStr (u "Город"); street := PStr (u "Абая");
            house := PStr (u "150") |}.
Proof.
  assert (H : _normalize_text blocks_only
                (settlement {| row_num := 9; settlement := PStr (u "Город");
                               street := PStr (u "Абая"); house := PStr (u "150") |}) = []
              \/ example_cache = []) by (left; vm_compute; reflexivity).
  exact (conj H (proj1 (proj2 (@empty_settlement_is_not_found blocks_only example_cache _ H)))).
Defined.

(** ** Values that are not strings *)

(** X3. [_calculate_house_similarity] returns 0.0 as soon as one of the two
    values is absent, empty or zero, whatever the other is; otherwise it
    raises exactly when one of them is not a string, the [AttributeError]
    being the one of the first such value, as [house1.strip()] is called
    first. *)
Theorem house_similarity_errors : forall U h1 h2,
  (truthy h1 = false \/ truthy h2 = false -> _calculate_house_similarity U h1 h2 = Ok f0_0)
  /\ (truthy h1 = true -> truthy h2 = true -> is_text h1 = false ->
      _calculate_house_similarity U h1 h2 = Raise (no_attribute h1 (u "strip")))
  /\ (truthy h1 = true -> truthy h2 = true -> is_text h1 = true -> is_text h2 = false ->
      _calculate_house_similarity U h1 h2 = Raise (no_attribute h2 (u "strip")))
  /\ (is_text h1 = true -> is_text h2 = true ->
      exists x, _calculate_house_similarity U h1 h2 = Ok x).
Proof.
  intros U h1 h2. unfold _calculate_house_similarity. repeat split.
  - intros [H|H]; rewrite H; cbn [negb orb]; [reflexivity|].
    destruct (negb (truthy h1)); reflexivity.
  - intros T1 T2 N. rewrite T1, T2. cbn [negb orb].
    destruct h1 as [|s|n]; [reflexivity | discriminate | reflexivity].
  - intros T1 T2 N1 N2. rewrite T1, T2. cbn [negb orb].
    destruct h1 as [|s|n]; try discriminate.
    destruct h2 as [|s2|n2]; [reflexivity | discriminate | reflexivity].
  - intros N1 N2. destruct h1 as [|s1|n1]; try discriminate.
    destruct h2 as [|s2|n2]; try discriminate.
    destruct (negb (truthy (PStr s1)) || negb (truthy (PStr s2))); [eexists; reflexivity|].
    cbn [method_strip bind].
    destruct (pstr_eqb (lower U (strip s1)) (lower U (strip s2))); [eexists; reflexivity|].
    destruct (same_number _ _); eexists; reflexivity.
Qed.

Lemma house_similarity_errors_witness :
  (truthy (PInt 150) = true /\ truthy (PStr (u "150")) = true /\ is_text (PInt 150) = false)
  /\ _calculate_house_similarity blocks_only (PInt 150) (PStr (u "150"))
     = Raise (no_attribute (PInt 150) (u "strip")).
Proof.
  assert (T1 : truthy (PInt 150) = true) by reflexivity.
  assert (T2 : truthy (PStr (u "150")) = true) by reflexivity.
  assert (N : is_text (PInt 150) = false) by reflexivity.
  exact (conj (conj T1 (conj T2 N))
           (proj1 (proj2 (house_similarity_errors blocks_only (PInt 150) (PStr (u "150"))))
              T1 T2 N)).
Defined.

Lemma normalize_text_empty : forall U, _normalize_text U (PStr []) = [].
Proof. intro U. reflexivity. Qed.

Lemma similarity_empty_r : forall a, _calculate_similarity a [] = f0_0.
Proof. intro a. destruct a; reflexivity. Qed.

(** X4. An office record without a street or without a house is compared
    as if the field were empty: that similarity is 0.0 and nothing is
    raised for it. A record without a settlement raises
    [KeyError('settlement')] once the similarities are computed; with a
    settlement, and a house similarity that returns, the comparison
    returns. *)
Theorem match_street_and_house_missing_keys : forall U street house o s,
  (forall m, _match_street_and_house U street house o s = Ok m ->
     (dict_lookup o (u "street") = None -> sh_street_similarity m = f0_0)
     /\ (dict_lookup o (u "house") = None -> sh_house_similarity m = f0_0))
  /\ (forall x, _calculate_house_similarity U house (dict_get o (u "house") (PStr [])) = Ok x ->
        dict_lookup o (u "settlement") = None ->
        _match_street_and_house U street house o s = Raise (KeyError (u "settlement")))
  /\ (forall x v, _calculate_house_similarity U house (dict_get o (u "house") (PStr [])) = Ok x ->
        dict_lookup o (u "settlement") = Some v ->
        exists m, _match_street_and_house U street house o s = Ok m
                  /\ sh_house_similarity m = x)
  /\ (forall e, _calculate_house_similarity U house (dict_get o (u "house") (PStr [])) = Raise e ->
        _match_street_and_house U street house o s = Raise e).
Proof.
  intros U street house o s. repeat split.
  - intro Hs. destruct (match_street_and_house_fields _ _ _ _ _ H) as (_ & F2 & _).
    rewrite F2. unfold dict_get. rewrite Hs. rewrite normalize_text_empty.
    apply similarity_empty_r.
  - intro Hh. destruct (match_street_and_house_fields _ _ _ _ _ H) as (_ & _ & F3).
    unfold dict_get in F3. rewrite Hh in F3.
    unfold _calculate_house_similarity in F3. cbn [truthy negb] in F3.
    rewrite orb_true_r in F3. congruence.
  - intros x X N. unfold _match_street_and_house. rewrite X. cbn [bind].
    unfold dict_getitem. rewrite N. reflexivity.
  - intros x v X N. unfold _match_street_and_house. rewrite X. cbn [bind].
    unfold dict_getitem. rewrite N. cbn [bind]. eexists. split; reflexivity.
  - intros e X. unfold _match_street_and_house. rewrite X. reflexivity.
Qed.

Lemma match_street_and_house_missing_keys_witness :
  (_calculate_house_similarity blocks_only (PStr (u "150"))
     (dict_get [(u "street", PStr (u "ул. Абая"))] (u "house") (PStr [])) = Ok f0_0
   /\ dict_lookup [(u "street", PStr (u "ул. Абая"))] (u "settlement") = None)
  /\ _match_street_and_house blocks_only (PStr (u "Абая")) (PStr (u "150"))
       [(u "street", PStr (u "ул. Абая"))] f1_0
     = Raise (KeyError (u "settlement")).
Proof.
  assert (X : _calculate_house_similarity blocks_only (PStr (u "150"))
                (dict_get [(u "street", PStr (u "ул. Абая"))] (u "house") (PStr [])) = Ok f0_0)
    by (vm_compute; reflexivity).
  assert (N : dict_lookup [(u "street", PStr (u "ул. Абая"))] (u "settlement") = None)
    by (vm_compute; reflexivity).
  exact (conj (conj X N)
           (proj1 (proj2 (match_street_and_house_missing_keys blocks_only (PStr (u "Абая"))
                            (PStr (u "150")) [(u "street", PStr (u "ул. Абая"))] f1_0))
              f0_0 X N)).
Defined.

(** ** The index keeps every office *)

Lemma cache_extend_offices : forall cache k offs,
  Permutation (flat_map snd (cache_extend cache k offs)) (flat_map snd cache ++ offs).
Proof.
  induction cache as [|[k' os] cache IH]; intros k offs; cbn [cache_extend].
  - cbn [flat_map snd]. rewrite app_nil_r. apply Permutation_refl.
  - destruct (pstr_eqb k' k); cbn [flat_map snd].
    + rewrite <- !app_assoc. apply Permutation_app_head. apply Permutation_app_comm.
    + rewrite <- app_assoc. apply Permutation_app_head. apply IH.
Qed.

Lemma cache_extend_in : forall cache k offs entry,
  In entry (cache_extend cache k offs) ->
  In entry cache
  \/ (fst entry = k /\ (snd entry = offs \/ exists old, In (k, old) cache /\ snd entry = old ++ offs)).
Proof.
  induction cache as [|[k' os] cache IH]; intros k offs entry H; cbn [cache_extend] in H.
  - destruct H as [<-|[]]. right. split; [reflexivity | left; reflexivity].
  - destruct (pstr_eqb k' k) eqn:E.
    + apply pstr_eqb_eq in E. subst k'. destruct H as [<-|H].
      * right. split; [reflexivity|]. right. exists os. split; [left; reflexivity | reflexivity].
      * left. right. exact H.
    + destruct H as [<-|H]; [left; left; reflexivity|].
      destruct (IH _ _ _ H) as [I|[Ek [Es|(old & Io & Es)]]].
      * left. right. exact I.
      * right. split; [exact Ek | left; exact Es].
      * right. split; [exact Ek|]. right. exists old. split; [right; exact Io | exact Es].
Qed.

Lemma prepare_fold_offices : forall U data acc,
  Permutation
    (flat_map snd (fold_left (fun cache '(settlement, offices) =>
                                cache_extend cache (_normalize_text U (PStr settlement)) offices)
                             data acc))
    (flat_map snd acc ++ flat_map snd data).
Proof.
  intros U data. induction data as [|[k offs] data IH]; intro acc; cbn [fold_left].
  - cbn [flat_map]. rewrite app_nil_r. apply Permutation_refl.
  - eapply Permutation_trans; [apply IH|]. cbn [flat_map snd].
    rewrite app_assoc. apply Permutation_app_tail. apply cache_extend_offices.
Qed.

(** X5. Building the index loses no office and duplicates none: the offices
    of its buckets are those of the scraped database, each as many times;
    and every key of the index is the normal form of a settlement of the
    database. *)
Theorem index_keeps_every_office : forall U offices_data,
  Permutation (flat_map snd (_prepare_search_cache U offices_data)) (flat_map snd offices_data)
  /\ (forall key, In key (map fst (_prepare_search_cache U offices_data)) ->
        exists s, In s (map fst offices_data) /\ key = _normalize_text U (PStr s)).
Proof.
  intros U offices_data. split.
  - exact (prepare_fold_offices U offices_data []).
  - unfold _prepare_search_cache.
    assert (G : forall data acc key,
              In key (map fst (fold_left (fun cache '(settlement, offices) =>
                         cache_extend cache (_normalize_text U (PStr settlement)) offices)
                       data acc)) ->
              In key (map fst acc)
              \/ exists s, In s (map fst data) /\ key = _normalize_text U (PStr s)).
    { induction data as [|[k offs] data IH]; intros acc key H; cbn [fold_left] in H.
      - left. exact H.
      - destruct (IH _ _ H) as [I|(s & Is & Es)].
        + destruct (cache_extend_in_keys _ _ _ _ I) as [->|I'].
          * right. exists k. split; [left; reflexivity | reflexivity].
          * left. exact I'.
        + right. exists s. split; [right; exact Is | exact Es]. }
    intros key H. destruct (G _ _ _ H) as [[]|X]. exact X.
Qed.

(** ** The candidates of a settlement *)

Lemma settlement_matches_intro : forall nq cache key offs,
  In (key, offs) cache ->
  fge (_calculate_similarity nq key) SETTLEMENT_MATCH_THRESHOLD = true ->
  In {| c_name := key; c_offices := offs; c_score := _calculate_similarity nq key |}
     (settlement_matches nq cache).
Proof.
  intros nq cache key offs. induction cache as [|[k os] cache IH]; intros I G; [destruct I|].
  cbn [settlement_matches]. destruct I as [E|I].
  - injection E as -> ->. rewrite G. left. reflexivity.
  - destruct (fge (_calculate_similarity nq k) SETTLEMENT_MATCH_THRESHOLD);
      [right|]; apply IH; assumption.
Qed.

Lemma similarity_refl : forall s, s <> [] -> _calculate_similarity s s = f1_0.
Proof.
  intros s H. unfold _calculate_similarity. destruct s as [|c s]; [congruence|].
  rewrite pstr_eqb_refl. reflexivity.
Qed.

(** ** The best match *)

Lemma scan_offices_max : forall U street house s offices st st',
  (forall o m, In o offices -> _match_street_and_house U street house o s = Ok m ->
               fkey (sh_score m) <> None) ->
  fkey (snd st) <> None ->
  scan_offices U street house s offices st = Ok st' ->
  fkey (snd st') <> None
  /\ SFleb (snd st) (snd st') = true
  /\ (forall o m, In o offices -> _match_street_and_house U street house o s = Ok m ->
                  SFleb (sh_score m) (snd st') = true)
  /\ (st' = st
      \/ exists o m, In o offices /\ _match_street_and_house U street house o s = Ok m
           /\ st' = (Some {| bm_office := o; bm_settlement_score := s;
                             bm_total_score := sh_score m; bm_details := sh_details m |},
                     sh_score m)).
Proof.
  intros U street house s offices. induction offices as [|o offices IH]; intros st st' P N H;
    cbn [scan_offices] in H.
  - injection H as <-. split; [exact N|]. split; [apply SFleb_refl; exact N|].
    split; [intros o m []|]. left. reflexivity.
  - destruct (_match_street_and_house U street house o s) as [m|e] eqn:E; cbn [bind] in H;
      [|discriminate].
    pose proof (P o m (or_introl eq_refl) E) as Nm.
    set (st1 := if fgt (sh_score m) (snd st)
                then (Some {| bm_office := o; bm_settlement_score := s;
                              bm_total_score := sh_score m; bm_details := sh_details m |},
                      sh_score m)
                else st) in H.
    assert (B : fkey (snd st1) <> None /\ SFleb (snd st) (snd st1) = true
                /\ SFleb (sh_score m) (snd st1) = true).
    { unfold st1, fgt. destruct (SFltb (snd st) (sh_score m)) eqn:L; cbn [snd].
      - split; [exact Nm|]. split; [|apply SFleb_refl; exact Nm].
        apply SFltb_fkey in L. destruct L as (a & b & Ea & Eb & L).
        apply SFleb_fkey. exists a, b. auto.
      - split; [exact N|]. split; [apply SFleb_refl; exact N|].
        apply SFltb_false_leb; assumption. }
    destruct B as (N1 & L1 & L2).
    destruct (IH st1 st' (fun o' m' I => P o' m' (or_intror I)) N1 H) as (N' & L' & M' & C').
    split; [exact N'|]. split; [exact (SFleb_trans _ _ _ L1 L')|]. split.
    + intros o' m' [<-|I] E'.
      * assert (m' = m) by congruence. subst m'. exact (SFleb_trans _ _ _ L2 L').
      * exact (M' o' m' I E').
    + destruct C' as [->|(o' & m' & I & E' & ->)].
      * unfold st1. destruct (fgt (sh_score m) (snd st)); [|left; reflexivity].
        right. exists o, m. split; [left; reflexivity|]. split; [exact E | reflexivity].
      * right. exists o', m'. split; [right; exact I|]. split; [exact E' | reflexivity].
Qed.

Lemma scan_settlements_max : forall U street house cands st st',
  (forall c o m, In c cands -> In o (c_offices c) ->
     _match_street_and_house U street house o (c_score c) = Ok m -> fkey (sh_score m) <> None) ->
  fkey (snd st) <> None ->
  scan_settlements U street house cands st = Ok st' ->
  fkey (snd st') <> None
  /\ SFleb (snd st) (snd st') = true
  /\ (forall c o m, In c cands -> In o (c_offices c) ->
        _match_street_and_house U street house o (c_score c) = Ok m ->
        SFleb (sh_score m) (snd st') = true)
  /\ (st' = st
      \/ exists c o m, In c cands /\ In o (c_offices c)
           /\ _match_street_and_house U street house o (c_score c) = Ok m
           /\ st' = (Some {| bm_office := o; bm_settlement_score := c_score c;
                             bm_total_score := sh_score m; bm_details := sh_details m |},
                     sh_score m)).
Proof.
  intros U street house cands. induction cands as [|c cands IH]; intros st st' P N H;
    cbn [scan_settlements] in H.
  - injection H as <-. split; [exact N|]. split; [apply SFleb_refl; exact N|].
    split; [intros c o m []|]. left. reflexivity.
  - destruct (scan_offices U street house (c_score c) (c_offices c) st) as [st1|e] eqn:E;
      cbn [bind] in H; [|discriminate].
    destruct (@scan_offices_max U street house (c_score c) (c_offices c) st st1
                (fun o m I => P c o m (or_introl eq_refl) I) N E) as (N1 & L1 & M1 & C1).
    destruct (IH st1 st' (fun c' o' m' I => P c' o' m' (or_intror I)) N1 H)
      as (N' & L' & M' & C').
    split; [exact N'|]. split; [exact (SFleb_trans _ _ _ L1 L')|]. split.
    + intros c' o' m' [<-|I] Io E'.
      * exact (SFleb_trans _ _ _ (M1 o' m' Io E') L').
      * exact (M' c' o' m' I Io E').
    + destruct C' as [->|(c' & o' & m' & I & Io & E' & ->)].
      * destruct C1 as [->|(o' & m' & Io & E' & ->)]; [left; reflexivity|].
        right. exists c, o', m'. split; [left; reflexivity|]. auto.
      * right. exists c', o', m'. split; [right; exact I|]. auto.
Qed.

(** X6. The best match is the best: on a row and an index of Python
    strings, when the scan ends with a best match, this is an office of a
    candidate, kept with its own composite score and details, and no office
    of any candidate has a higher composite score. *)
Theorem best_match_is_maximal : forall U cache ad bm best,
  sized_row U ad -> sized_cache U cache ->
  scan_settlements U (street ad) (house ad)
    (_find_matching_settlements U cache (settlement ad)) (None, f0_0) = Ok (Some bm, best) ->
  bm_total_score bm = best
  /\ (exists c m, In c (_find_matching_settlements U cache (settlement ad))
        /\ In (bm_office bm) (c_offices c)
        /\ _match_street_and_house U (street ad) (house ad) (bm_office bm) (c_score c) = Ok m
        /\ sh_score m = best /\ bm_settlement_score bm = c_score c
        /\ bm_details bm = sh_details m)
  /\ (forall c o m, In c (_find_matching_settlements U cache (settlement ad)) ->
        In o (c_offices c) ->
        _match_street_and_house U (street ad) (house ad) o (c_score c) = Ok m ->
        fge best (sh_score m) = true).
Proof.
  intros U cache ad bm best Hrow Hcache H.
  assert (P : forall c o m, In c (_find_matching_settlements U cache (settlement ad)) ->
            In o (c_offices c) ->
            _match_street_and_house U (street ad) (house ad) o (c_score c) = Ok m ->
            fkey (sh_score m) <> None).
  { intros c o m Ic Io E.
    destruct (office_score_bounds _ _ Hrow Hcache Ic Io E) as [G _].
    exact (proj2 (SFleb_not_nan _ _ G)). }
  destruct (@scan_settlements_max U (street ad) (house ad) _ (None, f0_0) (Some bm, best) P
              ltac:(discriminate) H) as (_ & _ & M & C).
  destruct C as [C|(c & o & m & Ic & Io & E & C)]; [discriminate|].
  injection C as -> ->. cbn [bm_total_score bm_office bm_settlement_score bm_details].
  split; [reflexivity|]. split.
  - exists c, m. repeat split; assumption.
  - intros c' o' m' Ic' Io' E'. exact (M c' o' m' Ic' Io' E').
Qed.

(** ** Quotients up to 1 *)

Section Quotients.
Local Open Scope Z_scope.

(** the same number written on a finer scale rounds the same *)
Lemma round_val_rescale : forall s V j, s <= -1074 -> 0 < V -> 0 <= j ->
  round_val (s - j) (V * 2 ^ j) = round_val s V.
Proof.
  intros s V j Hs HV Hj. unfold round_val.
  rewrite Zdigits2_shift by lia.
  replace (Zdigits2 V + j + (s - j)) with (Zdigits2 V + s) by lia.
  set (g := fexp64 (Zdigits2 V + s)).
  assert (Hg : -1074 <= g) by (unfold g; rewrite fexp64_eq; lia).
  replace (g - (s - j)) with (g - s + j) by lia.
  rewrite rne_scale by lia. reflexivity.
Qed.

Lemma one_is_rounded : forall s, s <= -1074 -> round_val s (2 ^ (- s)) = f1_0.
Proof.
  intros s Hs.
  replace s with (-1074 - (-1074 - s)) at 1 by lia.
  replace (2 ^ (- s)) with (2 ^ 1074 * 2 ^ (-1074 - s))
    by (rewrite <- Z.pow_add_r by lia; f_equal; lia).
  rewrite round_val_rescale; [| lia | apply Z.pow_pos_nonneg; lia | lia].
  change (2 ^ 1074) with (fval f1_0). apply round_val_id. reflexivity.
Qed.

(** a mantissa below [2^(-e)] is rounded to 1 at most *)
Lemma binary_round_aux_le_one : forall m e l,
  0 <= m -> e <= fexp64 (Zdigits2 m + e) -> e <= 0 -> m <= 2 ^ (- e) ->
  (m = 2 ^ (- e) -> l = loc_Exact) ->
  SFleb (binary_round_aux prec emax false m e l) f1_0 = true.
Proof.
  intros m e l Hm Hn He Hle Hex.
  destruct (Z.eq_dec m (2 ^ (- e))) as [E|NE].
  - rewrite (Hex E).
    assert (Pm : 0 < m) by (rewrite E; apply Z.pow_pos_nonneg; lia).
    rewrite (@binary_round_aux_val (Z.min e (-1074))) by lia.
    rewrite E, <- Z.pow_add_r by lia.
    replace (- e + (e - Z.min e (-1074))) with (- Z.min e (-1074)) by lia.
    rewrite one_is_rounded by lia. reflexivity.
  - assert (Hlt : m < 2 ^ (- e)) by lia.
    change (binary_round_aux prec emax false m e l)
      with (let '(mrs', e') := shr_fexp prec emax m e l in
            finish (round_nearest_even (shr_m mrs') (loc_of_shr_record mrs')) e').
    unfold shr_fexp.
    change (SpecFloat.fexp prec emax (Zdigits2 m + e)) with (fexp64 (Zdigits2 m + e)).
    set (g := fexp64 (Zdigits2 m + e)) in *.
    assert (Hrec : shr_m (shr_record_of_loc m l) = m) by (destruct l as [|[| |]]; reflexivity).
    pose proof (@shr_m_shr (shr_record_of_loc m l) e (g - e) ltac:(lia) ltac:(lia)) as [S1 S2].
    destruct (shr (shr_record_of_loc m l) e (g - e)) as [mrs' e']. cbn [fst snd] in S1, S2.
    rewrite Hrec in S1. replace e' with g by lia.
    set (q := round_nearest_even (shr_m mrs') (loc_of_shr_record mrs')).
    assert (HP : 0 < 2 ^ (g - e)) by (apply Z.pow_pos_nonneg; lia).
    assert (Hq0 : 0 <= m / 2 ^ (g - e)) by (apply Z.div_pos; lia).
    assert (Hq : q = m / 2 ^ (g - e) \/ q = m / 2 ^ (g - e) + 1).
    { unfold q. rewrite <- S1. apply round_nearest_even_cases. }
    assert (D : Zdigits2 m <= - e) by (apply Zdigits2_le; lia).
    assert (Hg : -1074 <= g <= -53) by (unfold g; rewrite fexp64_eq; lia).
    assert (U : m / 2 ^ (g - e) < 2 ^ 53).
    { destruct (Z.eq_dec m 0) as [E0|N0].
      - rewrite E0, Zdiv_0_l. reflexivity.
      - pose proof (@Zdigits2_bounds m ltac:(lia)) as [D1 D2].
        pose proof (@Zdigits2_pos m ltac:(lia)) as Dp.
        apply Z.div_lt_upper_bound; [lia|]. rewrite <- Z.pow_add_r by lia.
        apply Z.lt_le_trans with (2 ^ Zdigits2 m); [exact D2|].
        apply Z.pow_le_mono_r; [lia|]. unfold g. rewrite fexp64_eq. lia. }
    change f1_0 with (out (2 ^ 52) (-52)).
    destruct (Z.eq_dec q (2 ^ 53)) as [E|E].
    + rewrite E, finish_carry by lia. apply out_le; try reflexivity. lia.
    + rewrite finish_out by lia.
      destruct (Z.eq_dec q 0) as [E0|N0].
      * rewrite E0. reflexivity.
      * apply out_le; try reflexivity; lia.
Qed.

Lemma div_core_le_one : forall mx ex my ey,
  valid_binary prec emax (S754_finite false mx ex) = true ->
  valid_binary prec emax (S754_finite false my ey) = true ->
  fval (S754_finite false mx ex) <= fval (S754_finite false my ey) ->
  let '(q, e', l) := SFdiv_core_binary prec emax (Z.pos mx) ex (Z.pos my) ey in
  e' <= 0 /\ q <= 2 ^ (- e') /\ (q = 2 ^ (- e') -> l = loc_Exact).
Proof.
  intros mx ex my ey Vx Vy H. cbn [fval] in H.
  pose proof (valid_exponent _ _ Vx) as Ex. pose proof (valid_exponent _ _ Vy) as Ey.
  change emin64 with (-1074) in H.
  unfold SFdiv_core_binary.
  set (d1 := Zdigits2 (Z.pos mx)). set (d2 := Zdigits2 (Z.pos my)).
  change (SpecFloat.fexp prec emax (d1 + ex - (d2 + ey))) with (fexp64 (d1 + ex - (d2 + ey))).
  set (e' := Z.min (fexp64 (d1 + ex - (d2 + ey))) (ex - ey)).
  set (s := ex - ey - e').
  assert (Hs : 0 <= s) by (unfold s, e'; lia).
  set (m' := match s with Z.pos _ => Z.shiftl (Z.pos mx) s | 0 => Z.pos mx | Z.neg _ => 0 end).
  assert (Em : m' = Z.pos mx * 2 ^ s).
  { unfold m'. destruct s as [|p|p]; [change (2 ^ 0) with 1; lia | | lia].
    apply Z.shiftl_mul_pow2. lia. }
  pose proof (Z_div_mod m' (Z.pos my) ltac:(lia)) as DM.
  destruct (Z.div_eucl m' (Z.pos my)) as [q r]. destruct DM as [DM Br].
  assert (P1 : 0 < Z.pos mx) by lia. assert (P2 : 0 < Z.pos my) by lia.
  pose proof (Zdigits2_bounds P1) as [A1 A2]. pose proof (Zdigits2_bounds P2) as [B1 B2].
  pose proof (Zdigits2_pos P1) as Dp1. pose proof (Zdigits2_pos P2) as Dp2.
  fold d1 in A1, A2, Dp1. fold d2 in B1, B2, Dp2.
  (* the magnitudes are ordered *)
  assert (Hd : d1 + ex <= d2 + ey).
  { assert (L : 2 ^ (d1 - 1 + (ex + 1074)) < 2 ^ (d2 + (ey + 1074))).
    { rewrite (Z.pow_add_r 2 (d1 - 1) (ex + 1074)), (Z.pow_add_r 2 d2 (ey + 1074)) by lia.
      assert (0 < 2 ^ (ex + 1074)) by (apply Z.pow_pos_nonneg; lia).
      assert (0 < 2 ^ (ey + 1074)) by (apply Z.pow_pos_nonneg; lia).
      replace (ex - -1074) with (ex + 1074) in H by lia.
      replace (ey - -1074) with (ey + 1074) in H by lia.
      assert (2 ^ (d1 - 1) * 2 ^ (ex + 1074) <= Z.pos mx * 2 ^ (ex + 1074))
        by (apply Z.mul_le_mono_nonneg_r; lia).
      assert (Z.pos my * 2 ^ (ey + 1074) < 2 ^ d2 * 2 ^ (ey + 1074))
        by (apply Z.mul_lt_mono_pos_r; lia).
      lia. }
    apply Z.pow_lt_mono_r_iff in L; lia. }
  assert (He : e' <= -53) by (unfold e'; rewrite fexp64_eq; lia).
  (* [mx * 2^s <= my * 2^(-e')] *)
  assert (Hq : Z.pos mx * 2 ^ s <= Z.pos my * 2 ^ (- e')).
  { replace (ex - -1074) with (s + (ey + 1074) + e') in H by (unfold s; lia).
    replace (ey - -1074) with (ey + 1074) in H by lia.
    assert (X : 2 ^ (s + (ey + 1074) + e') * 2 ^ (- e') = 2 ^ s * 2 ^ (ey + 1074)).
    { rewrite <- !Z.pow_add_r by (unfold s in *; lia). f_equal. lia. }
    assert (0 < 2 ^ (ey + 1074)) by (apply Z.pow_pos_nonneg; lia).
    assert (0 < 2 ^ (- e')) by (apply Z.pow_pos_nonneg; lia).
    assert (0 < 2 ^ s) by (apply Z.pow_pos_nonneg; lia).
    assert (0 < 2 ^ (s + (ey + 1074) + e')) by (apply Z.pow_pos_nonneg; unfold s; lia).
    nia. }
  assert (PE : 0 < 2 ^ (- e')) by (apply Z.pow_pos_nonneg; lia).
  split; [lia|]. split; [nia|].
  intro E. assert (r = 0) by nia. subst r.
  unfold new_location, new_location_even, new_location_odd.
  destruct (Z.even (Z.pos my)); reflexivity.
Qed.

(** [x / y <= 1.0] when [x <= y] *)
Lemma fdiv_le_one : forall x my ey,
  fin_nonneg x -> valid_binary prec emax (S754_finite false my ey) = true ->
  SFleb x (S754_finite false my ey) = true ->
  SFleb (fdiv x (S754_finite false my ey)) f1_0 = true.
Proof.
  intros x my ey Fx Vy H.
  assert (Fy : fin_nonneg (S754_finite false my ey)) by (split; [exact Vy | exact I]).
  pose proof (SFleb_fval_le Fx Fy H) as Hv.
  destruct Fx as [Vx C]. destruct x as [s|s| |s mx ex]; try contradiction.
  - reflexivity.
  - destruct s; [contradiction|].
    unfold fdiv, SFdiv.
    pose proof (div_core_bound mx ex my ey) as B1.
    pose proof (div_core_le_one mx ex my ey Vx Vy Hv) as B2.
    destruct (SFdiv_core_binary prec emax (Z.pos mx) ex (Z.pos my) ey) as [[q e'] l].
    destruct B1 as [Q0 Qn]. destruct B2 as (He & Hq & Hl). cbn [xorb].
    apply binary_round_aux_le_one; assumption.
Qed.

(** doubling is exact *)
Lemma fmul_two : forall n, 1 <= n <= 2 ^ 63 ->
  fmul (float_of_int n) f2_0 = float_of_int (2 * n).
Proof.
  intros n Hn.
  assert (P63 : 2 ^ 63 = 9223372036854775808) by reflexivity.
  assert (P1074 : 0 < 2 ^ 1074) by (apply Z.pow_pos_nonneg; lia).
  rewrite !float_of_int_val by lia.
  set (V := n * 2 ^ 1074).
  assert (HV : 0 < V) by (unfold V; nia).
  replace (2 * n * 2 ^ 1074) with (V * 2 ^ 1) by (unfold V; change (2 ^ 1) with 2; lia).
  pose proof (@round_val_shape (-1074) V ltac:(lia) HV) as Sh.
  pose proof (@round_val_out (-1074) V ltac:(lia) HV) as Ou.
  pose proof (@round_val_out (-1074) (V * 2 ^ 1) ltac:(lia) ltac:(lia)) as Ou2.
  cbv zeta in Sh, Ou, Ou2.
  rewrite Zdigits2_shift in Ou2 by lia.
  assert (Dn : 1 <= Zdigits2 n <= 64).
  { split; [pose proof (@Zdigits2_pos n ltac:(lia)); lia|].
    apply Zdigits2_le; lia. }
  assert (DV : Zdigits2 V = Zdigits2 n + 1074) by (unfold V; apply Zdigits2_shift; lia).
  assert (Eg : fexp64 (Zdigits2 V + -1074) = Zdigits2 n - 53) by (rewrite fexp64_eq; lia).
  assert (Eg2 : fexp64 (Zdigits2 V + 1 + -1074) = Zdigits2 n - 53 + 1) by (rewrite fexp64_eq; lia).
  rewrite Eg in Sh, Ou. rewrite Eg2 in Ou2.
  set (g := Zdigits2 n - 53) in *.
  replace (g + 1 - -1074) with (g - -1074 + 1) in Ou2 by lia.
  rewrite rne_scale in Ou2 by lia.
  set (q := rne V (g - -1074)) in *.
  destruct Sh as (Hg & Hq & Hnorm).
  (* the mantissa and the exponent of [float(n)] *)
  assert (X : exists qq gg, round_val (-1074) V = out qq gg
                /\ round_val (-1074) (V * 2 ^ 1) = out qq (gg + 1)
                /\ 2 ^ 52 <= qq < 2 ^ 53 /\ -1074 < gg <= 12).
  { destruct (q =? 2 ^ 53) eqn:E.
    - exists (2 ^ 52), (g + 1). rewrite Ou, Ou2. repeat split; try reflexivity; lia.
    - apply Z.eqb_neq in E. exists q, g. rewrite Ou, Ou2.
      repeat split; try reflexivity; lia. }
  destruct X as (qq & gg & E1 & E2 & Bq & Bg).
  rewrite E1, E2.
  assert (Pq : 0 < qq) by (assert (0 < 2 ^ 52) by reflexivity; lia).
  destruct qq as [|mq|mq]; try lia.
  assert (O1 : out (Z.pos mq) gg = S754_finite false mq gg).
  { unfold out. destruct (Z.leb_spec gg (emax - prec)); [reflexivity|].
    change (emax - prec) with 971 in *. lia. }
  assert (O2 : out (Z.pos mq) (gg + 1) = S754_finite false mq (gg + 1)).
  { unfold out. destruct (Z.leb_spec (gg + 1) (emax - prec)); [reflexivity|].
    change (emax - prec) with 971 in *. lia. }
  assert (V1 : valid_binary prec emax (S754_finite false mq gg) = true)
    by (rewrite <- O1; apply out_valid; lia).
  assert (V2 : valid_binary prec emax (S754_finite false mq (gg + 1)) = true)
    by (rewrite <- O2; apply out_valid; lia).
  rewrite O1, O2. unfold f2_0.
  rewrite fmul_round_val; [|exact V1|apply Z.leb_le; reflexivity|lia].
  transitivity (round_val (-1074) (fval (S754_finite false mq (gg + 1))));
    [|apply round_val_id; exact V2].
  cbn [fval]. change emin64 with (-1074).
  replace (Z.pos mq * 2 ^ (gg - -1074) * 4503599627370496)
    with (Z.pos mq * 2 ^ (gg + 1 - -1074) * 2 ^ 51).
  - replace (-1074 + -51) with (-1074 - 51) by lia.
    apply round_val_rescale; [lia | | lia].
    apply Z.mul_pos_pos; [lia|]. apply Z.pow_pos_nonneg; lia.
  - replace (gg + 1 - -1074) with (gg - -1074 + 1) by lia.
    rewrite Z.pow_add_r by lia. change (2 ^ 1) with 2. change (2 ^ 51) with 2251799813685248.
    lia.
Qed.

End Quotients.

(** ** The matching blocks do not overlap *)

Section DifflibBounds.
Import Difflib.
Local Open Scope Z_scope.

Lemma j2len_get_cols : forall blo d j, blo <= j + 1 -> lens_cols blo d ->
  0 <= j2len_get d j <= j - blo + 1.
Proof.
  intros blo d j Hj H. induction H as [|[j' k] d Hk _ IH]; cbn [j2len_get]; [lia|].
  destruct (j' =? j) eqn:E; [|exact IH].
  apply Z.eqb_eq in E. subst j'. exact Hk.
Qed.

Lemma scan_row_cols : forall js blo bhi i j2len newj2len bst,
  lens_cols blo j2len -> lens_cols blo newj2len -> in_cols blo bhi bst ->
  lens_cols blo (fst (scan_row js blo bhi i j2len newj2len bst))
  /\ in_cols blo bhi (snd (scan_row js blo bhi i j2len newj2len bst)).
Proof.
  induction js as [|j js IH]; intros blo bhi i j2len newj2len bst H1 H2 H3;
    cbn [scan_row]; [split; assumption|].
  destruct (j <? blo) eqn:E1; [apply IH; assumption|].
  destruct (bhi <=? j) eqn:E2; [split; assumption|].
  apply Z.ltb_ge in E1. apply Z.leb_gt in E2.
  pose proof (@j2len_get_cols blo j2len (j - 1) ltac:(lia) H1) as Hk.
  apply IH; try assumption.
  - constructor; [cbn [fst snd]; lia | exact H2].
  - destruct (bestsize bst <? j2len_get j2len (j - 1) + 1); [|exact H3].
    unfold in_cols. cbn [bestj bestsize]. lia.
Qed.

Lemma scan_rows_cols : forall a b n i blo bhi j2len bst,
  lens_cols blo j2len -> in_cols blo bhi bst ->
  in_cols blo bhi (scan_rows a b n i blo bhi j2len bst).
Proof.
  induction n as [|n IH]; intros i blo bhi j2len bst H1 H2; cbn [scan_rows]; [exact H2|].
  pose proof (@scan_row_cols (b2j_get b (at_ a i)) blo bhi i j2len [] bst H1
                (Forall_nil _) H2) as [A B].
  destruct (scan_row (b2j_get b (at_ a i)) blo bhi i j2len [] bst) as [newj2len bst'].
  cbn [fst snd] in A, B. apply IH; assumption.
Qed.

Lemma extend_left_cols : forall a b n alo blo hi bst,
  in_cols blo hi bst -> in_cols blo hi (extend_left a b n alo blo bst).
Proof.
  induction n as [|n IH]; intros alo blo hi bst H; cbn [extend_left]; [exact H|].
  destruct (alo <? besti bst); cbn [andb]; [|exact H].
  destruct (blo <? bestj bst) eqn:E1; cbn [andb]; [|exact H].
  destruct (at_ a (besti bst - 1) =? at_ b (bestj bst - 1)); [|exact H].
  apply IH. apply Z.ltb_lt in E1. unfold in_cols in *. cbn [bestj bestsize]. lia.
Qed.

Lemma extend_right_cols : forall a b n ahi bhi blo bst,
  in_cols blo bhi bst -> in_cols blo bhi (extend_right a b n ahi bhi bst).
Proof.
  induction n as [|n IH]; intros ahi bhi blo bst H; cbn [extend_right]; [exact H|].
  destruct (besti bst + bestsize bst <? ahi); cbn [andb]; [|exact H].
  destruct (bestj bst + bestsize bst <? bhi) eqn:E1; cbn [andb]; [|exact H].
  destruct (at_ a (besti bst + bestsize bst) =? at_ b (bestj bst + bestsize bst)); [|exact H].
  apply IH. apply Z.ltb_lt in E1. unfold in_cols in *. cbn [bestj bestsize]. lia.
Qed.

(** the longest match lies inside the window of [b] it was looked for in *)
Lemma find_longest_match_in_cols : forall a b alo ahi blo bhi,
  blo <= bhi -> in_cols blo bhi (find_longest_match a b alo ahi blo bhi).
Proof.
  intros a b alo ahi blo bhi H. unfold find_longest_match.
  apply extend_right_cols, extend_left_cols, scan_rows_cols; [constructor|].
  unfold in_cols. cbn [bestj bestsize]. lia.
Qed.

Lemma block_sizes_snoc : forall acc x, block_sizes (acc ++ [x]) = block_sizes acc + bestsize x.
Proof.
  induction acc as [|y acc IH]; intro x; cbn [app block_sizes fold_right].
  - lia.
  - fold (block_sizes (acc ++ [x])). fold (block_sizes acc). rewrite IH. lia.
Qed.

(** the blocks fit in the rows the work list covers *)
Lemma blocks_loop_rows : forall a b fuel q acc bl,
  Forall window_ok q -> blocks_loop a b fuel q acc = Some bl ->
  block_sizes bl <= block_sizes acc + rows_left q.
Proof.
  induction fuel as [|fuel IH]; intros q acc bl Hq E.
  - destruct q as [|[[[alo ahi] blo] bhi] q]; cbn [blocks_loop] in E; [|discriminate].
    injection E as <-. cbn [rows_left fold_right]. lia.
  - destruct q as [|[[[alo ahi] blo] bhi] q]; cbn [blocks_loop] in E.
    { injection E as <-. cbn [rows_left fold_right]. lia. }
    inversion Hq as [|? ? Hw Hq']; subst. cbn [window_ok] in Hw.
    pose proof (find_longest_match_in_rows a b blo bhi Hw) as [X1 [X2 X3]].
    set (x := find_longest_match a b alo ahi blo bhi) in *.
    cbn [rows_left fold_right]. fold (rows_left q).
    destruct (bestsize x =? 0) eqn:Ek.
    + apply IH in E; [lia | exact Hq'].
    + apply IH in E.
      * rewrite block_sizes_snoc in E.
        destruct ((besti x + bestsize x <? ahi) && (bestj x + bestsize x <? bhi)) eqn:E2;
          destruct ((alo <? besti x) && (blo <? bestj x)) eqn:E1;
          cbn [rows_left fold_right] in E; fold (rows_left q) in E; lia.
      * destruct ((besti x + bestsize x <? ahi) && (bestj x + bestsize x <? bhi)) eqn:E2;
          destruct ((alo <? besti x) && (blo <? bestj x)) eqn:E1;
          repeat (constructor; [cbn [window_ok]; lia|]); exact Hq'.
Qed.

(** and in the columns *)
Lemma blocks_loop_cols : forall a b fuel q acc bl,
  Forall window_ok_b q -> blocks_loop a b fuel q acc = Some bl ->
  block_sizes bl <= block_sizes acc + cols_left q.
Proof.
  induction fuel as [|fuel IH]; intros q acc bl Hq E.
  - destruct q as [|[[[alo ahi] blo] bhi] q]; cbn [blocks_loop] in E; [|discriminate].
    injection E as <-. cbn [cols_left fold_right]. lia.
  - destruct q as [|[[[alo ahi] blo] bhi] q]; cbn [blocks_loop] in E.
    { injection E as <-. cbn [cols_left fold_right]. lia. }
    inversion Hq as [|? ? Hw Hq']; subst. cbn [window_ok_b] in Hw.
    pose proof (find_longest_match_in_cols a b alo ahi Hw) as [X1 [X2 X3]].
    set (x := find_longest_match a b alo ahi blo bhi) in *.
    cbn [cols_left fold_right]. fold (cols_left q).
    destruct (bestsize x =? 0) eqn:Ek.
    + apply IH in E; [lia | exact Hq'].
    + apply IH in E.
      * rewrite block_sizes_snoc in E.
        destruct ((besti x + bestsize x <? ahi) && (bestj x + bestsize x <? bhi)) eqn:E2;
          destruct ((alo <? besti x) && (blo <? bestj x)) eqn:E1;
          cbn [cols_left fold_right] in E; fold (cols_left q) in E; lia.
      * destruct ((besti x + bestsize x <? ahi) && (bestj x + bestsize x <? bhi)) eqn:E2;
          destruct ((alo <? besti x) && (blo <? bestj x)) eqn:E1;
          try (apply andb_prop in E1; destruct E1 as [_ E1]; apply Z.ltb_lt in E1);
          try (apply andb_prop in E2; destruct E2 as [_ E2]; apply Z.ltb_lt in E2);
          repeat (constructor; [cbn [window_ok_b]; lia|]); exact Hq'.
Qed.

(** the matching characters are at most the characters of each string *)
Lemma matches_le : forall a b, matches a b <= zlen a /\ matches a b <= zlen b.
Proof.
  intros a b. unfold matches, get_matching_blocks.
  destruct (blocks_loop a b (2 * List.length a + 1) [(0, zlen a, 0, zlen b)] []) as [bl|] eqn:E;
    [|unfold zlen; lia].
  pose proof E as E'.
  apply blocks_loop_rows in E;
    [|constructor; [cbn [window_ok]; unfold zlen; lia | constructor]].
  apply blocks_loop_cols in E';
    [|constructor; [cbn [window_ok_b]; unfold zlen; lia | constructor]].
  cbn [block_sizes rows_left cols_left fold_right] in E, E'.
  fold (block_sizes bl) in E, E'. fold (block_sizes bl). lia.
Qed.

End DifflibBounds.

(** ** Similarities are between 0 and 1 *)

Section UnitInterval.
Local Open Scope Z_scope.

Lemma ratio_le_one : forall a b, a <> [] -> sized a -> sized b ->
  SFleb (Difflib.ratio a b) f1_0 = true.
Proof.
  intros a b Ha Sa Sb. unfold Difflib.ratio, Difflib.calculate_ratio.
  unfold sized, maxsize in *.
  assert (La : 1 <= Difflib.zlen a).
  { unfold Difflib.zlen. destruct a; [congruence|]. cbn [List.length]. lia. }
  assert (Lb : 0 <= Difflib.zlen b) by (unfold Difflib.zlen; lia).
  pose proof (matches_nonneg a b) as M0. pose proof (matches_le a b) as [M1 M2].
  set (M := Difflib.matches a b) in *. set (L := Difflib.zlen a + Difflib.zlen b) in *.
  destruct (L =? 0) eqn:E; [apply Z.eqb_eq in E; lia|].
  assert (P : 2 ^ 64 = 18446744073709551616) by reflexivity.
  assert (P' : 2 ^ 63 = 9223372036854775808) by reflexivity.
  destruct (@float_of_int_finite L ltac:(lia)) as (m & e & F).
  pose proof (@float_of_int_nonneg L ltac:(lia)) as [VL _].
  rewrite fmul_comm.
  destruct (Z.eq_dec M 0) as [E0|N0].
  - rewrite E0, F. reflexivity.
  - rewrite fmul_two by lia.
    pose proof (@float_of_int_mono (2 * M) L ltac:(lia)) as Le.
    pose proof (@float_of_int_nonneg (2 * M) ltac:(lia)) as [VN _].
    destruct (@float_of_int_finite (2 * M) ltac:(lia)) as (m2 & e2 & F2).
    rewrite F in *. rewrite F2 in *.
    apply fdiv_le_one; [split; [exact VN | exact I] | exact VL | exact Le].
Qed.

Lemma similarity_le_one : forall a b, sized a -> sized b ->
  SFleb (_calculate_similarity a b) f1_0 = true.
Proof.
  intros a b Sa Sb. unfold _calculate_similarity.
  destruct a as [|c a]; [reflexivity|].
  destruct b as [|d b]; [reflexivity|].
  destruct (pstr_eqb (c :: a) (d :: b)); [reflexivity|].
  apply ratio_le_one; [discriminate | assumption | assumption].
Qed.

End UnitInterval.

Lemma house_similarity_le_one : forall U h1 h2 x,
  sized (py_str h1) -> sized (py_str h2) ->
  _calculate_house_similarity U h1 h2 = Ok x -> SFleb x f1_0 = true.
Proof.
  intros U h1 h2 x S1 S2 H. unfold _calculate_house_similarity in H.
  destruct (negb (truthy h1) || negb (truthy h2)).
  { injection H as <-. reflexivity. }
  destruct (method_strip h1) as [s1|e]; cbn [bind] in H; [|discriminate].
  destruct (method_strip h2) as [s2|e]; cbn [bind] in H; [|discriminate].
  destruct (pstr_eqb (lower U s1) (lower U s2)).
  { injection H as <-. reflexivity. }
  destruct (same_number (_extract_house_number U h1) (_extract_house_number U h2)).
  { injection H as <-. reflexivity. }
  injection H as <-. apply similarity_le_one; assumption.
Qed.

(** X7. The similarity of two Python strings is a number between 0.0 and
    1.0, both included: never a NaN, never negative, never above 1. So is
    the similarity of two house numbers, whenever it is returned. *)
Theorem similarity_in_unit_interval : forall U,
  (forall a b, sized a -> sized b ->
     valid_binary prec emax (_calculate_similarity a b) = true
     /\ fge (_calculate_similarity a b) f0_0 = true
     /\ fge f1_0 (_calculate_similarity a b) = true)
  /\ (forall h1 h2 x, sized (py_str h1) -> sized (py_str h2) ->
        _calculate_house_similarity U h1 h2 = Ok x ->
        valid_binary prec emax x = true /\ fge x f0_0 = true /\ fge f1_0 x = true).
Proof.
  intro U. split.
  - intros a b Sa Sb. pose proof (similarity_nonneg Sa Sb) as N.
    split; [exact (proj1 N)|]. split; [exact (zero_le_nonneg N)|].
    exact (similarity_le_one Sa Sb).
  - intros h1 h2 x S1 S2 H. pose proof (house_similarity_nonneg _ _ _ S1 S2 H) as N.
    split; [exact (proj1 N)|]. split; [exact (zero_le_nonneg N)|].
    exact (house_similarity_le_one _ _ _ S1 S2 H).
Qed.

Lemma similarity_in_unit_interval_witness :
  (sized (u "алматы") /\ sized (u "алмата"))
  /\ fge f1_0 (_calculate_similarity (u "алматы") (u "алмата")) = true.
Proof.
  assert (S1 : sized (u "алматы")) by (unfold sized; vm_compute; intro X; discriminate X).
  assert (S2 : sized (u "алмата")) by (unfold sized; vm_compute; intro X; discriminate X).
  exact (conj (conj S1 S2)
           (proj2 (proj2 (proj1 (similarity_in_unit_interval blocks_only) _ _ S1 S2)))).
Defined.

(** ** The bounds of the scores *)

Lemma example_row_sized : sized_row blocks_only example_row.
Proof. unfold sized_row, sized. vm_compute. repeat split; intro X; discriminate X. Qed.

Lemma example_cache_eq : example_cache = [(u "алматы", [example_office])].
Proof. vm_compute. reflexivity. Qed.

Lemma example_cache_sized : sized_cache blocks_only example_cache.
Proof.
  rewrite example_cache_eq. constructor; [|constructor]. cbn [fst snd]. split.
  - unfold sized. vm_compute. intro X; discriminate X.
  - constructor; [|constructor]. unfold sized_office, sized. vm_compute.
    split; intro X; discriminate X.
Qed.

Lemma example_cache_complete : complete_cache example_cache.
Proof.
  rewrite example_cache_eq. constructor; [|constructor]. cbn [snd].
  constructor; [|constructor]. split; [reflexivity|]. vm_compute. discriminate.
Qed.

Lemma example_candidate :
  In {| c_name := u "алматы"; c_offices := [example_office]; c_score := f1_0 |}
     (_find_matching_settlements blocks_only example_cache (settlement example_row)).
Proof. vm_compute. left. reflexivity. Qed.

Lemma sized_cache_key : forall U cache key offs,
  sized_cache U cache -> In (key, offs) cache -> sized key /\ Forall (sized_office U) offs.
Proof.
  intros U cache key offs H I. unfold sized_cache in H. rewrite Forall_forall in H.
  exact (H _ I).
Qed.

(** X8. The candidates of a settlement have a score between 0.9 and 1.0;
    a bucket whose key is the normal form of the settlement asked for, if
    this is not empty, is a candidate with the score 1.0, which no
    candidate exceeds. *)
Theorem exact_settlement_is_top_candidate : forall U cache name,
  sized (_normalize_text U name) -> sized_cache U cache ->
  (forall c, In c (_find_matching_settlements U cache name) ->
     fge (c_score c) SETTLEMENT_MATCH_THRESHOLD = true /\ fge f1_0 (c_score c) = true)
  /\ (forall offs, In (_normalize_text U name, offs) cache -> _normalize_text U name <> [] ->
        In {| c_name := _normalize_text U name; c_offices := offs; c_score := f1_0 |}
           (_find_matching_settlements U cache name)).
Proof.
  intros U cache name Sn Sc. split.
  - intros c Ic. destruct (find_matching_settlements_in _ _ _ _ Ic) as (Icache & Es & G).
    split; [exact G|]. rewrite Es. unfold fge.
    apply similarity_le_one; [exact Sn|]. exact (proj1 (sized_cache_key _ _ Sc Icache)).
  - intros offs I N. unfold _find_matching_settlements.
    apply (Permutation_in _ (Permutation_sym (sort_desc_perm _))).
    assert (G : fge (_calculate_similarity (_normalize_text U name) (_normalize_text U name))
                  SETTLEMENT_MATCH_THRESHOLD = true)
      by (rewrite (similarity_refl N); reflexivity).
    pose proof (settlement_matches_intro (_normalize_text U name) cache _ _ I G) as X.
    rewrite (similarity_refl N) in X. exact X.
Qed.

Lemma exact_settlement_is_top_candidate_witness :
  (sized (_normalize_text blocks_only (PStr (u "г. Алматы")))
   /\ sized_cache blocks_only example_cache
   /\ In (_normalize_text blocks_only (PStr (u "г. Алматы")), [example_office]) example_cache
   /\ _normalize_text blocks_only (PStr (u "г. Алматы")) <> [])
  /\ In {| c_name := _normalize_text blocks_only (PStr (u "г. Алматы"));
           c_offices := [example_office]; c_score := f1_0 |}
        (_find_matching_settlements blocks_only example_cache (PStr (u "г. Алматы"))).
Proof.
  assert (S : sized (_normalize_text blocks_only (PStr (u "г. Алматы"))))
    by (unfold sized; vm_compute; intro X; discriminate X).
  assert (I : In (_normalize_text blocks_only (PStr (u "г. Алматы")), [example_office])
                example_cache) by (vm_compute; left; reflexivity).
  assert (N : _normalize_text blocks_only (PStr (u "г. Алматы")) <> [])
    by (vm_compute; discriminate).
  exact (conj (conj S (conj example_cache_sized (conj I N)))
           (proj2 (@exact_settlement_is_top_candidate blocks_only example_cache
                     (PStr (u "г. Алматы")) S example_cache_sized) _ I N)).
Defined.

Lemma total_score_mono_settlement : forall s s' st h,
  nonneg s -> nonneg s' -> nonneg st -> nonneg h -> SFleb s s' = true ->
  SFleb (total_score s st h) (total_score s' st h) = true.
Proof.
  intros s s' st h Hs Hs' Hst Hh H. unfold total_score.
  apply fadd_mono_l; try (apply fadd_nonneg); try (apply weighted_nonneg; assumption).
  apply fadd_mono_l; try (apply weighted_nonneg; assumption).
  apply fmul_mono; try assumption; apply Z.leb_le; reflexivity.
Qed.

Lemma one_nonneg : nonneg f1_0.
Proof. split; [reflexivity | exact I]. Qed.

Lemma total_score_le : forall s st h, nonneg s -> nonneg st -> nonneg h ->
  SFleb s f1_0 = true -> SFleb st f1_0 = true -> SFleb h f1_0 = true ->
  SFleb (total_score s st h) f1_3 = true.
Proof.
  intros s st h Hs Hst Hh L1 L2 L3.
  change f1_3 with (total_score f1_0 f1_0 f1_0).
  eapply SFleb_trans; [apply (total_score_mono_settlement Hs one_nonneg Hst Hh L1)|].
  eapply SFleb_trans; [apply (total_score_mono_street one_nonneg Hst one_nonneg Hh L2)|].
  apply (total_score_mono_house one_nonneg one_nonneg Hh one_nonneg L3).
Qed.

(** X9. On a row and an index of Python strings the composite score of
    every office of every candidate lies between 0.27 and 1.3, and its two
    components, the street and the house similarity, between 0 and 1. *)
Theorem composite_score_bounds : forall U cache ad c o m,
  sized_row U ad -> sized_cache U cache ->
  In c (_find_matching_settlements U cache (settlement ad)) -> In o (c_offices c) ->
  _match_street_and_house U (street ad) (house ad) o (c_score c) = Ok m ->
  fge (sh_score m) f0_27 = true /\ fge f1_3 (sh_score m) = true
  /\ fge (sh_street_similarity m) f0_0 = true /\ fge f1_0 (sh_street_similarity m) = true
  /\ fge (sh_house_similarity m) f0_0 = true /\ fge f1_0 (sh_house_similarity m) = true.
Proof.
  intros U cache ad c o m Hrow Hcache Ic Io E.
  destruct (office_score_bounds _ _ Hrow Hcache Ic Io E) as [G _].
  destruct Hrow as (Rs & Rst & Rh).
  destruct (find_matching_settlements_in _ _ _ _ Ic) as (Icache & Es & _).
  destruct (sized_cache_key _ _ Hcache Icache) as [Sk So].
  rewrite Forall_forall in So. destruct (So _ Io) as [Sos Soh].
  destruct (match_street_and_house_fields _ _ _ _ _ E) as (F1 & F2 & F3).
  assert (Ns : nonneg (c_score c)) by (rewrite Es; apply similarity_nonneg; assumption).
  assert (Ls : SFleb (c_score c) f1_0 = true)
    by (rewrite Es; apply similarity_le_one; assumption).
  assert (Nst : nonneg (sh_street_similarity m))
    by (rewrite F2; apply similarity_nonneg; assumption).
  assert (Lst : SFleb (sh_street_similarity m) f1_0 = true)
    by (rewrite F2; apply similarity_le_one; assumption).
  assert (Nh : nonneg (sh_house_similarity m))
    by (exact (house_similarity_nonneg _ _ _ Rh Soh F3)).
  assert (Lh : SFleb (sh_house_similarity m) f1_0 = true)
    by (exact (house_similarity_le_one _ _ _ Rh Soh F3)).
  split; [exact G|]. split.
  - unfold fge. rewrite F1. apply total_score_le; assumption.
  - repeat split; unfold fge; try assumption; apply zero_le_nonneg; assumption.
Qed.

Lemma composite_score_bounds_witness :
  (sized_row blocks_only example_row /\ sized_cache blocks_only example_cache
   /\ In {| c_name := u "алматы"; c_offices := [example_office]; c_score := f1_0 |}
        (_find_matching_settlements blocks_only example_cache (settlement example_row))
   /\ In example_office [example_office]
   /\ _match_street_and_house blocks_only (street example_row) (house example_row)
        example_office f1_0
      = Ok {| sh_score := f1_3; sh_street_similarity := f1_0; sh_house_similarity := f1_0;
              sh_details := u "Найден: Алматы, ул. Абая, 150 (улица: 1.00, дом: 1.00)" |})
  /\ fge f1_3 f1_3 = true.
Proof.
  assert (Io : In example_office [example_office]) by (left; reflexivity).
  assert (E : _match_street_and_house blocks_only (street example_row) (house example_row)
                example_office f1_0
              = Ok {| sh_score := f1_3; sh_street_similarity := f1_0;
                      sh_house_similarity := f1_0;
                      sh_details := u "Найден: Алматы, ул. Абая, 150 (улица: 1.00, дом: 1.00)" |})
    by (vm_compute; reflexivity).
  exact (conj (conj example_row_sized (conj example_cache_sized (conj example_candidate
                 (conj Io E))))
           (proj1 (proj2 (@composite_score_bounds blocks_only example_cache example_row
                            {| c_name := u "алматы"; c_offices := [example_office];
                               c_score := f1_0 |}
                            example_office _ example_row_sized example_cache_sized
                            example_candidate Io E)))).
Defined.

Lemma example_scan :
  scan_settlements blocks_only (street example_row) (house example_row)
    (_find_matching_settlements blocks_only example_cache (settlement example_row))
    (None, f0_0) = Ok (Some example_best_match, f1_3).
Proof. vm_compute. reflexivity. Qed.

Lemma best_match_is_maximal_witness :
  (sized_row blocks_only example_row /\ sized_cache blocks_only example_cache
   /\ scan_settlements blocks_only (street example_row) (house example_row)
        (_find_matching_settlements blocks_only example_cache (settlement example_row))
        (None, f0_0) = Ok (Some example_best_match, f1_3))
  /\ bm_total_score example_best_match = f1_3.
Proof.
  exact (conj (conj example_row_sized (conj example_cache_sized example_scan))
           (proj1 (@best_match_is_maximal blocks_only example_cache example_row
                     example_best_match f1_3 example_row_sized example_cache_sized
                     example_scan))).
Defined.

(** ** An address of the index *)

Lemma scan_settlements_complete : forall U cache ad,
  text_row ad -> complete_cache cache ->
  exists st, scan_settlements U (street ad) (house ad)
               (_find_matching_settlements U cache (settlement ad)) (None, f0_0) = Ok st.
Proof.
  intros U cache ad T Hc. apply scan_settlements_ok; [exact T|].
  apply Forall_forall. intros c Ic.
  destruct (find_matching_settlements_in _ _ _ _ Ic) as (Icache & _).
  unfold complete_cache in Hc. rewrite Forall_forall in Hc. exact (Hc _ Icache).
Qed.

(** X10. An address of the index is confirmed: when the settlement of a row
    has the normal form of a key of the index, and an office of that bucket
    has a street with the normal form of the row's street and a house
    number equal to the row's after trimming and lower-casing, none of them
    empty, the status of the row is 'Да'. *)
Theorem address_of_the_index_is_confirmed : forall U cache ad offs o h h',
  sized_row U ad -> sized_cache U cache -> complete_cache cache ->
  In (_normalize_text U (settlement ad), offs) cache -> In o offs ->
  _normalize_text U (settlement ad) <> [] ->
  _normalize_text U (street ad) = _normalize_text U (dict_get o (u "street") (PStr [])) ->
  _normalize_text U (street ad) <> [] ->
  house ad = PStr h -> dict_get o (u "house") (PStr []) = PStr h' ->
  h <> [] -> h' <> [] -> lower U (strip h) = lower U (strip h') ->
  r_status (match_address U cache ad) = status_yes.
Proof.
  intros U cache ad offs o h h' Hrow Hcache Hc Ik Io Nk Es Ns Eh Eh' Nh Nh' El.
  assert (T : text_row ad) by (unfold text_row; rewrite Eh; reflexivity).
  set (c := {| c_name := _normalize_text U (settlement ad); c_offices := offs; c_score := f1_0 |}).
  assert (Ic : In c (_find_matching_settlements U cache (settlement ad))).
  { unfold _find_matching_settlements.
    apply (Permutation_in _ (Permutation_sym (sort_desc_perm _))).
    assert (G : fge (_calculate_similarity (_normalize_text U (settlement ad))
                       (_normalize_text U (settlement ad))) SETTLEMENT_MATCH_THRESHOLD = true)
      by (rewrite (similarity_refl Nk); reflexivity).
    pose proof (settlement_matches_intro (_normalize_text U (settlement ad)) cache _ _ Ik G) as X.
    rewrite (similarity_refl Nk) in X. exact X. }
  (* the score of the office *)
  assert (Hh : _calculate_house_similarity U (house ad) (dict_get o (u "house") (PStr []))
               = Ok f1_0).
  { rewrite Eh, Eh'. unfold _calculate_house_similarity.
    destruct h as [|x h]; [congruence|]. destruct h' as [|x' h']; [congruence|].
    cbn [truthy negb orb method_strip bind]. rewrite El, pstr_eqb_refl. reflexivity. }
  assert (Hcomp : complete_office o).
  { unfold complete_cache in Hc. rewrite Forall_forall in Hc.
    pose proof (Hc _ Ik) as F. cbn [snd] in F. rewrite Forall_forall in F. exact (F _ Io). }
  destruct (@match_street_and_house_ok U (street ad) (house ad) o f1_0 T Hcomp) as [m E].
  destruct (match_street_and_house_fields _ _ _ _ _ E) as (F1 & F2 & F3).
  assert (Sm : sh_score m = f1_3).
  { rewrite F1, F2, <- Es, (similarity_refl Ns).
    rewrite Hh in F3. injection F3 as <-. reflexivity. }
  (* the scan *)
  destruct (scan_settlements_complete U T Hc) as [st Sc].
  assert (P : forall c' o' m', In c' (_find_matching_settlements U cache (settlement ad)) ->
            In o' (c_offices c') ->
            _match_street_and_house U (street ad) (house ad) o' (c_score c') = Ok m' ->
            fge (sh_score m') f0_27 = true /\ fgt (sh_score m') f0_0 = true).
  { intros c' o' m' Ic' Io' E'. exact (office_score_bounds _ _ Hrow Hcache Ic' Io' E'). }
  destruct st as [[bm|] best].
  - assert (N : forall c' o' m', In c' (_find_matching_settlements U cache (settlement ad)) ->
              In o' (c_offices c') ->
              _match_street_and_house U (street ad) (house ad) o' (c_score c') = Ok m' ->
              fkey (sh_score m') <> None).
    { intros c' o' m' Ic' Io' E'.
      exact (proj2 (SFleb_not_nan _ _ (proj1 (P c' o' m' Ic' Io' E')))). }
    destruct (@scan_settlements_max U (street ad) (house ad) _ (None, f0_0) (Some bm, best) N
                ltac:(discriminate) Sc) as (_ & _ & M & C).
    pose proof (M c o m Ic Io E) as L. cbn [snd] in L. rewrite Sm in L.
    destruct C as [C|(c' & o' & m' & _ & _ & _ & C)]; [discriminate|].
    injection C as -> Eb.
    unfold match_address, match_address_try.
    destruct (_find_matching_settlements U cache (settlement ad)) as [|c0 cands];
      [destruct Ic|].
    rewrite Sc. cbn [bind fst]. unfold _determine_status. cbn [r_status bm_total_score].
    assert (G : fge (sh_score m') f0_9 = true).
    { unfold fge. rewrite <- Eb. apply SFleb_trans with f1_3; [reflexivity | exact L]. }
    rewrite G. reflexivity.
  - exfalso.
    pose proof (@scan_settlements_none U (street ad) (house ad) _ (None, best)
                  (fun c' o' m' I1 I2 E' => proj2 (P c' o' m' I1 I2 E')) Sc) as X.
    cbn [fst] in X. pose proof (proj1 X eq_refl c Ic) as B. cbn [c_offices c] in B.
    subst offs. destruct Io.
Qed.

Lemma address_of_the_index_is_confirmed_witness :
  (sized_row blocks_only example_row /\ sized_cache blocks_only example_cache
   /\ complete_cache example_cache
   /\ In (_normalize_text blocks_only (settlement example_row), [example_office]) example_cache
   /\ In example_office [example_office]
   /\ _normalize_text blocks_only (settlement example_row) <> []
   /\ _normalize_text blocks_only (street example_row)
      = _normalize_text blocks_only (dict_get example_office (u "street") (PStr []))
   /\ _normalize_text blocks_only (street example_row) <> []
   /\ house example_row = PStr (u "150")
   /\ dict_get example_office (u "house") (PStr []) = PStr (u "150")
   /\ u "150" <> [] /\ lower blocks_only (strip (u "150")) = lower blocks_only (strip (u "150")))
  /\ r_status (match_address blocks_only example_cache example_row) = status_yes.
Proof.
  assert (Ik : In (_normalize_text blocks_only (settlement example_row), [example_office])
                 example_cache) by (vm_compute; left; reflexivity).
  assert (Io : In example_office [example_office]) by (left; reflexivity).
  assert (Nk : _normalize_text blocks_only (settlement example_row) <> [])
    by (vm_compute; discriminate).
  assert (Es : _normalize_text blocks_only (street example_row)
               = _normalize_text blocks_only (dict_get example_office (u "street") (PStr [])))
    by (vm_compute; reflexivity).
  assert (Ns : _normalize_text blocks_only (street example_row) <> [])
    by (vm_compute; discriminate).
  assert (Eh : house example_row = PStr (u "150")) by reflexivity.
  assert (Eh' : dict_get example_office (u "house") (PStr []) = PStr (u "150"))
    by (vm_compute; reflexivity).
  assert (Nh : u "150" <> []) by (vm_compute; discriminate).
  assert (El : lower blocks_only (strip (u "150")) = lower blocks_only (strip (u "150")))
    by reflexivity.
  exact (conj (conj example_row_sized (conj example_cache_sized (conj example_cache_complete
                 (conj Ik (conj Io (conj Nk (conj Es (conj Ns (conj Eh (conj Eh'
                 (conj Nh El)))))))))))
           (@address_of_the_index_is_confirmed blocks_only example_cache example_row
              [example_office] example_office (u "150") (u "150")
              example_row_sized example_cache_sized example_cache_complete
              Ik Io Nk Es Ns Eh Eh' Nh Nh El)).
Defined.

(** ** Trimmed strings *)

Lemma lstrip_idem : forall s, lstrip (lstrip s) = lstrip s.
Proof.
  induction s as [|c s IH]; [reflexivity|]. cbn [lstrip].
  destruct (isspace c) eqn:E; [exact IH|]. cbn [lstrip]. rewrite E. reflexivity.
Qed.

Lemma lstrip_rstrip : forall t, lstrip t = t -> lstrip (rstrip t) = rstrip t.
Proof.
  intros t H. destruct t as [|c t]; [reflexivity|].
  cbn [lstrip] in H. destruct (isspace c) eqn:E.
  - exfalso. pose proof (lstrip_length t) as L. rewrite H in L. cbn [List.length] in L. lia.
  - rewrite (rstrip_cons_nonspace _ _ E). cbn [lstrip]. rewrite E. reflexivity.
Qed.

Lemma strip_trimmed : forall s, lstrip (strip s) = strip s /\ rstrip (strip s) = strip s.
Proof.
  intro s. split.
  - unfold strip. apply lstrip_rstrip. apply lstrip_idem.
  - apply no_trailing_ws_rstrip. apply strip_no_trailing_ws.
Qed.

Lemma strip_idem : forall s, strip (strip s) = strip s.
Proof.
  intro s. destruct (strip_trimmed s) as [A B]. unfold strip at 1. rewrite A. exact B.
Qed.

(** X11. The normal form of a text has no white space at its start or at
    its end; so has no key of the index. *)
Theorem normalized_text_is_trimmed : forall U,
  (forall text, lstrip (_normalize_text U text) = _normalize_text U text
                /\ rstrip (_normalize_text U text) = _normalize_text U text)
  /\ (forall offices_data key, In key (map fst (_prepare_search_cache U offices_data)) ->
        strip key = key).
Proof.
  intro U.
  assert (A : forall text, lstrip (_normalize_text U text) = _normalize_text U text
                           /\ rstrip (_normalize_text U text) = _normalize_text U text).
  { intro text. unfold _normalize_text. destruct (negb (truthy text)); [split; reflexivity|].
    apply strip_trimmed. }
  split; [exact A|].
  intros offices_data key H.
  assert (G : forall data acc,
            (forall k, In k (map fst acc) -> strip k = k) ->
            forall k, In k (map fst (fold_left (fun cache '(settlement, offices) =>
                         cache_extend cache (_normalize_text U (PStr settlement)) offices)
                       data acc)) -> strip k = k).
  { induction data as [|[s offs] data IH]; intros acc Hacc k Hk; cbn [fold_left] in Hk.
    - exact (Hacc k Hk).
    - apply (IH _ ) in Hk; [exact Hk|]. intros k' Hk'.
      destruct (cache_extend_in_keys _ _ _ _ Hk') as [->|I]; [|exact (Hacc k' I)].
      destruct (A (PStr s)) as [L R]. unfold strip. rewrite L. exact R. }
  exact (G offices_data [] (fun k (I : In k []) => match I with end) key H).
Qed.

(** ** The cleaned fields of a scraped address *)

Lemma street_prefix_nil : forall U, re_match (street_prefix_re U) [] = None.
Proof. intro U. reflexivity. Qed.

Lemma street_prefix_added : forall U s,
  re_match (street_prefix_re U) (u "пр. " ++ s) <> None
  /\ re_match (street_prefix_re U) (u "мкр. " ++ s) <> None
  /\ re_match (street_prefix_re U) (u "ул. " ++ s) <> None.
Proof. intros U s. repeat split; vm_compute; discriminate. Qed.

Lemma clean_street_name_some : forall U street,
  exists r, _clean_street_name U street = Some r
            /\ r <> [] /\ re_match (street_prefix_re U) r <> None
            /\ nonempty (_clean_street_name U street) = true.
Proof.
  intros U street. unfold _clean_street_name.
  destruct (re_match (street_prefix_re U) (strip street)) as [[e caps]|] eqn:M.
  - destruct (strip street) as [|c s].
    + rewrite street_prefix_nil in M. discriminate.
    + exists (c :: s). rewrite M. repeat split; discriminate.
  - destruct (street_prefix_added U (strip street)) as (P1 & P2 & P3).
    destruct (existsb _ [u "проспект"; u "avenue"]).
    + exists (u "пр. " ++ strip street). repeat split; try exact P1; discriminate.
    + destruct (existsb _ [u "микрорайон"; u "мкр"]).
      * exists (u "мкр. " ++ strip street). repeat split; try exact P2; discriminate.
      * exists (u "ул. " ++ strip street). repeat split; try exact P3; discriminate.
Qed.

(** X12. [_clean_street_name] returns a street for every input, the empty
    one included: a string that is not empty and begins with one of the
    abbreviations ул., пр., мкр. in some case. In the loop of the parser the
    test [settlement and street and house] can therefore only fail on the
    settlement or on the house. *)
Theorem clean_street_name_is_prefixed : forall U street,
  exists r, _clean_street_name U street = Some r
            /\ r <> [] /\ re_match (street_prefix_re U) r <> None
            /\ nonempty (_clean_street_name U street) = true.
Proof.
  intros U street. unfold _clean_street_name.
  destruct (re_match (street_prefix_re U) (strip street)) as [[e caps]|] eqn:M.
  - destruct (strip street) as [|c s].
    + rewrite street_prefix_nil in M. discriminate.
    + exists (c :: s). rewrite M. repeat split; discriminate.
  - destruct (street_prefix_added U (strip street)) as (P1 & P2 & P3).
    destruct (existsb _ [u "проспект"; u "avenue"]).
    + exists (u "пр. " ++ strip street). repeat split; try exact P1; discriminate.
    + destruct (existsb _ [u "микрорайон"; u "мкр"]).
      * exists (u "мкр. " ++ strip street). repeat split; try exact P2; discriminate.
      * exists (u "ул. " ++ strip street). repeat split; try exact P3; discriminate.
Qed.

Lemma clean_settlement_name_trimmed : forall U s r,
  _clean_settlement_name U s = Some r -> strip r = r.
Proof.
  intros U s r H. unfold _clean_settlement_name in H.
  destruct (re_sub_empty (settlement_prefix_re U) (strip s)); [discriminate|].
  injection H as <-. apply strip_idem.
Qed.

Lemma clean_house_number_trimmed : forall U s r,
  _clean_house_number U s = Some r -> strip r = r.
Proof.
  intros U s r H. unfold _clean_house_number in H.
  destruct (re_sub_empty (house_prefix_re U) (strip s)); [discriminate|].
  injection H as <-. apply strip_idem.
Qed.

Lemma try_pattern_fields : forall U p clean r,
  try_pattern U p clean = Some r ->
  pa_settlement r <> [] /\ pa_street r <> [] /\ pa_house r <> []
  /\ strip (pa_settlement r) = pa_settlement r /\ strip (pa_house r) = pa_house r
  /\ re_match (street_prefix_re U) (pa_street r) <> None.
Proof.
  intros U p clean r H. unfold try_pattern in H.
  destruct (re_search p clean) as [[[b e] caps]|]; [|discriminate].
  destruct (_clean_settlement_name U (strip (group_text 1 caps))) as [[|c1 s1]|] eqn:E1;
    try discriminate.
  destruct (clean_street_name_some U (strip (group_text 2 caps))) as (st & E2 & N2 & P2 & _).
  rewrite E2 in H. destruct st as [|c2 s2]; [congruence|].
  destruct (_clean_house_number U (strip (group_text 3 caps))) as [[|c3 s3]|] eqn:E3;
    try discriminate.
  injection H as <-. cbn [pa_settlement pa_street pa_house].
  repeat split; try discriminate.
  - exact (clean_settlement_name_trimmed _ _ E1).
  - exact (clean_house_number_trimmed _ _ E3).
  - exact P2.
Qed.

Lemma extract_office_data_some : forall U c o,
  _extract_office_data U c = Some o ->
  exists text r, c = Some text /\ text <> []
    /\ _parse_address_string U text = Some r
    /\ o = [(u "full_address", PStr text); (u "settlement", PStr (pa_settlement r));
            (u "street", PStr (pa_street r)); (u "house", PStr (pa_house r))].
Proof.
  intros U c o H. unfold _extract_office_data in H.
  destruct c as [[|x text]|]; try discriminate.
  destruct (_parse_address_string U (x :: text)) as [r|] eqn:E; [|discriminate].
  injection H as <-. exists (x :: text), r. repeat split; [discriminate | exact E].
Qed.

Lemma parsed_office_lookups : forall text se st ho,
  let o := [(u "full_address", PStr text); (u "settlement", PStr se);
            (u "street", PStr st); (u "house", PStr ho)] in
  dict_lookup o (u "settlement") = Some (PStr se)
  /\ dict_lookup o (u "street") = Some (PStr st)
  /\ dict_lookup o (u "house") = Some (PStr ho)
  /\ dict_lookup o (u "full_address") = Some (PStr text).
Proof. intros text se st ho. vm_compute. repeat split. Qed.

Lemma extract_office_data_fields : forall U c o,
  _extract_office_data U c = Some o ->
  exists text se st ho,
    c = Some text
    /\ o = [(u "full_address", PStr text); (u "settlement", PStr se);
            (u "street", PStr st); (u "house", PStr ho)]
    /\ se <> [] /\ st <> [] /\ ho <> []
    /\ strip se = se /\ strip ho = ho
    /\ re_match (street_prefix_re U) st <> None
    /\ complete_office o.
Proof.
  intros U c o H. destruct (extract_office_data_some _ _ H) as (text & r & Ec & Nt & Ep & Eo).
  unfold _parse_address_string in Ep. apply parse_loop_some in Ep.
  destruct Ep as (before & p & after & _ & _ & T).
  destruct (try_pattern_fields _ _ _ T) as (N1 & N2 & N3 & S1 & S3 & P2).
  exists text, (pa_settlement r), (pa_street r), (pa_house r).
  repeat split; try assumption.
  - subst o. unfold dict_get.
    rewrite (proj1 (proj2 (proj2 (parsed_office_lookups text (pa_settlement r) (pa_street r)
                                    (pa_house r))))).
    reflexivity.
  - subst o. rewrite (proj1 (parsed_office_lookups text (pa_settlement r) (pa_street r)
                              (pa_house r))). discriminate.
Qed.

(** X13. An office record the parser extracts from a container has the four
    fields, all strings: the text of the container, a settlement and a house
    number that are trimmed and not empty, and a street that begins with
    ул., пр. or мкр.; so it has all that [match_address] reads of an office. *)
Theorem extracted_office_is_well_formed : forall U c o,
  _extract_office_data U c = Some o ->
  exists text se st ho,
    c = Some text
    /\ o = [(u "full_address", PStr text); (u "settlement", PStr se);
            (u "street", PStr st); (u "house", PStr ho)]
    /\ se <> [] /\ st <> [] /\ ho <> []
    /\ strip se = se /\ strip ho = ho
    /\ re_match (street_prefix_re U) st <> None
    /\ complete_office o.
Proof.
  intros U c o H. destruct (extract_office_data_some _ _ H) as (text & r & Ec & Nt & Ep & Eo).
  unfold _parse_address_string in Ep. apply parse_loop_some in Ep.
  destruct Ep as (before & p & after & _ & _ & T).
  destruct (try_pattern_fields _ _ _ T) as (N1 & N2 & N3 & S1 & S3 & P2).
  exists text, (pa_settlement r), (pa_street r), (pa_house r).
  repeat split; try assumption.
  - subst o. unfold dict_get.
    rewrite (proj1 (proj2 (proj2 (parsed_office_lookups text (pa_settlement r) (pa_street r)
                                    (pa_house r))))).
    reflexivity.
  - subst o. rewrite (proj1 (parsed_office_lookups text (pa_settlement r) (pa_street r)
                              (pa_house r))). discriminate.
Qed.

Lemma extracted_office_is_well_formed_witness :
  _extract_office_data blocks_only (Some (u "г. Алматы, ул. Абая, д. 150")) = Some example_office
  /\ exists text se st ho,
       Some (u "г. Алматы, ул. Абая, д. 150") = Some text
       /\ example_office = [(u "full_address", PStr text); (u "settlement", PStr se);
                            (u "street", PStr st); (u "house", PStr ho)]
       /\ se <> [] /\ st <> [] /\ ho <> []
       /\ strip se = se /\ strip ho = ho
       /\ re_match (street_prefix_re blocks_only) st <> None
       /\ complete_office example_office.
Proof.
  assert (H : _extract_office_data blocks_only (Some (u "г. Алматы, ул. Абая, д. 150"))
              = Some example_office) by (vm_compute; reflexivity).
  exact (conj H (@extracted_office_is_well_formed blocks_only _ _ H)).
Defined.

(** ** The scraped database *)

Lemma db_append_extend : forall db key o, db_append db key o = cache_extend db key [o].
Proof.
  induction db as [|[k os] db IH]; intros key o; cbn [db_append cache_extend]; [reflexivity|].
  destruct (pstr_eqb k key); [reflexivity|]. rewrite IH. reflexivity.
Qed.

Lemma count_offices_length : forall db, count_offices db = Z.of_nat (List.length (flat_map snd db)).
Proof.
  induction db as [|[k os] db IH]; [reflexivity|].
  cbn [count_offices fold_right flat_map snd]. fold (count_offices db).
  rewrite IH, length_app. lia.
Qed.

Lemma count_offices_append : forall db key o,
  count_offices (db_append db key o) = (count_offices db + 1)%Z.
Proof.
  intros db key o. rewrite !count_offices_length, db_append_extend.
  rewrite (Permutation_length (cache_extend_offices db key [o])), length_app.
  cbn [List.length]. lia.
Qed.

Lemma well_filed_append : forall U db s o,
  well_filed U db -> complete_office o -> dict_lookup o (u "settlement") = Some (PStr s) ->
  well_filed U (db_append db (lower U s) o).
Proof.
  intros U db s o [Hk Hb] Co Es. rewrite db_append_extend. split.
  - apply cache_extend_keys. exact Hk.
  - apply Forall_forall. intros entry I. rewrite Forall_forall in Hb.
    assert (Fo : complete_office o /\ filed_under U (lower U s) o)
      by (split; [exact Co | exists s; split; [exact Es | reflexivity]]).
    destruct (cache_extend_in _ _ _ _ I) as [I'|[Ek [Es'|(old & Io & Es')]]].
    + exact (Hb _ I').
    + rewrite Es', Ek. split; [discriminate|]. constructor; [exact Fo | constructor].
    + rewrite Es', Ek. split; [destruct old; discriminate|].
      apply Forall_app. split; [|constructor; [exact Fo | constructor]].
      exact (proj2 (Hb _ Io)).
Qed.

(** X14. Adding an office files it at the end of the bucket of its
    lower-cased settlement, which is created when it is not there, and
    leaves the other buckets as they are; the keys stay distinct. A record
    without a settlement raises [KeyError], one whose settlement is not a
    string [AttributeError]. *)
Theorem add_office_files_under_settlement : forall U db o,
  (dict_lookup o (u "settlement") = None ->
   _add_office_to_database U db o = Raise (KeyError (u "settlement")))
  /\ (forall v, dict_lookup o (u "settlement") = Some v -> is_text v = false ->
        _add_office_to_database U db o = Raise (no_attribute v (u "lower")))
  /\ (forall s, dict_lookup o (u "settlement") = Some (PStr s) ->
        exists db', _add_office_to_database U db o = Ok db'
          /\ cache_lookup db' (lower U s)
             = Some (match cache_lookup db (lower U s) with
                     | Some os => os ++ [o]
                     | None => [o]
                     end)
          /\ (forall key, key <> lower U s -> cache_lookup db' key = cache_lookup db key)
          /\ (NoDup (map fst db) -> NoDup (map fst db'))
          /\ count_offices db' = (count_offices db + 1)%Z).
Proof.
  intros U db o. unfold _add_office_to_database, dict_getitem. repeat split.
  - intro H. rewrite H. reflexivity.
  - intros v H N. rewrite H. cbn [bind]. destruct v; try discriminate; reflexivity.
  - intros s H. rewrite H. cbn [bind method_lower].
    exists (db_append db (lower U s) o). split; [reflexivity|].
    rewrite db_append_extend. repeat split.
    + rewrite cache_lookup_extend, pstr_eqb_refl. reflexivity.
    + intros key N. rewrite cache_lookup_extend.
      destruct (pstr_eqb (lower U s) key) eqn:E; [|reflexivity].
      apply pstr_eqb_eq in E. congruence.
    + apply cache_extend_keys.
    + rewrite <- db_append_extend. apply count_offices_append.
Qed.

Lemma add_office_files_under_settlement_witness :
  dict_lookup example_office (u "settlement") = Some (PStr (u "Алматы"))
  /\ exists db', _add_office_to_database blocks_only [] example_office = Ok db'
       /\ cache_lookup db' (lower blocks_only (u "Алматы"))
          = Some (match cache_lookup [] (lower blocks_only (u "Алматы")) with
                  | Some os => os ++ [example_office]
                  | None => [example_office]
                  end)
       /\ (forall key, key <> lower blocks_only (u "Алматы") ->
             cache_lookup db' key = cache_lookup [] key)
       /\ (NoDup (map fst (@nil (pstr * list office))) -> NoDup (map fst db'))
       /\ count_offices db' = (count_offices [] + 1)%Z.
Proof.
  assert (H : dict_lookup example_office (u "settlement") = Some (PStr (u "Алматы")))
    by (vm_compute; reflexivity).
  exact (conj H (proj2 (proj2 (add_office_files_under_settlement blocks_only [] example_office))
                   (u "Алматы") H)).
Defined.

Lemma parse_containers_inv : forall U cs db n,
  well_filed U db ->
  well_filed U (fst (parse_containers U cs db n))
  /\ n <= snd (parse_containers U cs db n)
  /\ count_offices (fst (parse_containers U cs db n))
     = (count_offices db + Z.of_nat (snd (parse_containers U cs db n) - n))%Z.
Proof.
  intros U cs. induction cs as [|c cs IH]; intros db n W; cbn [parse_containers].
  - cbn [fst snd]. split; [exact W|]. split; [lia|]. rewrite Nat.sub_diag. cbn. lia.
  - destruct (_extract_office_data U c) as [o|] eqn:E; [|apply IH; exact W].
    destruct (extract_office_data_fields _ _ E)
      as (text & se & st & ho & _ & Eo & _ & _ & _ & _ & _ & _ & Co).
    assert (Es : dict_lookup o (u "settlement") = Some (PStr se))
      by (rewrite Eo; exact (proj1 (parsed_office_lookups text se st ho))).
    unfold _add_office_to_database, dict_getitem. rewrite Es. cbn [bind method_lower].
    destruct (IH (db_append db (lower U se) o) (S n) (well_filed_append W Co Es)) as (W' & L & C).
    split; [exact W'|]. split; [lia|]. rewrite C, count_offices_append. lia.
Qed.

Lemma parse_pages_inv : forall U pages db total,
  well_filed U db ->
  well_filed U (fst (parse_pages U pages db total))
  /\ total <= snd (parse_pages U pages db total)
  /\ count_offices (fst (parse_pages U pages db total))
     = (count_offices db + Z.of_nat (snd (parse_pages U pages db total) - total))%Z.
Proof.
  intros U pages. induction pages as [|[cs|] pages IH]; intros db total W; cbn [parse_pages].
  - cbn [fst snd]. split; [exact W|]. split; [lia|]. rewrite Nat.sub_diag. cbn. lia.
  - destruct (@parse_containers_inv U cs db 0 W) as (W1 & _ & C1).
    destruct (parse_containers U cs db 0) as [db1 n1]. cbn [fst snd] in W1, C1.
    destruct (IH db1 (total + n1) W1) as (W' & L & C).
    split; [exact W'|]. split; [lia|]. rewrite C, C1. lia.
  - apply IH. exact W.
Qed.

Lemma well_filed_nil : forall U, well_filed U [].
Proof. intro U. split; constructor. Qed.

Lemma well_filed_counts : forall U db, well_filed U db ->
  (Z.of_nat (List.length db) <= count_offices db)%Z.
Proof.
  intros U db [_ H]. induction H as [|[k os] db [N _] _ IH]; [reflexivity|].
  cbn [count_offices fold_right List.length snd]. fold (count_offices db).
  cbn [snd] in N. destruct os as [|o os]; [congruence|]. cbn [List.length]. lia.
Qed.

(** X15. After the pages are parsed, the number of offices announced in the
    log is the number of offices in the database, which [get_statistics]
    reports; the database has no key twice and no empty bucket, every office
    in it is complete and filed under the lower-cased name of its
    settlement; there are at most as many settlements as offices; and the
    database is empty exactly when no office was extracted. *)
Theorem parsed_database_statistics : forall U pages,
  let db := fst (parse_pages U pages [] 0) in
  let total := snd (parse_pages U pages [] 0) in
  parse_html_files U pages = db
  /\ total_offices (get_statistics db) = Z.of_nat total
  /\ well_filed U db
  /\ (total_settlements (get_statistics db) <= total_offices (get_statistics db))%Z
  /\ (db = [] <-> total = 0).
Proof.
  intros U pages db total.
  destruct (@parse_pages_inv U pages [] 0 (well_filed_nil U)) as (W & _ & C).
  fold db in W, C. fold total in C. cbn [count_offices fold_right] in C.
  rewrite Nat.sub_0_r in C.
  split; [|split; [|split; [|split]]].
  - unfold parse_html_files, db. destruct pages; reflexivity.
  - cbn [get_statistics total_offices]. lia.
  - exact W.
  - cbn [get_statistics total_offices total_settlements]. exact (well_filed_counts W).
  - split.
    + intro E. rewrite E in C. cbn [count_offices fold_right] in C. lia.
    + intro E. pose proof (well_filed_counts W) as L. rewrite C, E in L.
      destruct db; [reflexivity | cbn [List.length] in L; lia].
Qed.

(** ** From the scraped pages to the index *)

Lemma prepare_fold_buckets : forall U (P : office -> Prop) data acc,
  Forall (fun entry => snd entry <> [] /\ Forall P (snd entry)) data ->
  Forall (fun entry => snd entry <> [] /\ Forall P (snd entry)) acc ->
  Forall (fun entry => snd entry <> [] /\ Forall P (snd entry))
    (fold_left (fun cache '(settlement, offices) =>
                  cache_extend cache (_normalize_text U (PStr settlement)) offices)
               data acc).
Proof.
  intros U P data. induction data as [|[k offs] data IH]; intros acc Hd Ha; cbn [fold_left].
  - exact Ha.
  - inversion Hd as [|? ? [Hn Hp] Hd']; subst. cbn [snd] in Hn, Hp.
    apply IH; [exact Hd'|].
    apply Forall_forall. intros entry I. rewrite Forall_forall in Ha.
    destruct (cache_extend_in _ _ _ _ I) as [I'|[_ [Es|(old & Io & Es)]]].
    + exact (Ha _ I').
    + rewrite Es. split; assumption.
    + rewrite Es. split; [destruct old; [exact Hn | discriminate]|].
      apply Forall_app. split; [exact (proj2 (Ha _ Io)) | exact Hp].
Qed.

Lemma scraped_index_buckets : forall U db,
  well_filed U db ->
  Forall (fun entry => snd entry <> [] /\ Forall complete_office (snd entry))
         (_prepare_search_cache U db).
Proof.
  intros U db [_ W]. unfold _prepare_search_cache.
  apply prepare_fold_buckets; [|constructor].
  apply Forall_forall. intros entry I. rewrite Forall_forall in W.
  destruct (W _ I) as [N F]. split; [exact N|].
  apply Forall_forall. intros o Io. rewrite Forall_forall in F. exact (proj1 (F _ Io)).
Qed.

Lemma parse_html_files_well_filed : forall U pages, well_filed U (parse_html_files U pages).
Proof.
  intros U pages. unfold parse_html_files. destruct pages as [|p pages]; [apply well_filed_nil|].
  exact (proj1 (@parse_pages_inv U (p :: pages) [] 0 (well_filed_nil U))).
Qed.

(** ** Rows of the worksheet *)

Lemma cell_text_trimmed : forall v, strip (cell_text v) = cell_text v.
Proof.
  intro v. unfold cell_text. destruct (truthy v); [apply strip_idem | reflexivity].
Qed.

Lemma read_address_row_some : forall ws r ad,
  read_address_row ws r = Some ad ->
  row_num ad = r /\ text_row ad
  /\ exists s t h, settlement ad = PStr s /\ street ad = PStr t /\ house ad = PStr h
       /\ s <> [] /\ strip s = s /\ strip t = t /\ strip h = h.
Proof.
  intros ws r ad H. unfold read_address_row in H.
  destruct (row_cells ws r) as [[[se st] ho]|]; [|discriminate].
  destruct (negb (truthy se || truthy st || truthy ho)); [discriminate|].
  cbn [settlement truthy] in H.
  destruct (cell_text se) as [|c s] eqn:E; cbn [negb] in H; [discriminate|].
  injection H as <-. cbn [row_num settlement street house].
  split; [reflexivity|]. split; [reflexivity|].
  exists (c :: s), (cell_text st), (cell_text ho).
  repeat split; try discriminate; try apply cell_text_trimmed.
  rewrite <- E. apply cell_text_trimmed.
Qed.

(** X16. A row is read exactly when its settlement cell holds a value whose
    text is not blank: the test on the three cells together adds nothing.
    The address read keeps the number of the row, and its three fields are
    strings, trimmed, the settlement not empty; an absent, empty or zero
    street or house is read as the empty string. *)
Theorem read_address_row_characterized : forall ws r,
  (read_address_row ws r = None <->
     row_cells ws r = None
     \/ exists se st ho, row_cells ws r = Some (se, st, ho) /\ cell_text se = [])
  /\ (forall ad, read_address_row ws r = Some ad ->
        row_num ad = r /\ text_row ad
        /\ exists s t h, settlement ad = PStr s /\ street ad = PStr t /\ house ad = PStr h
             /\ s <> [] /\ strip s = s /\ strip t = t /\ strip h = h)
  /\ (forall se st ho, row_cells ws r = Some (se, st, ho) ->
        (truthy st = false -> forall ad, read_address_row ws r = Some ad -> street ad = PStr [])
        /\ (truthy ho = false -> forall ad, read_address_row ws r = Some ad -> house ad = PStr [])).
Proof.
  intros ws r. split; [|split].
  - unfold read_address_row.
    destruct (row_cells ws r) as [[[se st] ho]|]; [|split; [left; reflexivity | reflexivity]].
    cbn [settlement truthy].
    split.
    + intro H. right. exists se, st, ho. split; [reflexivity|].
      destruct (truthy se) eqn:T.
      * cbn [orb negb] in H. destruct (cell_text se); [reflexivity | discriminate].
      * unfold cell_text. rewrite T. reflexivity.
    + intros [H|(se' & st' & ho' & E & C)]; [discriminate|].
      injection E as <- <- <-. rewrite C.
      destruct (negb (truthy se || truthy st || truthy ho)); reflexivity.
  - intros ad H. exact (read_address_row_some _ _ H).
  - intros se st ho E. unfold read_address_row. rewrite E.
    split; intros T ad H;
      destruct (negb (truthy se || truthy st || truthy ho)); try discriminate;
      destruct (negb _); try discriminate; injection H as <-;
      cbn [street house]; unfold cell_text; rewrite T; reflexivity.
Qed.

Lemma read_address_row_characterized_witness :
  read_address_row
    example_worksheet 9
  = Some {| row_num := 9; settlement := PStr (u "Алматы"); street := PStr (u "Абая");
            house := PStr (u "150") |}
  /\ text_row {| row_num := 9; settlement := PStr (u "Алматы"); street := PStr (u "Абая");
                 house := PStr (u "150") |}.
Proof.
  assert (H : read_address_row
                example_worksheet 9
              = Some {| row_num := 9; settlement := PStr (u "Алматы"); street := PStr (u "Абая");
                        house := PStr (u "150") |}) by (vm_compute; reflexivity).
  exact (conj H (proj1 (proj2 (proj1 (proj2 (read_address_row_characterized _ 9)) _ H)))).
Defined.

(** ** From the worksheet to the results *)

(** X17. A row read from the worksheet and matched against the index of a
    database built by the parser raises nothing: the result is the one of
    the [try], for that row. On Python strings this result is never the
    street-not-found one, as no bucket of such an index is empty: either
    there is no candidate and the settlement is reported as not found, or
    the scan has selected a best match and the result is its status. *)
Theorem scraped_index_always_answers : forall U pages ws r ad,
  read_address_row ws r = Some ad ->
  let cache := _prepare_search_cache U (parse_html_files U pages) in
  (exists res, match_address_try U cache ad = Ok res
               /\ match_address U cache ad = res /\ r_row_num res = r)
  /\ (sized_row U ad -> sized_cache U cache ->
      match_address U cache ad <> street_not_found ad
      /\ (_find_matching_settlements U cache (settlement ad) = []
          /\ match_address U cache ad = settlement_not_found ad
          \/ exists bm best,
               scan_settlements U (street ad) (house ad)
                 (_find_matching_settlements U cache (settlement ad)) (None, f0_0)
               = Ok (Some bm, best)
               /\ match_address U cache ad = _determine_status bm ad)).
Proof.
  intros U pages ws r ad Hr cache.
  destruct (read_address_row_some _ _ Hr) as (Er & T & _).
  pose proof (scraped_index_buckets (parse_html_files_well_filed U pages)) as B.
  fold cache in B.
  assert (Hc : complete_cache cache).
  { unfold complete_cache. apply Forall_forall. intros entry I.
    rewrite Forall_forall in B. exact (proj2 (B _ I)). }
  destruct (scan_settlements_complete U T Hc) as [st Sc].
  assert (R : exists res, match_address_try U cache ad = Ok res).
  { unfold match_address_try.
    destruct (_find_matching_settlements U cache (settlement ad)) as [|c0 cands];
      [eexists; reflexivity|].
    rewrite Sc. cbn [bind]. destruct (fst st); eexists; reflexivity. }
  split.
  - destruct R as [res R]. exists res. split; [exact R|].
    assert (M : match_address U cache ad = res) by (unfold match_address; rewrite R; reflexivity).
    split; [exact M|]. rewrite <- M, <- Er. exact (proj1 (match_address_result U cache ad)).
  - intros Hrow Hcache.
    destruct (_find_matching_settlements U cache (settlement ad)) as [|c0 cands] eqn:Ec.
    + assert (M : match_address U cache ad = settlement_not_found ad)
        by (unfold match_address, match_address_try; rewrite Ec; reflexivity).
      split; [rewrite M; apply settlement_not_street|]. left. split; [reflexivity | exact M].
    + assert (N : _find_matching_settlements U cache (settlement ad) <> [])
        by (rewrite Ec; discriminate).
      rewrite <- Ec in Sc.
      pose proof (match_address_try_scan U cache ad N Sc) as Tr.
      destruct st as [[bm|] best]; cbn [fst] in Tr.
      * assert (M : match_address U cache ad = _determine_status bm ad)
          by (unfold match_address; rewrite Tr; reflexivity).
        split.
        -- rewrite M. apply determine_status_not_street.
           apply (@scan_settlements_found U (street ad) (house ad)
                    (_find_matching_settlements U cache (settlement ad)) (None, f0_0)
                    (Some bm, best)); [|exact Sc|reflexivity].
           intros bm' X. discriminate X.
        -- right. exists bm, best. rewrite Ec in Sc. split; [exact Sc | exact M].
      * exfalso.
        assert (P : forall c o m,
                  In c (_find_matching_settlements U cache (settlement ad)) ->
                  In o (c_offices c) ->
                  _match_street_and_house U (street ad) (house ad) o (c_score c) = Ok m ->
                  fgt (sh_score m) f0_0 = true).
        { intros c o m Ic Io E. exact (proj2 (office_score_bounds _ _ Hrow Hcache Ic Io E)). }
        assert (I0 : In c0 (_find_matching_settlements U cache (settlement ad)))
          by (rewrite Ec; left; reflexivity).
        pose proof (proj1 (@scan_settlements_none U (street ad) (house ad)
                              (_find_matching_settlements U cache (settlement ad))
                              (None, best) P Sc)
                      eq_refl c0 I0) as E0.
        destruct (find_matching_settlements_in _ _ _ _ I0) as (Icache & _).
        rewrite Forall_forall in B. destruct (B _ Icache) as [N0 _]. cbn [snd] in N0.
        exact (N0 E0).
Qed.

Lemma scraped_index_always_answers_witness :
  read_address_row
    example_worksheet 9
  = Some example_row
  /\ exists res,
       match_address_try blocks_only
         (_prepare_search_cache blocks_only (parse_html_files blocks_only example_pages))
         example_row = Ok res
       /\ match_address blocks_only
            (_prepare_search_cache blocks_only (parse_html_files blocks_only example_pages))
            example_row = res
       /\ r_row_num res = 9%Z.
Proof.
  assert (H : read_address_row
                example_worksheet 9
              = Some example_row) by (vm_compute; reflexivity).
  exact (conj H (proj1 (@scraped_index_always_answers blocks_only example_pages _ 9
                          example_row H))).
Defined.

(** ** The loop of [main] *)

Lemma range_from_length : forall n lo, List.length (range_from lo n) = n.
Proof. induction n as [|n IH]; intro lo; cbn [range_from List.length]; [|rewrite IH]; reflexivity. Qed.

Lemma range_from_in : forall n lo x, In x (range_from lo n) -> (lo <= x < lo + Z.of_nat n)%Z.
Proof.
  induction n as [|n IH]; intros lo x H; cbn [range_from] in H; [destruct H|].
  destruct H as [<-|H]; [lia|]. apply IH in H. lia.
Qed.

Lemma range_from_sorted : forall n lo, StronglySorted Z.lt (range_from lo n).
Proof.
  induction n as [|n IH]; intro lo; cbn [range_from]; constructor; [apply IH|].
  apply Forall_forall. intros x H. apply range_from_in in H. lia.
Qed.

Lemma process_rows_fold : forall U cache ws rows acc,
  fold_left (fun results row_num =>
               match read_address_row ws row_num with
               | Some address_data => results ++ [match_address U cache address_data]
               | None => results
               end) rows acc
  = acc ++ flat_map (fun row_num =>
                       match read_address_row ws row_num with
                       | Some address_data => [match_address U cache address_data]
                       | None => []
                       end) rows.
Proof.
  intros U cache ws rows. induction rows as [|r rows IH]; intro acc; cbn [fold_left flat_map].
  - rewrite app_nil_r. reflexivity.
  - rewrite IH. destruct (read_address_row ws r); [rewrite <- app_assoc|]; reflexivity.
Qed.

Lemma process_rows_numbers : forall U cache ws rows,
  map r_row_num (process_rows U cache ws rows)
  = filter (fun row_num => match read_address_row ws row_num with
                           | Some _ => true
                           | None => false
                           end) rows.
Proof.
  intros U cache ws rows. unfold process_rows. rewrite process_rows_fold. cbn [app].
  induction rows as [|r rows IH]; [reflexivity|]. cbn [flat_map filter].
  destruct (read_address_row ws r) as [ad|] eqn:E; [|exact IH].
  cbn [app map]. rewrite IH.
  rewrite (proj1 (match_address_result U cache ad)).
  rewrite (proj1 (read_address_row_some _ _ E)). reflexivity.
Qed.

Lemma process_rows_statuses : forall U cache ws rows,
  Forall (fun res => r_status res = status_yes \/ r_status res = status_check
                     \/ r_status res = status_no)
         (process_rows U cache ws rows).
Proof.
  intros U cache ws rows. unfold process_rows. rewrite process_rows_fold. cbn [app].
  induction rows as [|r rows IH]; [constructor|]. cbn [flat_map].
  destruct (read_address_row ws r) as [ad|]; [|exact IH].
  cbn [app]. constructor; [|exact IH]. exact (proj2 (match_address_result U cache ad)).
Qed.

Lemma load_workbook_loads : forall file ws,
  load_workbook file = inr ws
  <-> file_exists file = true /\ file_open file = None /\ file_load file = inr ws.
Proof.
  intros file ws. unfold load_workbook.
  destruct (file_exists file); cbn [negb];
    [|split; [discriminate | intros (X & _); discriminate X]].
  destruct (file_open file) as [e|].
  - split; [destruct e; discriminate | intros (_ & X & _); discriminate X].
  - destruct (file_load file) as [e|ws'].
    + split; [discriminate | intros (_ & _ & X); discriminate X].
    + split; [intro H; injection H as ->; repeat split; reflexivity
             | intros (_ & _ & X); exact X].
Qed.

Lemma main_results_processed : forall U pages file results,
  main_results U pages file = Processed results ->
  exists ws, load_workbook file = inr ws
    /\ parse_html_files U pages <> []
    /\ results = process_rows U (_prepare_search_cache U (parse_html_files U pages)) ws
                   (py_range (EXCEL_START_ROW + 1) (max_row ws + 1)).
Proof.
  intros U pages file results H. unfold main_results in H.
  destruct (parse_html_files U pages) as [|e db]; [discriminate|].
  destruct (load_workbook file) as [e'|ws]; [discriminate|].
  injection H as <-. exists ws.
  split; [reflexivity|]. split; [discriminate | reflexivity].
Qed.

Lemma parse_html_files_empty : forall U pages,
  parse_html_files U pages = [] <-> snd (parse_pages U pages [] 0) = 0.
Proof.
  intros U pages.
  destruct (@parse_pages_inv U pages [] 0 (well_filed_nil U)) as (W & _ & C).
  cbn [count_offices fold_right] in C. rewrite Nat.sub_0_r in C.
  assert (Ed : parse_html_files U pages = fst (parse_pages U pages [] 0))
    by (unfold parse_html_files; destruct pages; reflexivity).
  rewrite Ed.
  destruct (fst (parse_pages U pages [] 0)) as [|e db] eqn:E.
  - cbn [count_offices fold_right] in C. split; [intros _; lia | reflexivity].
  - split; [discriminate|]. intro Z0. exfalso.
    pose proof (well_filed_counts W) as L. rewrite C, Z0 in L. cbn [List.length] in L. lia.
Qed.

(** X18. [main] stops at stage 1 exactly when the parser extracted no
    office, whatever the input file is. With offices it stops at stage 2
    with the exception of [load_workbook] exactly when that raises: with
    [FileNotFoundError] when the file does not exist, with the exception of
    [open] when the file cannot be opened for writing, with the exception
    of openpyxl when the workbook cannot be read; no row is processed then.
    Only with offices and a file that exists, opens and loads does [main]
    reach the rows: it produces one result for each row from
    [EXCEL_START_ROW + 1] to [max_row] that [read_address_row] reads, in the
    order of the rows and under the number of its row, and none for the
    other rows; so the row numbers of the results increase, and there are
    at most [get_total_rows] results. *)
Theorem main_results_follow_the_rows : forall U pages file,
  (main_results U pages file = NoOffices <-> snd (parse_pages U pages [] 0) = 0)
  /\ (forall e, main_results U pages file = WorkbookNotLoaded e
                <-> snd (parse_pages U pages [] 0) <> 0 /\ load_workbook file = inl e)
  /\ (forall e, load_workbook file = inl e
                <-> file_exists file = false /\ e = FileNotFoundError
                    \/ file_exists file = true /\ file_open file = Some e
                    \/ file_exists file = true /\ file_open file = None
                       /\ file_load file = inl e)
  /\ (forall results, main_results U pages file = Processed results ->
        exists ws,
          file_exists file = true /\ file_open file = None /\ file_load file = inr ws
          /\ snd (parse_pages U pages [] 0) <> 0
          /\ let rows := py_range (EXCEL_START_ROW + 1) (max_row ws + 1) in
             results = process_rows U (_prepare_search_cache U (parse_html_files U pages))
                         ws rows
             /\ map r_row_num results
                = filter (fun row_num => match read_address_row ws row_num with
                                         | Some _ => true
                                         | None => false
                                         end) rows
             /\ StronglySorted Z.lt (map r_row_num results)
             /\ Forall (fun res => (EXCEL_START_ROW < r_row_num res <= max_row ws)%Z) results
             /\ Z.of_nat (List.length rows) = get_total_rows (Some ws)
             /\ (Z.of_nat (List.length results) <= get_total_rows (Some ws))%Z).
Proof.
  intros U pages file. split; [|split; [|split]].
  - rewrite <- parse_html_files_empty. unfold main_results.
    destruct (parse_html_files U pages) as [|e db]; [split; reflexivity|].
    split; [|discriminate]. destruct (load_workbook file); discriminate.
  - intro e. rewrite <- parse_html_files_empty. unfold main_results.
    destruct (parse_html_files U pages) as [|e0 db].
    + split; [discriminate | intros (X & _); exfalso; apply X; reflexivity].
    + destruct (load_workbook file) as [e'|ws].
      * split; [intro H; injection H as ->; split; [discriminate | reflexivity]
               | intros (_ & H); injection H as ->; reflexivity].
      * split; [discriminate | intros (_ & H); discriminate H].
  - intro e. unfold load_workbook.
    destruct (file_exists file); cbn [negb].
    + destruct (file_open file) as [e'|].
      * assert (X : match e' with
                    | PermissionError => inl PermissionError
                    | _ => @inl load_error worksheet e'
                    end = inl e') by (destruct e'; reflexivity).
        rewrite X. split.
        -- intro H. injection H as ->. right. left. split; reflexivity.
        -- intros [(A & _)|[(_ & A)|(_ & A & _)]]; try discriminate A.
           injection A as ->. reflexivity.
      * destruct (file_load file) as [e'|ws'].
        -- split.
           ++ intro H. injection H as ->. right. right. repeat split; reflexivity.
           ++ intros [(A & _)|[(_ & A)|(_ & _ & A)]]; try discriminate A. exact A.
        -- split; [discriminate|].
           intros [(A & _)|[(_ & A)|(_ & _ & A)]]; discriminate A.
    + split.
      * intro H. injection H as <-. left. split; reflexivity.
      * intros [(_ & ->)|[(A & _)|(A & _)]]; [reflexivity | discriminate A | discriminate A].
  - intros results H. destruct (main_results_processed _ _ _ H) as (ws & Ef & Nd & Er).
    exists ws. apply load_workbook_loads in Ef. destruct Ef as (F1 & F2 & F3).
    split; [exact F1|]. split; [exact F2|]. split; [exact F3|].
    split; [intro Z0; apply Nd; apply parse_html_files_empty; exact Z0|].
    intro rows. split; [exact Er|].
    assert (E : map r_row_num results
                = filter (fun row_num => match read_address_row ws row_num with
                                         | Some _ => true
                                         | None => false
                                         end) rows)
      by (rewrite Er; apply process_rows_numbers).
    assert (L : Z.of_nat (List.length rows) = get_total_rows (Some ws)).
    { unfold rows, py_range. rewrite range_from_length. unfold get_total_rows, EXCEL_START_ROW.
      lia. }
    split; [exact E|]. split; [|split; [|split; [exact L|]]].
    + rewrite E. unfold rows, py_range.
      pose proof (range_from_sorted (Z.to_nat (max_row ws + 1 - (EXCEL_START_ROW + 1)))
                    (EXCEL_START_ROW + 1)) as S.
      induction S as [|x l S IH F]; cbn [filter]; [constructor|].
      destruct (read_address_row ws x); [|exact IH].
      constructor; [exact IH|]. apply Forall_forall. intros y Iy.
      apply filter_In in Iy. rewrite Forall_forall in F. exact (F _ (proj1 Iy)).
    + assert (F : Forall (fun n => (EXCEL_START_ROW < n <= max_row ws)%Z)
                         (map r_row_num results)).
      { rewrite E. apply Forall_forall. intros x Ix. apply filter_In in Ix.
        destruct Ix as [Ix _]. unfold rows, py_range in Ix. apply range_from_in in Ix.
        unfold EXCEL_START_ROW in *. lia. }
      rewrite Forall_map in F. exact F.
    + rewrite <- L. rewrite <- (length_map r_row_num results), E.
      apply Nat2Z.inj_le. apply filter_length_le.
Qed.

Lemma example_main_results :
  main_results blocks_only example_pages example_file
  = Processed [{| r_row_num := 9; r_status := status_yes;
                  r_details := u "Найден: Алматы, ул. Абая, 150 (улица: 1.00, дом: 1.00)" |}].
Proof. vm_compute. reflexivity. Qed.

Lemma main_results_follow_the_rows_witness :
  main_results blocks_only example_pages example_file
  = Processed [{| r_row_num := 9; r_status := status_yes;
                  r_details := u "Найден: Алматы, ул. Абая, 150 (улица: 1.00, дом: 1.00)" |}]
  /\ exists ws,
       file_exists example_file = true /\ file_open example_file = None
       /\ file_load example_file = inr ws
       /\ map r_row_num
            [{| r_row_num := 9; r_status := status_yes;
                r_details := u "Найден: Алматы, ул. Абая, 150 (улица: 1.00, дом: 1.00)" |}]
          = filter (fun row_num => match read_address_row ws row_num with
                                   | Some _ => true
                                   | None => false
                                   end)
              (py_range (EXCEL_START_ROW + 1) (max_row ws + 1)).
Proof.
  split; [exact example_main_results|].
  destruct (proj2 (proj2 (proj2 (main_results_follow_the_rows blocks_only example_pages
                                   example_file))) _ example_main_results)
    as (ws & F1 & F2 & F3 & _ & _ & E & _).
  exists ws. exact (conj F1 (conj F2 (conj F3 E))).
Defined.

(** ** The statistics *)

Lemma count_statuses_fold : forall results a b c,
  fold_left (fun stats result => stats_incr stats (r_status result)) results
    [(status_yes, a); (status_check, b); (status_no, c)]
  = [(status_yes,
      (a + Z.of_nat (List.length (filter (fun res => pstr_eqb (r_status res) status_yes) results)))%Z);
     (status_check,
      (b + Z.of_nat (List.length (filter (fun res => pstr_eqb (r_status res) status_check) results)))%Z);
     (status_no,
      (c + Z.of_nat (List.length (filter (fun res => pstr_eqb (r_status res) status_no) results)))%Z)].
Proof.
  induction results as [|res results IH]; intros a b c; cbn [fold_left filter].
  - cbn [List.length]. rewrite !Z.add_0_r. reflexivity.
  - cbn [stats_incr].
    rewrite (pstr_eqb_sym status_yes), (pstr_eqb_sym status_check), (pstr_eqb_sym status_no).
    destruct (pstr_eqb (r_status res) status_yes) eqn:E1.
    + apply pstr_eqb_eq in E1. rewrite E1.
      change (pstr_eqb status_yes status_check) with false.
      change (pstr_eqb status_yes status_no) with false.
      rewrite IH. cbn [List.length]. repeat first [lia | reflexivity | f_equal].
    + destruct (pstr_eqb (r_status res) status_check) eqn:E2.
      * apply pstr_eqb_eq in E2. rewrite E2.
        change (pstr_eqb status_check status_no) with false.
        rewrite IH. cbn [List.length]. repeat first [lia | reflexivity | f_equal].
      * destruct (pstr_eqb (r_status res) status_no) eqn:E3.
        -- rewrite IH. cbn [List.length]. repeat first [lia | reflexivity | f_equal].
        -- cbn [stats_incr]. rewrite IH. reflexivity.
Qed.

(** X19. The counting loop of [print_statistics] counts, for each of the
    three statuses, the results that have it, and passes over any other;
    on the results of [main], whose statuses are all among the three, the
    total the percentages are taken of is the number of results. *)
Theorem statistics_count_every_result : forall results,
  count_statuses results
  = [(status_yes,
      Z.of_nat (List.length (filter (fun res => pstr_eqb (r_status res) status_yes) results)));
     (status_check,
      Z.of_nat (List.length (filter (fun res => pstr_eqb (r_status res) status_check) results)));
     (status_no,
      Z.of_nat (List.length (filter (fun res => pstr_eqb (r_status res) status_no) results)))]
  /\ (stats_total (count_statuses results) <= Z.of_nat (List.length results))%Z
  /\ (forall U pages file, main_results U pages file = Processed results ->
        stats_total (count_statuses results) = Z.of_nat (List.length results)).
Proof.
  intro results.
  assert (C : forall l, count_statuses l
              = [(status_yes,
                  Z.of_nat (List.length (filter (fun res => pstr_eqb (r_status res) status_yes) l)));
                 (status_check,
                  Z.of_nat (List.length (filter (fun res => pstr_eqb (r_status res) status_check) l)));
                 (status_no,
                  Z.of_nat (List.length (filter (fun res => pstr_eqb (r_status res) status_no) l)))]).
  { intro l. unfold count_statuses, stats0. rewrite count_statuses_fold. reflexivity. }
  assert (T : forall l,
            (stats_total (count_statuses l) <= Z.of_nat (List.length l))%Z
            /\ (Forall (fun res => r_status res = status_yes \/ r_status res = status_check
                                    \/ r_status res = status_no) l ->
                stats_total (count_statuses l) = Z.of_nat (List.length l))).
  { intro l. rewrite C. cbn [stats_total fold_right snd].
    induction l as [|res l [IH1 IH2]]; [split; reflexivity|].
    cbn [filter].
    assert (D : (pstr_eqb (r_status res) status_yes = true
                 /\ pstr_eqb (r_status res) status_check = false
                 /\ pstr_eqb (r_status res) status_no = false)
                \/ (pstr_eqb (r_status res) status_yes = false
                    /\ pstr_eqb (r_status res) status_check = true
                    /\ pstr_eqb (r_status res) status_no = false)
                \/ (pstr_eqb (r_status res) status_yes = false
                    /\ pstr_eqb (r_status res) status_check = false
                    /\ pstr_eqb (r_status res) status_no = true)
                \/ (pstr_eqb (r_status res) status_yes = false
                    /\ pstr_eqb (r_status res) status_check = false
                    /\ pstr_eqb (r_status res) status_no = false
                    /\ r_status res <> status_yes /\ r_status res <> status_check
                    /\ r_status res <> status_no)).
    { destruct (pstr_eqb (r_status res) status_yes) eqn:E1.
      - left. apply pstr_eqb_eq in E1. rewrite E1. repeat split.
      - destruct (pstr_eqb (r_status res) status_check) eqn:E2.
        + right. left. apply pstr_eqb_eq in E2. rewrite E2. repeat split.
        + destruct (pstr_eqb (r_status res) status_no) eqn:E3.
          * right. right. left. repeat split.
          * right. right. right. repeat split; try reflexivity;
              intro X; rewrite X in *; discriminate. }
    destruct D as [(E1 & E2 & E3)|[(E1 & E2 & E3)|[(E1 & E2 & E3)|(E1 & E2 & E3 & N1 & N2 & N3)]]];
      rewrite E1, E2, E3; cbn [List.length]; (split; [lia|]); intro F;
      inversion F as [|? ? Hs F']; subst; try (specialize (IH2 F'); lia).
    destruct Hs as [Hs|[Hs|Hs]]; congruence. }
  split; [exact (C results)|]. split; [exact (proj1 (T results))|].
  intros U pages file H. apply (proj2 (T _)).
  destruct (main_results_processed _ _ _ H) as (ws & _ & _ & Er). rewrite Er.
  apply process_rows_statuses.
Qed.

Lemma statistics_count_every_result_witness :
  main_results blocks_only example_pages example_file
  = Processed [{| r_row_num := 9; r_status := status_yes;
                  r_details := u "Найден: Алматы, ул. Абая, 150 (улица: 1.00, дом: 1.00)" |}]
  /\ stats_total
       (count_statuses
          [{| r_row_num := 9; r_status := status_yes;
              r_details := u "Найден: Алматы, ул. Абая, 150 (улица: 1.00, дом: 1.00)" |}])
     = Z.of_nat (List.length
          [{| r_row_num := 9; r_status := status_yes;
              r_details := u "Найден: Алматы, ул. Абая, 150 (улица: 1.00, дом: 1.00)" |}]).
Proof.
  exact (conj example_main_results
           (proj2 (proj2 (statistics_count_every_result _)) _ _ _ example_main_results)).
Defined.

(** ** The number of a house *)

Lemma take_digits_split : forall U s,
  exists post, s = take_digits U s ++ post
    /\ forallb (isdecimal U) (take_digits U s) = true
    /\ match post with [] => True | c :: _ => isdecimal U c = false end.
Proof.
  intros U. induction s as [|c s IH]; cbn [take_digits].
  - exists []. repeat split.
  - destruct (isdecimal U c) eqn:D.
    + destruct IH as (post & E & F & P). exists post. cbn [app forallb].
      rewrite D, F. repeat split; [f_equal; exact E | exact P].
    + exists (c :: s). repeat split. exact D.
Qed.

Lemma first_digit_run_split : forall U s n,
  first_digit_run U s = Some n ->
  n <> [] /\ forallb (isdecimal U) n = true
  /\ exists pre post, s = pre ++ n ++ post
       /\ forallb (fun c => negb (isdecimal U c)) pre = true
       /\ match post with [] => True | c :: _ => isdecimal U c = false end.
Proof.
  intros U. induction s as [|c s IH]; intros n H; [discriminate|].
  pose proof (first_digit_run_nonempty _ _ H) as N.
  cbn [first_digit_run] in H. destruct (isdecimal U c) eqn:D.
  - injection H as <-. destruct (take_digits_split U (c :: s)) as (post & E & F & P).
    split; [exact N|]. split; [exact F|]. exists [], post. repeat split; assumption.
  - destruct (IH _ H) as (_ & F & pre & post & E & Fp & P).
    split; [exact N|]. split; [exact F|]. exists (c :: pre), post.
    cbn [app forallb]. rewrite D, Fp. repeat split; [f_equal; exact E | exact P].
Qed.

Lemma first_digit_run_none : forall U s,
  first_digit_run U s = None <-> existsb (isdecimal U) s = false.
Proof.
  intros U. induction s as [|c s IH]; [split; reflexivity|].
  cbn [first_digit_run existsb]. destruct (isdecimal U c); [split; discriminate|].
  cbn [orb]. exact IH.
Qed.

(** X20. The house number extracted from a string is its first maximal run
    of decimal digits: it is not empty, holds digits only, no digit comes
    before it and the character after it, if any, is not a digit. There is
    none exactly when the string has no decimal digit; an absent value and
    the number 0 have none either. *)
Theorem extracted_house_number_is_first_run : forall U s,
  (forall n, _extract_house_number U (PStr s) = Some n ->
     n <> [] /\ forallb (isdecimal U) n = true
     /\ exists pre post, s = pre ++ n ++ post
          /\ forallb (fun c => negb (isdecimal U c)) pre = true
          /\ match post with [] => True | c :: _ => isdecimal U c = false end)
  /\ (_extract_house_number U (PStr s) = None <-> existsb (isdecimal U) s = false)
  /\ _extract_house_number U PNone = None
  /\ _extract_house_number U (PInt 0) = None.
Proof.
  intros U s. rewrite extract_house_number_spec. split; [|split; [|split]].
  - intros n H. exact (first_digit_run_split _ _ H).
  - apply first_digit_run_none.
  - reflexivity.
  - reflexivity.
Qed.

Lemma extracted_house_number_is_first_run_witness :
  _extract_house_number blocks_only (PStr (u "д. 12А/3")) = Some (u "12")
  /\ u "12" <> [] /\ forallb (isdecimal blocks_only) (u "12") = true
  /\ exists pre post, u "д. 12А/3" = pre ++ u "12" ++ post
       /\ forallb (fun c => negb (isdecimal blocks_only c)) pre = true
       /\ match post with [] => True | c :: _ => isdecimal blocks_only c = false end.
Proof.
  assert (H : _extract_house_number blocks_only (PStr (u "д. 12А/3")) = Some (u "12"))
    by (vm_compute; reflexivity).
  exact (conj H (proj1 (extracted_house_number_is_first_run blocks_only (u "д. 12А/3")) _ H)).
Defined.

(** ** A better match is never classified worse *)

Lemma determine_status_rank : forall bm ad,
  status_rank (r_status (_determine_status bm ad))
  = if fge (bm_total_score bm) f0_9 then 2
    else if fge (bm_total_score bm) PARTIAL_MATCH_THRESHOLD then 1 else 0.
Proof.
  intros bm ad. unfold _determine_status. cbn [r_status].
  destruct (fge (bm_total_score bm) f0_9); [reflexivity|].
  destruct (fge (bm_total_score bm) PARTIAL_MATCH_THRESHOLD); reflexivity.
Qed.

(** X21. The status is monotone in the composite score, and the composite
    score in each of the three similarities: of two best matches the one
    with the higher score never gets the lower status, 'Нет' being below
    'Проверить' and this below 'Да'; and a composite score whose three
    inputs are each at least those of another is at least the other. *)
Theorem status_is_monotone : forall bm bm' ad ad',
  fge (bm_total_score bm') (bm_total_score bm) = true ->
  status_rank (r_status (_determine_status bm ad))
  <= status_rank (r_status (_determine_status bm' ad'))
  /\ (forall s s' st st' h h',
        nonneg s -> nonneg s' -> nonneg st -> nonneg st' -> nonneg h -> nonneg h' ->
        fge s' s = true -> fge st' st = true -> fge h' h = true ->
        fge (total_score s' st' h') (total_score s st h) = true).
Proof.
  intros bm bm' ad ad' H. unfold fge in H. split.
  - rewrite !determine_status_rank. unfold fge.
    destruct (SFleb f0_9 (bm_total_score bm)) eqn:A.
    + rewrite (SFleb_trans _ _ _ A H). apply le_n.
    + destruct (SFleb PARTIAL_MATCH_THRESHOLD (bm_total_score bm)) eqn:B.
      * rewrite (SFleb_trans _ _ _ B H).
        destruct (SFleb f0_9 (bm_total_score bm')); [apply le_S, le_n | apply le_n].
      * apply Nat.le_0_l.
  - intros s s' st st' h h' Hs Hs' Hst Hst' Hh Hh' L1 L2 L3. unfold fge in *.
    eapply SFleb_trans; [apply (total_score_mono_settlement Hs Hs' Hst Hh L1)|].
    eapply SFleb_trans; [apply (total_score_mono_street Hs' Hst Hst' Hh L2)|].
    apply (total_score_mono_house Hs' Hst' Hh Hh' L3).
Qed.

Lemma status_is_monotone_witness :
  fge (bm_total_score example_best_match)
      (bm_total_score {| bm_office := example_office; bm_settlement_score := f1_0;
                         bm_total_score := f0_4; bm_details := [] |}) = true
  /\ status_rank (r_status (_determine_status
                              {| bm_office := example_office; bm_settlement_score := f1_0;
                                 bm_total_score := f0_4; bm_details := [] |} example_row))
     <= status_rank (r_status (_determine_status example_best_match example_row)).
Proof.
  assert (H : fge (bm_total_score example_best_match)
                  (bm_total_score {| bm_office := example_office; bm_settlement_score := f1_0;
                                     bm_total_score := f0_4; bm_details := [] |}) = true)
    by reflexivity.
  exact (conj H (proj1 (@status_is_monotone _ example_best_match example_row example_row H))).
Defined.
